(** * observable-socket: the envelope and the session, embedded and verified

    Sources embedded here:
    - [src/core/Message.ts]: the [Message] class (the envelope) and its
      [serialize] method;
    - [src/core/ObservableSocket.ts]: the [ObservableSocket] class (the
      session): connection life cycle, pending-request table, heartbeat,
      expiry sweep and reconnect policy.

    The host environment the class runs in (JSON, WebSocket, timers,
    promises, the clock and the random sources) is modelled next to it, as
    far as the class observes it.

    Conventions of the embedding.
    - A JavaScript string is a [string]: a sequence of 8-bit code units.
      Code units above 255 are outside the model.
    - A JavaScript number is a [JSNumber]: an integer, or one of the three
      non-finite values.  Fractional doubles are outside the model; the
      parser refuses a literal with a fraction or an exponent.
    - An object is an association list in property order, without duplicate
      keys ([unique_keys]); a [Map] is the same, in insertion order.
    - User callbacks are opaque: calling one is recorded in the trace of the
      world, it returns normally and does not call back into the session. *)

From Stdlib Require Import String Ascii List ZArith NArith Bool Lia QArith Lqa.
From Stdlib Require Import Decimal.
From Stdlib Require DecimalPos.
Import ListNotations.
Close Scope Q_scope.
Open Scope string_scope.

(* ================================================================= *)
(** * Part I. Definitions *)
(* ================================================================= *)

(** ** JavaScript values *)

(** The numbers that occur in envelopes: the integers (status codes,
    counters, times in milliseconds), written in decimal the way
    [Number.prototype.toString] writes the integers below 10^21, and the
    three values that are not finite.  Fractions are outside the model. *)
Inductive JSNumber : Type :=
| NInt (z : Z)
| NaN
| Infinity
| NegInfinity.

Unset Elimination Schemes.
Inductive value : Type :=
| VUndefined
| VNull
| VBool (b : bool)
| VNumber (n : JSNumber)
| VString (s : string)
| VArray (elems : list value)
| VObject (props : list (string * value))
| VFunction.
Set Elimination Schemes.

(** Own-property lookup, and [Map.prototype.get]. *)
Fixpoint lookup {A : Type} (k : string) (o : list (string * A)) : option A :=
  match o with
  | [] => None
  | (k', v) :: o' => if String.eqb k k' then Some v else lookup k o'
  end.

(** Property assignment [o[k] = v], and [Map.prototype.set]: an existing key
    keeps its place and takes the new value, a new key goes last. *)
Fixpoint obj_set {A : Type} (k : string) (v : A) (o : list (string * A))
  : list (string * A) :=
  match o with
  | [] => [(k, v)]
  | (k', v') :: o' =>
      if String.eqb k k' then (k', v) :: o' else (k', v') :: obj_set k v o'
  end.

(** [delete o[k]], and [Map.prototype.delete]. *)
Fixpoint obj_delete {A : Type} (k : string) (o : list (string * A))
  : list (string * A) :=
  match o with
  | [] => []
  | (k', v') :: o' =>
      if String.eqb k k' then obj_delete k o' else (k', v') :: obj_delete k o'
  end.

(** [Object.assign(target, src)]: the properties of [src] are set on
    [target] one after the other. *)
Definition obj_assign {A : Type} (target src : list (string * A))
  : list (string * A) :=
  fold_left (fun o kv => obj_set (fst kv) (snd kv) o) src target.

(** The object spread [{...a, ...b}], where [b] may be [undefined]. *)
Definition spread2 {A : Type} (a : list (string * A)) (b : option (list (string * A)))
  : list (string * A) :=
  obj_assign (obj_assign [] a) (match b with Some o => o | None => [] end).

Fixpoint unique_keys {A : Type} (o : list (string * A)) : bool :=
  match o with
  | [] => true
  | (k, _) :: o' =>
      match lookup k o' with None => unique_keys o' | Some _ => false end
  end.

(** ** [JSON.stringify] *)

Definition hex_digit (n : N) : ascii :=
  if (n <? 10)%N then ascii_of_N (48 + n) else ascii_of_N (87 + n).

(** One code unit inside a JSON string literal (QuoteJSONString). *)
Definition escape (c : ascii) : string :=
  match c with
  | "034"%char => String "\" (String "034" "")
  | "\"%char => "\\"
  | "008"%char => "\b"
  | "012"%char => "\f"
  | "010"%char => "\n"
  | "013"%char => "\r"
  | "009"%char => "\t"
  | _ =>
      if (N_of_ascii c <? 32)%N
      then "\u00" ++ String (hex_digit (N_of_ascii c / 16))
                       (String (hex_digit (N_of_ascii c mod 16)) "")
      else String c ""
  end.

Fixpoint escape_all (s : string) : string :=
  match s with
  | "" => ""
  | String c r => escape c ++ escape_all r
  end.

Definition QuoteJSONString (s : string) : string :=
  String "034" (escape_all s ++ String "034" "").

Fixpoint string_of_digits (d : uint) : string :=
  match d with
  | Nil => ""
  | D0 d => String "0" (string_of_digits d)
  | D1 d => String "1" (string_of_digits d)
  | D2 d => String "2" (string_of_digits d)
  | D3 d => String "3" (string_of_digits d)
  | D4 d => String "4" (string_of_digits d)
  | D5 d => String "5" (string_of_digits d)
  | D6 d => String "6" (string_of_digits d)
  | D7 d => String "7" (string_of_digits d)
  | D8 d => String "8" (string_of_digits d)
  | D9 d => String "9" (string_of_digits d)
  end.

Definition Number_toString (n : JSNumber) : string :=
  match n with
  | NInt Z0 => "0"
  | NInt (Zpos p) => string_of_digits (Pos.to_uint p)
  | NInt (Zneg p) => String "-" (string_of_digits (Pos.to_uint p))
  | NaN => "NaN"
  | Infinity => "Infinity"
  | NegInfinity => "-Infinity"
  end.

Definition is_finite (n : JSNumber) : bool :=
  match n with NInt _ => true | _ => false end.

(** SerializeJSONProperty without indentation.  [None] is [undefined]: such a
    value is left out of an object and written [null] inside an array. *)
Fixpoint SerializeJSONProperty (v : value) : option string :=
  match v with
  | VUndefined | VFunction => None
  | VNull => Some "null"
  | VBool true => Some "true"
  | VBool false => Some "false"
  | VNumber n => Some (if is_finite n then Number_toString n else "null")
  | VString s => Some (QuoteJSONString s)
  | VArray elems =>
      Some ("[" ++ String.concat ","
                     (map (fun e => match SerializeJSONProperty e with
                                    | Some s => s
                                    | None => "null"
                                    end) elems) ++ "]")
  | VObject props =>
      Some ("{" ++ String.concat ","
                     (flat_map (fun kv => match SerializeJSONProperty (snd kv) with
                                          | Some s => [QuoteJSONString (fst kv) ++ ":" ++ s]
                                          | None => []
                                          end) props) ++ "}")
  end.

Definition JSON_stringify (v : value) : option string := SerializeJSONProperty v.

(** ** [JSON.parse] *)

Definition is_ws (c : ascii) : bool :=
  match c with
  | " "%char | "009"%char | "010"%char | "013"%char => true
  | _ => false
  end.

Fixpoint skip_ws (s : string) : string :=
  match s with
  | String c r => if is_ws c then skip_ws r else s
  | "" => s
  end.

Fixpoint strip_prefix (p s : string) : option string :=
  match p with
  | "" => Some s
  | String c p' =>
      match s with
      | String d s' => if Ascii.eqb c d then strip_prefix p' s' else None
      | "" => None
      end
  end.

(** The next token is the character [c]. *)
Definition expect (c : ascii) (s : string) : option string :=
  match skip_ws s with
  | String d r => if Ascii.eqb c d then Some r else None
  | "" => None
  end.

Definition hex_value (c : ascii) : option N :=
  let n := N_of_ascii c in
  if ((48 <=? n) && (n <=? 57))%N then Some (n - 48)%N
  else if ((97 <=? n) && (n <=? 102))%N then Some (n - 87)%N
  else if ((65 <=? n) && (n <=? 70))%N then Some (n - 55)%N
  else None.

(** The code unit of [\uXXXX]; one above 255 is outside the model. *)
Definition code_unit (h1 h2 h3 h4 : ascii) : option ascii :=
  match hex_value h1, hex_value h2, hex_value h3, hex_value h4 with
  | Some a, Some b, Some c, Some d =>
      if ((a =? 0) && (b =? 0))%N then Some (ascii_of_N (16 * c + d)) else None
  | _, _, _, _ => None
  end.

(** The characters of a string literal, after its opening quote. *)
Fixpoint parse_chars (s : string) : option (string * string) :=
  match s with
  | "" => None
  | String c r =>
      match c with
      | "034"%char => Some ("", r)
      | "\"%char =>
          match r with
          | String e r' =>
              let simple (x : ascii) :=
                match parse_chars r' with
                | Some (t, rest) => Some (String x t, rest)
                | None => None
                end in
              match e with
              | "034"%char => simple "034"%char
              | "\"%char => simple "\"%char
              | "/"%char => simple "/"%char
              | "b"%char => simple "008"%char
              | "f"%char => simple "012"%char
              | "n"%char => simple "010"%char
              | "r"%char => simple "013"%char
              | "t"%char => simple "009"%char
              | "u"%char =>
                  match r' with
                  | String h1 (String h2 (String h3 (String h4 r''))) =>
                      match code_unit h1 h2 h3 h4, parse_chars r'' with
                      | Some x, Some (t, rest) => Some (String x t, rest)
                      | _, _ => None
                      end
                  | _ => None
                  end
              | _ => None
              end
          | "" => None
          end
      | _ =>
          if (N_of_ascii c <? 32)%N then None
          else match parse_chars r with
               | Some (t, rest) => Some (String c t, rest)
               | None => None
               end
      end
  end.

Definition digit_of_char (c : ascii) : option (uint -> uint) :=
  match c with
  | "0"%char => Some D0 | "1"%char => Some D1 | "2"%char => Some D2
  | "3"%char => Some D3 | "4"%char => Some D4 | "5"%char => Some D5
  | "6"%char => Some D6 | "7"%char => Some D7 | "8"%char => Some D8
  | "9"%char => Some D9
  | _ => None
  end.

Fixpoint parse_digits (s : string) : uint * string :=
  match s with
  | String c r =>
      match digit_of_char c with
      | Some d => let (u, rest) := parse_digits r in (d u, rest)
      | None => (Nil, s)
      end
  | "" => (Nil, s)
  end.

(** The integer part of a number literal: [0], or digits without a leading
    zero. *)
Definition parse_int_part (s : string) : option (N * string) :=
  match s with
  | String "0" r => Some (0%N, r)
  | _ => match parse_digits s with
         | (Nil, _) => None
         | (u, rest) => Some (N.of_uint u, rest)
         end
  end.

Definition integral_end (s : string) : bool :=
  match s with
  | String "." _ | String "e" _ | String "E" _ => false
  | _ => true
  end.

Definition parse_number (s : string) : option (JSNumber * string) :=
  let signed :=
    match s with
    | String "-" r => match parse_int_part r with
                      | Some (n, rest) => Some ((- Z.of_N n)%Z, rest)
                      | None => None
                      end
    | _ => match parse_int_part s with
           | Some (n, rest) => Some (Z.of_N n, rest)
           | None => None
           end
    end in
  match signed with
  | Some (z, rest) => if integral_end rest then Some (NInt z, rest) else None
  | None => None
  end.

(** The members of an object literal become properties in order; a key that
    comes twice keeps its first place and its last value. *)
Definition members_to_object (ms : list (string * value)) : list (string * value) :=
  obj_assign [] ms.

Fixpoint parse_value (fuel : nat) (s : string) {struct fuel}
  : option (value * string) :=
  match fuel with
  | O => None
  | S fuel' =>
      match skip_ws s with
      | String "n" r =>
          match strip_prefix "ull" r with Some r' => Some (VNull, r') | None => None end
      | String "t" r =>
          match strip_prefix "rue" r with Some r' => Some (VBool true, r') | None => None end
      | String "f" r =>
          match strip_prefix "alse" r with Some r' => Some (VBool false, r') | None => None end
      | String "034" r =>
          match parse_chars r with
          | Some (t, r') => Some (VString t, r')
          | None => None
          end
      | String "[" r =>
          match expect "]" r with
          | Some r' => Some (VArray [], r')
          | None => match parse_elements fuel' r with
                    | Some (vs, r') => Some (VArray vs, r')
                    | None => None
                    end
          end
      | String "{" r =>
          match expect "}" r with
          | Some r' => Some (VObject [], r')
          | None => match parse_members fuel' r with
                    | Some (ms, r') => Some (VObject (members_to_object ms), r')
                    | None => None
                    end
          end
      | s' => match parse_number s' with
              | Some (n, r') => Some (VNumber n, r')
              | None => None
              end
      end
  end
with parse_elements (fuel : nat) (s : string) {struct fuel}
  : option (list value * string) :=
  match fuel with
  | O => None
  | S fuel' =>
      match parse_value fuel' s with
      | Some (v, r) =>
          match skip_ws r with
          | String "," r' =>
              match parse_elements fuel' r' with
              | Some (vs, r'') => Some (v :: vs, r'')
              | None => None
              end
          | String "]" r' => Some ([v], r')
          | _ => None
          end
      | None => None
      end
  end
with parse_members (fuel : nat) (s : string) {struct fuel}
  : option (list (string * value) * string) :=
  match fuel with
  | O => None
  | S fuel' =>
      match skip_ws s with
      | String "034" r =>
          match parse_chars r with
          | Some (k, r1) =>
              match skip_ws r1 with
              | String ":" r2 =>
                  match parse_value fuel' r2 with
                  | Some (v, r3) =>
                      match skip_ws r3 with
                      | String "," r4 =>
                          match parse_members fuel' r4 with
                          | Some (ms, r5) => Some ((k, v) :: ms, r5)
                          | None => None
                          end
                      | String "}" r4 => Some ([(k, v)], r4)
                      | _ => None
                      end
                  | None => None
                  end
              | _ => None
              end
          | None => None
          end
      | _ => None
      end
  end.

(** [JSON.parse]: one value, then only white space.  [None] is the
    [SyntaxError].  Every step of the descent consumes a character, so the
    length of the text is fuel enough. *)
Definition JSON_parse (s : string) : option value :=
  match parse_value (S (String.length s)) s with
  | Some (v, r) => match skip_ws r with "" => Some v | _ => None end
  | None => None
  end.

(** The values [JSON.stringify] writes without loss: no [undefined] and no
    function below the top, finite numbers only. *)
Fixpoint representable (v : value) : bool :=
  match v with
  | VUndefined | VFunction => false
  | VNull | VBool _ | VString _ => true
  | VNumber n => is_finite n
  | VArray elems => forallb representable elems
  | VObject props =>
      forallb (fun kv => representable (snd kv)) props && unique_keys props
  end.

(** The fuel the parser needs to read a value back. *)
Fixpoint size (v : value) : nat :=
  match v with
  | VArray elems => S (list_sum (map (fun e => S (size e)) elems))
  | VObject props => S (list_sum (map (fun kv => S (size (snd kv))) props))
  | _ => 1
  end.

(** What may follow a value inside a JSON text. *)
Definition delimited (s : string) : bool :=
  match s with
  | "" => true
  | String c _ => match c with
                  | ","%char | "]"%char | "}"%char => true
                  | _ => false
                  end
  end.

Definition not_digit_start (s : string) : bool :=
  match s with
  | String c _ => match digit_of_char c with Some _ => false | None => true end
  | "" => true
  end.

Definition number_start (s : string) : bool :=
  match s with
  | String c _ =>
      match c with
      | "-"%char => true
      | _ => match digit_of_char c with Some _ => true | None => false end
      end
  | "" => false
  end.

Definition value_start (s : string) : bool :=
  match s with
  | String c _ =>
      match c with
      | "n"%char | "t"%char | "f"%char | "034"%char
      | "["%char | "{"%char | "-"%char => true
      | _ => match digit_of_char c with Some _ => true | None => false end
      end
  | "" => false
  end.

Definition printed (v : value) : string :=
  match SerializeJSONProperty v with Some s => s | None => "null" end.

Definition printed_member (kv : string * value) : list string :=
  match SerializeJSONProperty (snd kv) with
  | Some s => [QuoteJSONString (fst kv) ++ ":" ++ s]
  | None => []
  end.

(** ** The envelope: [class Message] *)

(** Modelled from the spec: the enum [StatusCodes] is imported from the
    package index, which is not among the sources; the spec has the status
    as a small integer code that defaults to a success code, and the
    documented wire example carries 200. *)
Definition StatusCodes_OK : Z := 200%Z.

Record Message : Type := mkMessage {
  headers : option (list (string * value));
  uuid : string;
  route : option string;
  payload : value;
  status : Z
}.

(** [new Message(route, payload, headers, status, uuid)]; an argument left
    out is [None], and [randomUUID] is what [crypto.randomUUID()] returns. *)
Definition new_Message (route0 : string) (payload0 : value)
    (headers0 : option (list (string * value))) (status0 : option Z)
    (uuid0 : option string) (randomUUID : string) : Message :=
  {| headers := headers0;
     uuid := match uuid0 with
             | Some "" | None => randomUUID
             | Some u => u
             end;
     route := Some route0;
     payload := payload0;
     status := match status0 with Some c => c | None => StatusCodes_OK end |}.

Definition set_headers (h : option (list (string * value))) (m : Message) : Message :=
  {| headers := h; uuid := uuid m; route := route m;
     payload := payload m; status := status m |}.

(** The own properties of an instance, in declaration order.  [serialize] is
    an arrow-function field, hence an own property too. *)
Definition own_properties (m : Message) : list (string * value) :=
  [ ("headers", match headers m with Some h => VObject h | None => VUndefined end);
    ("uuid", VString (uuid m));
    ("route", match route m with Some r => VString r | None => VNull end);
    ("payload", payload m);
    ("status", VNumber (NInt (status m)));
    ("serialize", VFunction) ].

(** [serialize = () => JSON.stringify(this)].  [JSON.stringify] of an object
    is always a string. *)
Definition serialize (m : Message) : string :=
  match JSON_stringify (VObject (own_properties m)) with
  | Some s => s
  | None => "undefined"
  end.

(** Reading a property [v.k] of a parsed frame, for the field names of the
    envelope.  [None] is the [TypeError] of reading a property of [null] or
    [undefined]; a primitive has no such property. *)
Definition get_field (v : value) (k : string) : option value :=
  match v with
  | VUndefined | VNull => None
  | VObject props =>
      Some (match lookup k props with Some x => x | None => VUndefined end)
  | _ => Some VUndefined
  end.

(** The envelopes that survive the wire: headers and payload are
    [undefined] or representable. *)
Definition wire_safe (m : Message) : bool :=
  match headers m with
  | Some h => representable (VObject h)
  | None => true
  end &&
  match payload m with
  | VUndefined => true
  | p => representable p
  end.

(** ** The host: WebSocket, timers, promises, the trace *)

Inductive ReadyState : Type := CONNECTING | OPEN | CLOSING | CLOSED.

(** A transport created by [connect].  Its handlers are closures of
    [connect]: they hold the [socketUrl] and the [enableQueManager] that
    [connect] was called with. *)
Record WebSocket : Type := mkWebSocket {
  url : string;
  readyState : ReadyState;
  closure_enableQueManager : bool
}.

Record Response : Type := mkResponse {
  message : value;
  success : bool
}.

(** The callback of a waiter: a function of the caller, or the [resolve] of
    the promise that [sendAndWait] returned. *)
Inductive Handler : Type :=
| UserHandler (id : nat)
| PromiseResolve (p : nat).

Definition Callback : Type := nat.

Record QueItem : Type := mkQueItem {
  onMessage : Handler;
  expire : option Z
}.

Inductive Promise : Type :=
| Pending
| Fulfilled (r : Response)
| Rejected (reason : string).

(** What the callback of a timer does. *)
Inductive TimerTask : Type :=
| HeartbeatTick
| HeartbeatTimeout
| QueSweep
| Reconnect (socketUrl : string) (enableQueManager : bool).

Record Timer : Type := mkTimer {
  timer_id : nat;
  task : TimerTask;
  delay : Q
}.

(** [setInterval] timers stay armed after they fire. *)
Definition repeats (t : TimerTask) : bool :=
  match t with
  | HeartbeatTick | QueSweep => true
  | HeartbeatTimeout | Reconnect _ _ => false
  end.

(** What the session does to the outside, in order. *)
Inductive Effect : Type :=
| NewWebSocket (socketUrl : string)
| ConnectionChange (cb : Callback) (name : string) (state : bool)
| PushReceived (cb : Callback) (r : Response)
| WaiterCalled (key : string) (h : Handler) (r : Response)
| WireSend (sock : nat) (data : string)
| ConsoleError (msg : string)
| ConsoleWarn (msg : string).

(** ** [SocketConfig] *)

Module Config.

Record SocketConfig : Type := mkSocketConfig {
  queManager : bool;
  queRunTimeout : Z;
  requestTimeout : Z;
  maxReconnectAttempts : Z;
  heartbeatRate : Z;
  heartbeatTimeoutDuration : Z;
  globalHeaders : list (string * value)
}.

(** [Partial<SocketConfig>]: a property left out is [None]. *)
Record Partial : Type := mkPartial {
  p_queManager : option bool;
  p_queRunTimeout : option Z;
  p_requestTimeout : option Z;
  p_maxReconnectAttempts : option Z;
  p_heartbeatRate : option Z;
  p_heartbeatTimeoutDuration : option Z;
  p_globalHeaders : option (list (string * value))
}.

Definition empty : Partial := mkPartial None None None None None None None.

Definition or_default {A : Type} (o : option A) (d : A) : A :=
  match o with Some x => x | None => d end.

(** [Object.assign({}, socketConfig, userConfig)]. *)
Definition assign (d : SocketConfig) (u : option Partial) : SocketConfig :=
  match u with
  | None => d
  | Some u =>
      {| queManager := or_default (p_queManager u) (queManager d);
         queRunTimeout := or_default (p_queRunTimeout u) (queRunTimeout d);
         requestTimeout := or_default (p_requestTimeout u) (requestTimeout d);
         maxReconnectAttempts :=
           or_default (p_maxReconnectAttempts u) (maxReconnectAttempts d);
         heartbeatRate := or_default (p_heartbeatRate u) (heartbeatRate d);
         heartbeatTimeoutDuration :=
           or_default (p_heartbeatTimeoutDuration u) (heartbeatTimeoutDuration d);
         globalHeaders := or_default (p_globalHeaders u) (globalHeaders d) |}
  end.

End Config.

Definition MAX_TIMEOUT : Z := 1800000%Z.
Definition MIN_QUE_TIMEOUT : Z := 2000%Z.

Definition socketConfig : Config.SocketConfig :=
  {| Config.queManager := false;
     Config.queRunTimeout := 5000;
     Config.requestTimeout := 30000;
     Config.maxReconnectAttempts := 5;
     Config.heartbeatRate := 60000;
     Config.heartbeatTimeoutDuration := 59000;
     Config.globalHeaders := [] |}.

(** ** [class ObservableSocket]: the fields *)

Record ObservableSocket : Type := mkObservableSocket {
  name : string;
  socket : option nat;
  pendingRequests : list (string * QueItem);
  onMessageReceived : option Callback;
  onSocketConnectionChange : option Callback;
  manuallyClosed : bool;
  reconnectAttempts : Z;
  heartbeatInterval : option nat;
  heartbeatTimeout : option nat;
  queManagerInterval : option nat;
  requestTimeout : Z;
  queManagerTimeout : Z;
  maxReconnectAttempts : Z;
  heartbeatRate : Z;
  heartbeatTimeoutDuration : Z;
  enableQueManager : bool;
  globalHeaders : list (string * value)
}.

Definition set_socket (x : option nat) (o : ObservableSocket) : ObservableSocket :=
  mkObservableSocket (name o) x (pendingRequests o) (onMessageReceived o)
    (onSocketConnectionChange o) (manuallyClosed o) (reconnectAttempts o)
    (heartbeatInterval o) (heartbeatTimeout o) (queManagerInterval o)
    (requestTimeout o) (queManagerTimeout o) (maxReconnectAttempts o)
    (heartbeatRate o) (heartbeatTimeoutDuration o) (enableQueManager o)
    (globalHeaders o).

Definition set_pendingRequests (x : list (string * QueItem)) (o : ObservableSocket)
  : ObservableSocket :=
  mkObservableSocket (name o) (socket o) x (onMessageReceived o)
    (onSocketConnectionChange o) (manuallyClosed o) (reconnectAttempts o)
    (heartbeatInterval o) (heartbeatTimeout o) (queManagerInterval o)
    (requestTimeout o) (queManagerTimeout o) (maxReconnectAttempts o)
    (heartbeatRate o) (heartbeatTimeoutDuration o) (enableQueManager o)
    (globalHeaders o).

Definition set_manuallyClosed (x : bool) (o : ObservableSocket) : ObservableSocket :=
  mkObservableSocket (name o) (socket o) (pendingRequests o) (onMessageReceived o)
    (onSocketConnectionChange o) x (reconnectAttempts o)
    (heartbeatInterval o) (heartbeatTimeout o) (queManagerInterval o)
    (requestTimeout o) (queManagerTimeout o) (maxReconnectAttempts o)
    (heartbeatRate o) (heartbeatTimeoutDuration o) (enableQueManager o)
    (globalHeaders o).

Definition set_reconnectAttempts (x : Z) (o : ObservableSocket) : ObservableSocket :=
  mkObservableSocket (name o) (socket o) (pendingRequests o) (onMessageReceived o)
    (onSocketConnectionChange o) (manuallyClosed o) x
    (heartbeatInterval o) (heartbeatTimeout o) (queManagerInterval o)
    (requestTimeout o) (queManagerTimeout o) (maxReconnectAttempts o)
    (heartbeatRate o) (heartbeatTimeoutDuration o) (enableQueManager o)
    (globalHeaders o).

Definition set_heartbeatInterval (x : option nat) (o : ObservableSocket)
  : ObservableSocket :=
  mkObservableSocket (name o) (socket o) (pendingRequests o) (onMessageReceived o)
    (onSocketConnectionChange o) (manuallyClosed o) (reconnectAttempts o)
    x (heartbeatTimeout o) (queManagerInterval o)
    (requestTimeout o) (queManagerTimeout o) (maxReconnectAttempts o)
    (heartbeatRate o) (heartbeatTimeoutDuration o) (enableQueManager o)
    (globalHeaders o).

Definition set_heartbeatTimeout (x : option nat) (o : ObservableSocket)
  : ObservableSocket :=
  mkObservableSocket (name o) (socket o) (pendingRequests o) (onMessageReceived o)
    (onSocketConnectionChange o) (manuallyClosed o) (reconnectAttempts o)
    (heartbeatInterval o) x (queManagerInterval o)
    (requestTimeout o) (queManagerTimeout o) (maxReconnectAttempts o)
    (heartbeatRate o) (heartbeatTimeoutDuration o) (enableQueManager o)
    (globalHeaders o).

Definition set_queManagerInterval (x : option nat) (o : ObservableSocket)
  : ObservableSocket :=
  mkObservableSocket (name o) (socket o) (pendingRequests o) (onMessageReceived o)
    (onSocketConnectionChange o) (manuallyClosed o) (reconnectAttempts o)
    (heartbeatInterval o) (heartbeatTimeout o) x
    (requestTimeout o) (queManagerTimeout o) (maxReconnectAttempts o)
    (heartbeatRate o) (heartbeatTimeoutDuration o) (enableQueManager o)
    (globalHeaders o).

(** ** The world: the session object and the host state it lives in *)

Record World : Type := mkWorld {
  this : ObservableSocket;
  sockets : list WebSocket;      (* every transport created so far, by handle *)
  timers : list Timer;           (* the timers that are armed *)
  next_timer : nat;              (* the next timer id the host hands out *)
  promises : list Promise;       (* the promises of sendAndWait, by handle *)
  trace : list Effect            (* oldest effect first *)
}.

Definition set_this (x : ObservableSocket) (w : World) : World :=
  mkWorld x (sockets w) (timers w) (next_timer w) (promises w) (trace w).

Definition set_sockets (x : list WebSocket) (w : World) : World :=
  mkWorld (this w) x (timers w) (next_timer w) (promises w) (trace w).

Definition set_timers (x : list Timer) (w : World) : World :=
  mkWorld (this w) (sockets w) x (next_timer w) (promises w) (trace w).

Definition set_promises (x : list Promise) (w : World) : World :=
  mkWorld (this w) (sockets w) (timers w) (next_timer w) x (trace w).

(** Replacing the element at index [i]; out of range, nothing changes. *)
Fixpoint update_nth {A : Type} (i : nat) (f : A -> A) (l : list A) : list A :=
  match l, i with
  | [], _ => []
  | x :: l', O => f x :: l'
  | x :: l', S i' => x :: update_nth i' f l'
  end.

(** ** A state and exception monad for the methods *)

Inductive Exn : Type := SyntaxError | TypeError | InvalidStateError.

Inductive Result (A : Type) : Type :=
| Ok (a : A)
| Throw (e : Exn).
Arguments Ok {A} a.
Arguments Throw {A} e.

Definition M (A : Type) : Type := World -> Result A * World.

Definition ret {A : Type} (a : A) : M A := fun w => (Ok a, w).

Definition bind {A B : Type} (m : M A) (k : A -> M B) : M B :=
  fun w => match m w with
           | (Ok a, w') => k a w'
           | (Throw e, w') => (Throw e, w')
           end.

Definition throw {A : Type} (e : Exn) : M A := fun w => (Throw e, w).

Definition try_catch {A : Type} (body : M A) (handler : Exn -> M A) : M A :=
  fun w => match body w with
           | (Ok a, w') => (Ok a, w')
           | (Throw e, w') => handler e w'
           end.

Declare Scope monad_scope.
Delimit Scope monad_scope with monad.
Notation "x <- m ;; k" := (bind m (fun x => k))
  (at level 61, m at next level, right associativity) : monad_scope.
Notation "m ;; k" := (bind m (fun _ => k))
  (at level 61, right associativity) : monad_scope.
Open Scope monad_scope.

Definition get_this : M ObservableSocket := fun w => (Ok (this w), w).

Definition modify_this (f : ObservableSocket -> ObservableSocket) : M unit :=
  fun w => (Ok tt, set_this (f (this w)) w).

Definition emit (e : Effect) : M unit :=
  fun w => (Ok tt, mkWorld (this w) (sockets w) (timers w) (next_timer w)
                     (promises w) (trace w ++ [e])%list).

Definition console_error (msg : string) : M unit := emit (ConsoleError msg).
Definition console_warn (msg : string) : M unit := emit (ConsoleWarn msg).

Definition when_some {A : Type} (o : option A) (f : A -> M unit) : M unit :=
  match o with Some x => f x | None => ret tt end.

Fixpoint forEach {A : Type} (l : list A) (f : A -> M unit) : M unit :=
  match l with
  | [] => ret tt
  | x :: l' => f x ;; forEach l' f
  end.

(** [setTimeout] and [setInterval]: the host arms a timer and returns its
    id; the ids are positive, so a handle that is set is truthy. *)
Definition set_timer (t : TimerTask) (d : Q) : M nat :=
  fun w => (Ok (next_timer w),
            mkWorld (this w) (sockets w)
              (timers w ++ [mkTimer (next_timer w) t d])%list
              (S (next_timer w)) (promises w) (trace w)).

(** [clearTimeout] and [clearInterval]. *)
Definition clear_timer (id : nat) : M unit :=
  fun w => (Ok tt,
            set_timers (filter (fun t => negb (Nat.eqb (timer_id t) id)) (timers w)) w).

(** [new WebSocket(socketUrl)], with the closure of [connect] attached. *)
Definition new_WebSocket (socketUrl : string) (enableQueManager0 : bool) : M nat :=
  fun w => (Ok (List.length (sockets w)),
            mkWorld (this w)
              (sockets w ++ [mkWebSocket socketUrl CONNECTING enableQueManager0])%list
              (timers w) (next_timer w) (promises w)
              (trace w ++ [NewWebSocket socketUrl])%list).

(** [this.socket?.readyState]. *)
Definition socket_readyState (w : World) : option ReadyState :=
  match socket (this w) with
  | Some i => option_map readyState (nth_error (sockets w) i)
  | None => None
  end.

Definition is_open (w : World) : bool :=
  match socket_readyState w with Some OPEN => true | _ => false end.

Definition set_readyState (i : nat) (st : ReadyState) : M unit :=
  fun w => (Ok tt,
            set_sockets
              (update_nth i (fun s => mkWebSocket (url s) st (closure_enableQueManager s))
                 (sockets w)) w).

(** [this.socket.send(data)]: an [InvalidStateError] while connecting; the
    data leave on an open transport and are dropped on a closing or closed
    one. *)
Definition socket_send (data : string) : M unit :=
  fun w => match socket (this w) with
           | None => throw TypeError w
           | Some i =>
               match option_map readyState (nth_error (sockets w) i) with
               | Some CONNECTING => throw InvalidStateError w
               | Some OPEN => emit (WireSend i data) w
               | _ => ret tt w
               end
           end.

(** [this.socket?.close()]: the closing handshake starts; the close event
    comes later, from the host. *)
Definition socket_close : M unit :=
  fun w => match socket (this w) with
           | None => ret tt w
           | Some i =>
               match option_map readyState (nth_error (sockets w) i) with
               | Some CONNECTING | Some OPEN => set_readyState i CLOSING w
               | _ => ret tt w
               end
           end.

(** [new Promise(...)]: a fresh pending promise. *)
Definition new_Promise : M nat :=
  fun w => (Ok (List.length (promises w)), set_promises (promises w ++ [Pending])%list w).

(** [resolve] and [reject] settle a pending promise and do nothing to a
    settled one. *)
Definition settle (p : nat) (outcome : Promise) : M unit :=
  fun w => (Ok tt,
            set_promises
              (update_nth p (fun s => match s with Pending => outcome | _ => s end)
                 (promises w)) w).

(** Calling the handler of a waiter. *)
Definition invoke (key : string) (q : QueItem) (r : Response) : M unit :=
  emit (WaiterCalled key (onMessage q) r) ;;
  match onMessage q with
  | PromiseResolve p => settle p (Fulfilled r)
  | UserHandler _ => ret tt
  end.

Definition failure : Response := mkResponse VNull false.

(** ** [class ObservableSocket]: the methods *)

(** [startQueManager] and its interval callback (the expiry sweep). *)
Definition startQueManager : M unit :=
  o <- get_this ;;
  when_some (queManagerInterval o) clear_timer ;;
  id <- set_timer QueSweep (inject_Z (queManagerTimeout o)) ;;
  modify_this (set_queManagerInterval (Some id)).

(** [queItem.expire && queItem.expire < Date.now()]. *)
Definition expired (q : QueItem) (now : Z) : bool :=
  match expire q with
  | Some e => negb (e =? 0)%Z && (e <? now)%Z
  | None => false
  end.

(** The callback of [forEach] in the sweep, for one entry of the table. *)
Definition sweep_entry (now : Z) (kq : string * QueItem) : M unit :=
  if expired (snd kq) now
  then invoke (fst kq) (snd kq) failure ;;
       modify_this (fun o' =>
         set_pendingRequests (obj_delete (fst kq) (pendingRequests o')) o')
  else ret tt.

Definition sweep (now : Z) : M unit :=
  o <- get_this ;;
  forEach (pendingRequests o) (sweep_entry now).

Definition stopQueManager : M unit :=
  o <- get_this ;;
  match queManagerInterval o with
  | Some id => clear_timer id ;; modify_this (set_queManagerInterval None)
  | None => ret tt
  end.

Definition stopHeartbeat : M unit :=
  o <- get_this ;;
  match heartbeatInterval o with
  | Some id => clear_timer id ;; modify_this (set_heartbeatInterval None)
  | None => ret tt
  end ;;
  o <- get_this ;;
  match heartbeatTimeout o with
  | Some id => clear_timer id ;; modify_this (set_heartbeatTimeout None)
  | None => ret tt
  end.

(** [sendMessage(message)].  The envelope of the caller is changed in
    place; the result is that envelope as the call leaves it. *)
Definition sendMessage (m : Message) : M Message :=
  fun w =>
    if is_open w
    then (o <- get_this ;;
          let m' := set_headers (Some (spread2 (globalHeaders o) (headers m))) m in
          socket_send (serialize m') ;;
          ret m') w
    else (console_error "Cannot send message: WebSocket is not connected." ;;
          ret m) w.

(** [onResponse(request, onReceivedAction)]; [now] is [Date.now()]. *)
Definition onResponse (request : Message) (onReceivedAction : Handler) (now : Z)
  : M Message :=
  o <- get_this ;;
  let request' :=
    set_headers (Some (spread2 (globalHeaders o) (headers request))) request in
  modify_this (fun o' =>
    set_pendingRequests
      (obj_set (uuid request')
         {| onMessage := onReceivedAction;
            expire := Some (now + requestTimeout o')%Z |}
         (pendingRequests o')) o') ;;
  sendMessage request'.

Definition exn_name (e : Exn) : string :=
  match e with
  | SyntaxError => "SyntaxError"
  | TypeError => "TypeError"
  | InvalidStateError => "InvalidStateError"
  end.

(** [sendAndWait(message)]: the promise it returns, and the envelope as the
    call leaves it.  The executor runs at once; what it throws rejects the
    promise. *)
Definition sendAndWait (m : Message) (now : Z) : M (nat * Message) :=
  p <- new_Promise ;;
  try_catch
    (fun w =>
       if negb (is_open w)
       then (settle p (Rejected "WebSocket is not connected.") ;; ret (p, m)) w
       else (m' <- onResponse m (PromiseResolve p) now ;; ret (p, m')) w)
    (fun e => settle p (Rejected (exn_name e)) ;; ret (p, m)).

(** The heartbeat: [startHeartbeat], its interval callback and the timeout
    callback that the interval callback arms. *)
Definition startHeartbeat : M unit :=
  o <- get_this ;;
  when_some (heartbeatInterval o) clear_timer ;;
  id <- set_timer HeartbeatTick (inject_Z (heartbeatRate o)) ;;
  modify_this (set_heartbeatInterval (Some id)).

Definition heartbeat_tick (randomUUID : string) : M unit :=
  fun w =>
    if is_open w
    then (sendMessage (new_Message "PING" (VObject []) None None None randomUUID) ;;
          o <- get_this ;;
          when_some (heartbeatTimeout o) clear_timer ;;
          id <- set_timer HeartbeatTimeout (inject_Z (heartbeatTimeoutDuration o)) ;;
          modify_this (set_heartbeatTimeout (Some id))) w
    else ret tt w.

Definition heartbeat_timeout : M unit :=
  console_warn "No PONG received! Closing WebSocket..." ;;
  socket_close.

(** [close()]. *)
Definition close : M unit :=
  modify_this (set_manuallyClosed true) ;;
  stopQueManager ;;
  stopHeartbeat ;;
  socket_close.

(** [connect(socketUrl, enableQueManager)]; the four handlers it attaches
    follow. *)
Definition connect (socketUrl : string) (enableQueManager0 : bool) : M unit :=
  i <- new_WebSocket socketUrl enableQueManager0 ;;
  modify_this (set_socket (Some i)) ;;
  modify_this (set_manuallyClosed false).

Definition notify (state : bool) : M unit :=
  o <- get_this ;;
  when_some (onSocketConnectionChange o)
    (fun cb => emit (ConnectionChange cb (name o) state)).

Definition onopen (enableQueManager0 : bool) : M unit :=
  notify true ;;
  modify_this (set_reconnectAttempts 0%Z) ;;
  startHeartbeat ;;
  if enableQueManager0 then startQueManager else ret tt.

Definition JSON_parse_or_throw (data : string) : M value :=
  match JSON_parse data with
  | Some v => ret v
  | None => throw SyntaxError
  end.

Definition read_field (v : value) (k : string) : M value :=
  match get_field v k with
  | Some x => ret x
  | None => throw TypeError
  end.

(** [this.pendingRequests.get(key)], the key being any value: only a string
    is a key of the table. *)
Definition Map_get {A : Type} (key : value) (m : list (string * A)) : option A :=
  match key with
  | VString k => lookup k m
  | _ => None
  end.

Definition Map_delete {A : Type} (key : value) (m : list (string * A))
  : list (string * A) :=
  match key with
  | VString k => obj_delete k m
  | _ => m
  end.

Definition key_string (key : value) : string :=
  match key with VString k => k | _ => "" end.

Definition is_PONG (r : value) : bool :=
  match r with
  | VString s => String.eqb s "PONG"
  | _ => false
  end.

Definition onmessage (data : string) : M unit :=
  try_catch
    (msg <- JSON_parse_or_throw data ;;
     r <- read_field msg "route" ;;
     if is_PONG r
     then (o <- get_this ;; when_some (heartbeatTimeout o) clear_timer)
     else
       (o <- get_this ;;
        when_some (onMessageReceived o)
          (fun cb => emit (PushReceived cb (mkResponse msg true))) ;;
        u <- read_field msg "uuid" ;;
        o <- get_this ;;
        match Map_get u (pendingRequests o) with
        | Some pending =>
            invoke (key_string u) pending (mkResponse msg true) ;;
            modify_this (fun o' =>
              set_pendingRequests (Map_delete u (pendingRequests o')) o')
        | None => ret tt
        end))
    (fun _ => console_error "Invalid WebSocket message:").

Definition onerror : M unit := console_error "WebSocket error:".

(** The reconnect delay of [onclose]: [Math.min(max, base * 2 ** attempts)]
    plus [Math.random() * 300]. *)
Definition backoff (attempts : Z) : Z := Z.min 15000 (1000 * 2 ^ attempts).

Definition jitter (random : Q) : Q := (random * 300)%Q.

Definition reconnect_delay (attempts : Z) (random : Q) : Q :=
  (inject_Z (backoff attempts) + jitter random)%Q.

Definition policy_close (code : Z) : bool :=
  existsb (Z.eqb code) [1008; 1011]%Z.

(** The end of the [onclose] handler: whether to reconnect; [random] is
    what [Math.random()] returns. *)
Definition reconnect_policy (socketUrl : string) (enableQueManager0 : bool)
    (code : Z) (random : Q) : M unit :=
  if policy_close code
  then console_error
         "Server closed connection due to authentication or policy violation."
  else
    (o <- get_this ;;
     if manuallyClosed o then ret tt
     else if (reconnectAttempts o <? maxReconnectAttempts o)%Z
     then (set_timer (Reconnect socketUrl enableQueManager0)
             (reconnect_delay (reconnectAttempts o) random) ;;
           ret tt)
     else console_error "Max reconnect attempts reached.").

(** The callback of [forEach] in [onclose]. *)
Definition fail_entry (kq : string * QueItem) : M unit :=
  invoke (fst kq) (snd kq) failure.

(** The [onclose] handler. *)
Definition onclose (socketUrl : string) (enableQueManager0 : bool)
    (code : Z) (random : Q) : M unit :=
  stopQueManager ;;
  stopHeartbeat ;;
  o <- get_this ;;
  forEach (pendingRequests o) fail_entry ;;
  modify_this (set_pendingRequests []) ;;
  notify false ;;
  reconnect_policy socketUrl enableQueManager0 code random.

(** The callback of the reconnect timer. *)
Definition reconnect (socketUrl : string) (enableQueManager0 : bool) : M unit :=
  modify_this (fun o => set_reconnectAttempts (reconnectAttempts o + 1)%Z o) ;;
  connect socketUrl enableQueManager0.

(** The constructor. *)
Definition clamp_requestTimeout (t : Z) : Z :=
  if (t >? MAX_TIMEOUT)%Z then MAX_TIMEOUT
  else if (t <? MIN_QUE_TIMEOUT)%Z then MIN_QUE_TIMEOUT
  else t.

Definition new_ObservableSocket (name0 socketUrl : string)
    (onSocketConnectChanged onMessageReceived0 : option Callback)
    (userConfig : option Config.Partial) : World :=
  let config := Config.assign socketConfig userConfig in
  let o :=
    {| name := name0;
       socket := None;
       pendingRequests := [];
       onMessageReceived := onMessageReceived0;
       onSocketConnectionChange := onSocketConnectChanged;
       manuallyClosed := false;
       reconnectAttempts := 0;
       heartbeatInterval := None;
       heartbeatTimeout := None;
       queManagerInterval := None;
       requestTimeout := clamp_requestTimeout (Config.requestTimeout config);
       queManagerTimeout := Config.queRunTimeout config;
       maxReconnectAttempts := Config.maxReconnectAttempts config;
       heartbeatRate := Config.heartbeatRate config;
       heartbeatTimeoutDuration := Config.heartbeatTimeoutDuration config;
       enableQueManager := Config.queManager config;
       globalHeaders := Config.globalHeaders config |} in
  snd (connect socketUrl (enableQueManager o) (mkWorld o [] [] 1 [] [])).

(** ** Turns of the event loop *)

(** One turn: an event of a transport, a timer that fires, or a call of a
    public method.  An event carries what the host hands to the code during
    the turn: [now] is [Date.now()], [random] is [Math.random()] and
    [randomUUID] is [crypto.randomUUID()]. *)
Inductive Event : Type :=
| EvOpen (sock : nat)
| EvMessage (sock : nat) (data : string)
| EvError (sock : nat)
| EvClose (sock : nat) (code : Z) (random : Q)
| EvTimer (id : nat) (now : Z) (randomUUID : string)
| CallSendMessage (m : Message)
| CallOnResponse (request : Message) (onReceivedAction : Handler) (now : Z)
| CallSendAndWait (m : Message) (now : Z)
| CallClose.

Definition find_timer (id : nat) (w : World) : option Timer :=
  find (fun t => Nat.eqb (timer_id t) id) (timers w).

Definition run_task (t : TimerTask) (now : Z) (randomUUID : string) : M unit :=
  match t with
  | HeartbeatTick => heartbeat_tick randomUUID
  | HeartbeatTimeout => heartbeat_timeout
  | QueSweep => sweep now
  | Reconnect socketUrl enableQueManager0 => reconnect socketUrl enableQueManager0
  end.

(** The host delivers an event only as the WebSocket and timer interfaces
    allow: [open] to a connecting transport, [message] to an open one,
    [error] and [close] to one that is not closed yet ([close] closes it),
    and a timer fires only while it is armed.  Any other event does not
    occur: the world stays as it is. *)
Definition step (e : Event) : M unit :=
  fun w =>
    match e with
    | EvOpen i =>
        match nth_error (sockets w) i with
        | Some (mkWebSocket _ CONNECTING q) =>
            (set_readyState i OPEN ;; onopen q) w
        | _ => ret tt w
        end
    | EvMessage i data =>
        match nth_error (sockets w) i with
        | Some (mkWebSocket _ OPEN _) => onmessage data w
        | _ => ret tt w
        end
    | EvError i =>
        match nth_error (sockets w) i with
        | Some (mkWebSocket _ CLOSED _) | None => ret tt w
        | Some _ => onerror w
        end
    | EvClose i code random =>
        match nth_error (sockets w) i with
        | Some (mkWebSocket _ CLOSED _) | None => ret tt w
        | Some (mkWebSocket u _ q) =>
            (set_readyState i CLOSED ;; onclose u q code random) w
        end
    | EvTimer id now randomUUID =>
        match find_timer id w with
        | Some t =>
            ((if repeats (task t) then ret tt else clear_timer id) ;;
             run_task (task t) now randomUUID) w
        | None => ret tt w
        end
    | CallSendMessage m => (sendMessage m ;; ret tt) w
    | CallOnResponse request h now => (onResponse request h now ;; ret tt) w
    | CallSendAndWait m now => (sendAndWait m now ;; ret tt) w
    | CallClose => close w
    end.

Definition run (es : list Event) (w : World) : World :=
  fold_left (fun w' e => snd (step e w')) es w.

(** ** Induction over values, through the lists they nest in *)

Section value_induction.
Variable P : value -> Prop.
Hypothesis Hundef : P VUndefined.
Hypothesis Hnull : P VNull.
Hypothesis Hbool : forall b, P (VBool b).
Hypothesis Hnum : forall n, P (VNumber n).
Hypothesis Hstr : forall s, P (VString s).
Hypothesis Harr : forall elems, Forall P elems -> P (VArray elems).
Hypothesis Hobj : forall props, Forall (fun kv => P (snd kv)) props -> P (VObject props).
Hypothesis Hfun : P VFunction.

Fixpoint value_ind (v : value) : P v :=
  match v with
  | VUndefined => Hundef
  | VNull => Hnull
  | VBool b => Hbool b
  | VNumber n => Hnum n
  | VString s => Hstr s
  | VArray elems =>
      Harr elems
        ((fix go (l : list value) : Forall P l :=
            match l with
            | [] => Forall_nil P
            | x :: l' => Forall_cons x (value_ind x) (go l')
            end) elems)
  | VObject props =>
      Hobj props
        ((fix go (l : list (string * value)) : Forall (fun kv => P (snd kv)) l :=
            match l with
            | [] => Forall_nil _
            | x :: l' => Forall_cons x (value_ind (snd x)) (go l')
            end) props)
  | VFunction => Hfun
  end.
End value_induction.

(** What the round trip needs of one value: it prints, and the parser reads
    the print back, whatever delimiter follows. *)
Definition reads_back (v : value) : Prop :=
  representable v = true ->
  exists s, SerializeJSONProperty v = Some s /\
    forall fuel rest, size v <= fuel -> delimited rest = true ->
      parse_value fuel (s ++ rest) = Some (v, rest).

(** ** Definitions used by the statements about the envelope *)

(** What [serialize] leaves of the own properties: the ones that are not
    [undefined] and not a function. *)
Definition wire_properties (m : Message) : list (string * value) :=
  match headers m with Some h => [("headers", VObject h)] | None => [] end
  ++ [ ("uuid", VString (uuid m));
       ("route", match route m with Some r => VString r | None => VNull end) ]
  ++ match payload m with
     | VUndefined | VFunction => []
     | p => [("payload", p)]
     end
  ++ [ ("status", VNumber (NInt (status m))) ].

Definition plain_envelope : Message :=
  new_Message "sayHello" (VObject [("name", VString "X"); ("tags", VArray [VNumber (NInt 1); VNull])])
    (Some [("token", VString "XYZ")]) None (Some "id-1") "id-2".

(** An envelope whose payload is the number [NaN]: a [number], hence a
    legal payload. *)
Definition nan_envelope : Message :=
  new_Message "sayHello" (VNumber NaN) None None (Some "id-1") "id-2".

(** ** Definitions used by the statements about headers *)

(** The headers in effect: those of the envelope laid over the global
    ones, the envelope winning where both have the key. *)
Definition overlay (g : list (string * value)) (h : option (list (string * value)))
    (k : string) : option value :=
  match h with
  | Some o => match lookup k o with Some v => Some v | None => lookup k g end
  | None => lookup k g
  end.

(** The envelope with the merged headers, as a send leaves it. *)
Definition stamped (w : World) (m : Message) : Message :=
  set_headers (Some (spread2 (globalHeaders (this w)) (headers m))) m.

(** The object [m] carries the keys of [g] first, in the order of [g]. *)
Definition extends {A : Type} (g m : list (string * A)) : Prop :=
  exists m1 m2, m = (m1 ++ m2)%list /\ map fst m1 = map fst g.

(** ** Definitions used by the statements about the session *)

(** The world with one more effect in its trace. *)
Definition logged (e : Effect) (w : World) : World :=
  mkWorld (this w) (sockets w) (timers w) (next_timer w) (promises w)
    (trace w ++ [e])%list.

(** The world with a waiter set in the table. *)
Definition with_waiter (key : string) (q : QueItem) (w : World) : World :=
  set_this (set_pendingRequests (obj_set key q (pendingRequests (this w))) (this w)) w.

(** The waiter that [onResponse] registers. *)
Definition waiter (w : World) (h : Handler) (now : Z) : QueItem :=
  {| onMessage := h; expire := Some (now + requestTimeout (this w))%Z |}.

Definition not_connected : string := "Cannot send message: WebSocket is not connected.".

(** A computation that returns normally from every world. *)
Definition never_throws {A : Type} (m : M A) : Prop :=
  forall w, exists a, fst (m w) = Ok a.

(** A computation that moves an observation [obs] of the world only along
    the relation [R], whether it returns or throws. *)
Definition keeps {X A : Type} (obs : World -> X) (R : X -> X -> Prop) (m : M A) : Prop :=
  forall w, R (obs w) (obs (snd (m w))).

Definition is_waiter_call (e : Effect) : bool :=
  match e with WaiterCalled _ _ _ => true | _ => false end.

(** The calls of waiter handlers in a trace, in order. *)
Definition waiter_calls (tr : list Effect) : list Effect := filter is_waiter_call tr.

(** The pending table and the handler calls made so far. *)
Definition waiters (w : World) : list (string * QueItem) * list Effect :=
  (pendingRequests (this w), waiter_calls (trace w)).

(** A computation that neither touches the pending table nor calls a
    handler of a waiter. *)
Definition quiet {A : Type} (m : M A) : Prop := keeps waiters eq m.

Definition is_call_of (key : string) (e : Effect) : bool :=
  match e with WaiterCalled k _ _ => String.eqb k key | _ => false end.

(** The entry of the pending table under [key]. *)
Definition pending (key : string) (w : World) : option QueItem :=
  lookup key (pendingRequests (this w)).

(** The calls of the handler of the waiter [key], in order, and their
    number. *)
Definition key_calls (key : string) (tr : list Effect) : list Effect :=
  filter (is_call_of key) tr.

Definition invocations (key : string) (tr : list Effect) : nat :=
  List.length (key_calls key tr).

(** What a turn does to the waiter [key] that is pending with the item
    [q]: nothing, or it calls the handler once and removes the entry, with
    a frame ([success: true]) or with the failure. *)
Inductive Outcome : Type :=
| Untouched
| Matched (v : value)
| Failed.

Definition outcome_holds (key : string) (q : QueItem) (w w' : World) (o : Outcome) : Prop :=
  match o with
  | Untouched =>
      pending key w' = Some q /\ key_calls key (trace w') = key_calls key (trace w)
  | Matched v =>
      pending key w' = None /\
      key_calls key (trace w') =
        (key_calls key (trace w) ++ [WaiterCalled key (onMessage q) (mkResponse v true)])%list
  | Failed =>
      pending key w' = None /\
      key_calls key (trace w') =
        (key_calls key (trace w) ++ [WaiterCalled key (onMessage q) failure])%list
  end.

(** The calls that fail every entry of a table, in table order. *)
Definition failures (table : list (string * QueItem)) : list Effect :=
  map (fun kq => WaiterCalled (fst kq) (onMessage (snd kq)) failure) table.

(** The event registers a waiter under [key]. *)
Definition re_registers (key : string) (e : Event) : bool :=
  match e with
  | CallOnResponse m _ _ | CallSendAndWait m _ => String.eqb (uuid m) key
  | _ => false
  end.

(** The table after a sweep at time [now]. *)
Definition swept (now : Z) (table : list (string * QueItem)) : list (string * QueItem) :=
  fold_left (fun P kq => if expired (snd kq) now then obj_delete (fst kq) P else P)
    table table.

Definition expired_entries (now : Z) (table : list (string * QueItem))
  : list (string * QueItem) :=
  filter (fun kq => expired (snd kq) now) table.

(** The five ways a turn moves the waiters: not at all; a frame resolves
    one; the sweep fails the expired ones; the close event fails them all;
    a correlated send registers one. *)
Inductive waiter_move (e : Event) (w w' : World) : Prop :=
| move_none :
    waiters w' = waiters w -> waiter_move e w w'
| move_match sock data v k q :
    e = EvMessage sock data ->
    JSON_parse data = Some v ->
    lookup k (pendingRequests (this w)) = Some q ->
    waiters w' =
      (obj_delete k (pendingRequests (this w)),
       (waiter_calls (trace w) ++ [WaiterCalled k (onMessage q) (mkResponse v true)])%list) ->
    waiter_move e w w'
| move_sweep id now u t :
    e = EvTimer id now u ->
    find_timer id w = Some t ->
    task t = QueSweep ->
    waiters w' =
      (swept now (pendingRequests (this w)),
       (waiter_calls (trace w)
        ++ failures (expired_entries now (pendingRequests (this w))))%list) ->
    waiter_move e w w'
| move_close sock code random s :
    e = EvClose sock code random ->
    nth_error (sockets w) sock = Some s ->
    readyState s <> CLOSED ->
    waiters w' =
      ([], (waiter_calls (trace w) ++ failures (pendingRequests (this w)))%list) ->
    waiter_move e w w'
| move_register m h now :
    e = CallOnResponse m h now \/
    (e = CallSendAndWait m now /\ h = PromiseResolve (List.length (promises w))) ->
    waiters w' =
      (obj_set (uuid m) (waiter w h now) (pendingRequests (this w)),
       waiter_calls (trace w)) ->
    waiter_move e w w'.

(** The waiter that a correlated send registers, with its key: [onResponse]
    always registers, [sendAndWait] only on an open transport. *)
Definition registration (e : Event) (w : World) : option (string * QueItem) :=
  match e with
  | CallOnResponse m h now => Some (uuid m, waiter w h now)
  | CallSendAndWait m now =>
      if is_open w
      then Some (uuid m, waiter w (PromiseResolve (List.length (promises w))) now)
      else None
  | _ => None
  end.

(** The correlation id of a frame. *)
Definition frame_key (data : string) : option string :=
  match JSON_parse data with
  | Some v =>
      match get_field v "route", get_field v "uuid" with
      | Some r, Some (VString k) => if is_PONG r then None else Some k
      | _, _ => None
      end
  | None => None
  end.

(** The turn [e] reaches the code in the world [w] and resolves the waiter
    [key], pending with the item [q]: the close event of a transport that
    is not closed yet, a tick of the sweep after the expiry, or a frame
    with that correlation id on an open transport. *)
Definition resolves (key : string) (q : QueItem) (e : Event) (w : World) : Prop :=
  match e with
  | EvClose sock _ _ =>
      exists s, nth_error (sockets w) sock = Some s /\ readyState s <> CLOSED
  | EvTimer id now _ =>
      exists t, find_timer id w = Some t /\ task t = QueSweep /\ expired q now = true
  | EvMessage sock data =>
      (exists s, nth_error (sockets w) sock = Some s /\ readyState s = OPEN) /\
      frame_key data = Some key
  | _ => False
  end.

(** ** Worlds and envelopes used as concrete inputs *)

Definition example_url : string := "wss://example.com/ws/app/".

(** A session with the default configuration (no sweep), just built. *)
Definition fresh_world : World :=
  new_ObservableSocket "app" example_url (Some 1) (Some 2) None.

(** A session with the sweep enabled, global headers and the shortest
    request timeout. *)
Definition sweeping_config : Config.Partial :=
  {| Config.p_queManager := Some true;
     Config.p_queRunTimeout := None;
     Config.p_requestTimeout := Some 2000%Z;
     Config.p_maxReconnectAttempts := None;
     Config.p_heartbeatRate := None;
     Config.p_heartbeatTimeoutDuration := None;
     Config.p_globalHeaders := Some [("token", VString "XYZ"); ("lang", VString "en")] |}.

Definition sweeping_world : World :=
  new_ObservableSocket "app" example_url (Some 1) (Some 2) (Some sweeping_config).

Definition open_world : World := run [EvOpen 0] fresh_world.

Definition open_sweeping_world : World := run [EvOpen 0] sweeping_world.

(** The server refuses the connection with a policy close code: the
    session is closed for good. *)
Definition rejected_world : World := run [EvClose 0 1008 0] fresh_world.

Definition example_request : Message :=
  new_Message "sayHello" (VObject [("name", VString "X")])
    (Some [("lang", VString "fr")]) None (Some "req-1") "unused".

Definition example_reply : Message :=
  new_Message "sayHello" (VString "Hello, X!") None None (Some "req-1") "unused".

(** Every transport of the world is closed and no timer is armed: nothing
    can reach the session but calls of its public methods. *)
Definition dead (w : World) : Prop :=
  Forall (fun s => readyState s = CLOSED) (sockets w) /\ timers w = [].

(** ** Definitions used by the statements about timers and reconnects *)

(** The three timer handles of the session. *)
Definition handles (w : World) : option nat * option nat * option nat :=
  (heartbeatInterval (this w), heartbeatTimeout (this w), queManagerInterval (this w)).

(** The timer [id] is held in one of the three handles. *)
Definition held (o : ObservableSocket) (id : nat) : bool :=
  existsb (fun h => match h with Some i => Nat.eqb i id | None => false end)
    [heartbeatInterval o; heartbeatTimeout o; queManagerInterval o].

Definition is_reconnect (t : Timer) : bool :=
  match task t with Reconnect _ _ => true | _ => false end.

(** The handles and the armed timers. *)
Definition clockwork (w : World) : (option nat * option nat * option nat) * list Timer :=
  (handles w, timers w).

(** The ready states of the transports, by handle. *)
Definition states (w : World) : list ReadyState := map readyState (sockets w).

Definition reconnect_timers (w : World) : list Timer := filter is_reconnect (timers w).

(** What the reconnect policy depends on. *)
Record Wiring : Type := mkWiring {
  w_states : list ReadyState;
  w_socket : option nat;
  w_attempts : Z;
  w_max : Z;
  w_reconnects : list Timer
}.

Definition wiring (w : World) : Wiring :=
  {| w_states := states w;
     w_socket := socket (this w);
     w_attempts := reconnectAttempts (this w);
     w_max := maxReconnectAttempts (this w);
     w_reconnects := reconnect_timers w |}.

(** The wiring is left alone, but for reconnect timers that are cleared. *)
Definition calm_rel (x y : Wiring) : Prop :=
  w_states y = w_states x /\ w_socket y = w_socket x /\
  w_attempts y = w_attempts x /\ w_max y = w_max x /\
  exists p, w_reconnects y = filter p (w_reconnects x).

Definition calm {A : Type} (m : M A) : Prop := keeps wiring calm_rel m.

(** [close()] on a ready state. *)
Definition closing (st : ReadyState) : ReadyState :=
  match st with
  | CONNECTING | OPEN => CLOSING
  | _ => st
  end.

Definition hang_up (sts : list ReadyState) (sock : option nat) : list ReadyState :=
  match sock with
  | Some i => update_nth i closing sts
  | None => sts
  end.

(** How a turn moves the wiring. *)
Inductive wiring_move (e : Event) (x y : Wiring) : Prop :=
| wm_calm :
    calm_rel x y -> wiring_move e x y
| wm_open sock :
    e = EvOpen sock ->
    nth_error (w_states x) sock = Some CONNECTING ->
    w_states y = update_nth sock (fun _ => OPEN) (w_states x) ->
    w_socket y = w_socket x -> w_attempts y = 0%Z -> w_max y = w_max x ->
    (exists p, w_reconnects y = filter p (w_reconnects x)) ->
    wiring_move e x y
| wm_close sock code random st :
    e = EvClose sock code random ->
    nth_error (w_states x) sock = Some st -> st <> CLOSED ->
    w_states y = update_nth sock (fun _ => CLOSED) (w_states x) ->
    w_socket y = w_socket x -> w_attempts y = w_attempts x -> w_max y = w_max x ->
    (exists p,
       w_reconnects y = filter p (w_reconnects x) \/
       (exists t, w_reconnects y = (filter p (w_reconnects x) ++ [t])%list /\
                  delay t = reconnect_delay (w_attempts x) random /\
                  (w_attempts x < w_max x)%Z)) ->
    wiring_move e x y
| wm_hang_up :
    (e = CallClose \/ exists id now u, e = EvTimer id now u) ->
    w_states y = hang_up (w_states x) (w_socket x) ->
    w_socket y = w_socket x -> w_attempts y = w_attempts x -> w_max y = w_max x ->
    (exists p, w_reconnects y = filter p (w_reconnects x)) ->
    wiring_move e x y
| wm_reconnect id now u t :
    e = EvTimer id now u ->
    In t (w_reconnects x) -> timer_id t = id ->
    w_states y = (w_states x ++ [CONNECTING])%list ->
    w_socket y = Some (List.length (w_states x)) ->
    w_attempts y = (w_attempts x + 1)%Z -> w_max y = w_max x ->
    w_reconnects y = filter (fun t' => negb (Nat.eqb (timer_id t') id)) (w_reconnects x) ->
    wiring_move e x y.

(** The invariant of the reconnect policy: only the current transport may
    be live; at most one reconnect is scheduled, and only while every
    transport is closed and the budget is not used up. *)
Definition wired (x : Wiring) : Prop :=
  (0 <= w_attempts x)%Z /\
  (forall i st, nth_error (w_states x) i = Some st -> st <> CLOSED -> w_socket x = Some i) /\
  (w_reconnects x = [] \/
   ((exists t, w_reconnects x = [t]) /\
    Forall (fun st => st = CLOSED) (w_states x) /\
    (w_attempts x < w_max x)%Z)).

Definition is_open_event (e : Event) : bool :=
  match e with EvOpen _ => true | _ => false end.

(** A request is registered on the closed session. *)
Definition orphan_world : World :=
  run [CallOnResponse example_request (UserHandler 7) 1000] rejected_world.

(** A request is waiting on an open session. *)
Definition waiting_world : World :=
  run [CallOnResponse example_request (UserHandler 7) 1000] open_world.

(** The connection opens and is lost (close code 1006): a reconnect is
    scheduled, as timer 2. *)
Definition lost_connection : list Event := [EvOpen 0; EvClose 0 1006 (1 # 2)].

(** A session that may not reconnect at all. *)
Definition no_retry_config : Config.Partial :=
  {| Config.p_queManager := None;
     Config.p_queRunTimeout := None;
     Config.p_requestTimeout := None;
     Config.p_maxReconnectAttempts := Some 0%Z;
     Config.p_heartbeatRate := None;
     Config.p_heartbeatTimeoutDuration := None;
     Config.p_globalHeaders := None |}.

Definition no_retry_world : World :=
  new_ObservableSocket "app" example_url (Some 1) (Some 2) (Some no_retry_config).

(** The sockets are left alone, and no timer is armed if none was. *)
Definition still_rel (x y : list WebSocket * list Timer) : Prop :=
  fst y = fst x /\ (snd x = [] -> snd y = []).

Definition plant (w : World) : list WebSocket * list Timer := (sockets w, timers w).

(** ** Definitions used by the statements about the settings *)

(** What the constructor fixes for the life of the session: the name, the
    values taken from the configuration and the two callbacks. *)
Definition settings (w : World) :=
  (name (this w), requestTimeout (this w), queManagerTimeout (this w),
   maxReconnectAttempts (this w), heartbeatRate (this w),
   heartbeatTimeoutDuration (this w), enableQueManager (this w),
   globalHeaders (this w), onMessageReceived (this w),
   onSocketConnectionChange (this w)).

(** The heartbeat frame that the interval callback sends. *)
Definition ping (randomUUID : string) : Message :=
  new_Message "PING" (VObject []) None None None randomUUID.

Definition pong : Message :=
  new_Message "PONG" (VObject []) None None (Some "req-1") "unused".

(** The waiter settles the promise [p]. *)
Definition settles (p : nat) (kq : string * QueItem) : bool :=
  match onMessage (snd kq) with
  | PromiseResolve p' => Nat.eqb p' p
  | UserHandler _ => false
  end.

(** ** Definitions used by the statements about the armed timers *)

(** The timer is the one that the handle of its kind holds; a reconnect
    timer has no handle. *)
Definition owned (o : ObservableSocket) (t : Timer) : Prop :=
  match task t with
  | HeartbeatTick => heartbeatInterval o = Some (timer_id t)
  | HeartbeatTimeout => heartbeatTimeout o = Some (timer_id t)
  | QueSweep => queManagerInterval o = Some (timer_id t)
  | Reconnect _ _ => True
  end.

(** Every armed timer is owned, and the host has handed out its id once. *)
Definition tidy (w : World) : Prop :=
  Forall (owned (this w)) (timers w) /\
  Forall (fun t => timer_id t < next_timer w) (timers w) /\
  NoDup (map timer_id (timers w)).

Definition same_kind (a b : TimerTask) : bool :=
  match a, b with
  | HeartbeatTick, HeartbeatTick
  | HeartbeatTimeout, HeartbeatTimeout
  | QueSweep, QueSweep
  | Reconnect _ _, Reconnect _ _ => true
  | _, _ => false
  end.

(** The armed timers of the kind of [k]. *)
Definition armed (k : TimerTask) (w : World) : list Timer :=
  filter (fun t => same_kind k (task t)) (timers w).

(** A computation that keeps the timers tidy. *)
Definition tidily (w w' : World) : Prop := tidy w -> tidy w'.

(** ** Definitions used by the statements about the endpoint *)

(** The transport was created by [connect(u, q)]. *)
Definition bound_socket (u : string) (q : bool) (s : WebSocket) : Prop :=
  url s = u /\ closure_enableQueManager s = q.

(** The timer may be armed in a session that was built with [u] and [q]: a
    reconnect is one to [u] with [q], and the sweep needs [q]. *)
Definition bound_timer (u : string) (q : bool) (t : Timer) : Prop :=
  match task t with
  | Reconnect u' q' => u' = u /\ q' = q
  | QueSweep => q = true
  | HeartbeatTick | HeartbeatTimeout => True
  end.

Definition bound (u : string) (q : bool) (w : World) : Prop :=
  Forall (bound_socket u q) (sockets w) /\ Forall (bound_timer u q) (timers w).

Definition boundly (u : string) (q : bool) (w w' : World) : Prop :=
  bound u q w -> bound u q w'.

(** What the reconnect policy reads of the session. *)
Definition policy_fields (w : World) : bool * Z * Z :=
  (manuallyClosed (this w), reconnectAttempts (this w), maxReconnectAttempts (this w)).

(** ** Definitions used by the statements about the close event *)

(** The call of the connection-change callback, if one is set. *)
Definition lifecycle (o : ObservableSocket) (state : bool) : list Effect :=
  match onSocketConnectionChange o with
  | Some cb => [ConnectionChange cb (name o) state]
  | None => []
  end.

(** What the close handler logs after it has decided about the reconnect. *)
Definition close_log (code : Z) (o : ObservableSocket) : list Effect :=
  if policy_close code
  then [ConsoleError "Server closed connection due to authentication or policy violation."]
  else if manuallyClosed o then []
  else if (reconnectAttempts o <? maxReconnectAttempts o)%Z then []
  else [ConsoleError "Max reconnect attempts reached."].

(** What the close handler reads after the timers are stopped. *)
Definition close_view (w : World) :=
  (pendingRequests (this w), onSocketConnectionChange (this w), name (this w),
   policy_fields w, trace w).

(* ================================================================= *)
(** * Part II. Lemmas and theorems *)
(* ================================================================= *)

(** ** Strings and JSON texts *)

Lemma append_assoc (a b c : string) : (a ++ b) ++ c = a ++ (b ++ c).
Proof. induction a as [|x a IH]; simpl; [reflexivity | now rewrite IH]. Qed.

Lemma length_append (a b : string) : String.length (a ++ b) = String.length a + String.length b.
Proof. induction a as [|x a IH]; simpl; [reflexivity | now rewrite IH]. Qed.

Lemma parse_chars_escape (c : ascii) (r : string) :
  parse_chars (escape c ++ r) =
  match parse_chars r with
  | Some (t, rest) => Some (String c t, rest)
  | None => None
  end.
Proof.
  destruct c as [[|] [|] [|] [|] [|] [|] [|] [|]]; reflexivity.
Qed.

Lemma parse_chars_escape_all (s rest : string) :
  parse_chars (escape_all s ++ String "034" rest) = Some (s, rest).
Proof.
  induction s as [|c s IH]; [reflexivity|].
  cbn [escape_all]. rewrite append_assoc, parse_chars_escape, IH. reflexivity.
Qed.

Lemma nzhead_not_D0 (d u : uint) : nzhead d <> D0 u.
Proof. induction d; simpl; try discriminate; assumption. Qed.

Lemma to_uint_leading (p : positive) :
  match Pos.to_uint p with Nil | D0 _ => False | _ => True end.
Proof.
  pose proof (DecimalPos.Unsigned.to_of (Pos.to_uint p)) as H.
  rewrite DecimalPos.Unsigned.of_to in H. simpl in H.
  pose proof (DecimalPos.Unsigned.to_uint_nonnil p) as Hnil.
  pose proof (DecimalPos.Unsigned.to_uint_nonzero p) as Hz.
  destruct (Pos.to_uint p) as [|u| | | | | | | | | ]; try exact I.
  - now apply Hnil.
  - unfold unorm in H. simpl in H.
    destruct (nzhead u) eqn:E; try (exfalso; revert H; discriminate).
    + injection H as ->. now apply Hz.
    + injection H as H. rewrite <- H in E. now apply nzhead_not_D0 in E.
Qed.

Lemma parse_digits_nondigit (rest : string) :
  not_digit_start rest = true -> parse_digits rest = (Nil, rest).
Proof.
  destruct rest as [|c r]; [reflexivity|]. simpl.
  destruct (digit_of_char c); [discriminate | reflexivity].
Qed.

Lemma parse_digits_string_of_uint (u : uint) (rest : string) :
  not_digit_start rest = true ->
  parse_digits (string_of_digits u ++ rest) = (u, rest).
Proof.
  intros H. induction u; simpl; try (rewrite IHu; reflexivity).
  now apply parse_digits_nondigit.
Qed.

Lemma delimited_not_digit (rest : string) :
  delimited rest = true -> not_digit_start rest = true.
Proof.
  destruct rest as [|c r]; [reflexivity|].
  destruct c as [[|] [|] [|] [|] [|] [|] [|] [|]]; simpl; congruence.
Qed.

Lemma delimited_integral_end (rest : string) :
  delimited rest = true -> integral_end rest = true.
Proof.
  destruct rest as [|c r]; [reflexivity|].
  destruct c as [[|] [|] [|] [|] [|] [|] [|] [|]]; simpl; congruence.
Qed.

Lemma parse_int_part_pos (p : positive) (rest : string) :
  delimited rest = true ->
  parse_int_part (string_of_digits (Pos.to_uint p) ++ rest) = Some (Npos p, rest).
Proof.
  intros H. unfold parse_int_part.
  pose proof (to_uint_leading p) as Hl.
  pose proof (DecimalPos.Unsigned.of_to p) as Hof.
  pose proof (parse_digits_string_of_uint (Pos.to_uint p) rest (delimited_not_digit _ H)) as Hd.
  destruct (Pos.to_uint p) as [|u|u|u|u|u|u|u|u|u|u]; try contradiction;
    cbn [string_of_digits append] in *; rewrite Hd; unfold N.of_uint; rewrite Hof; reflexivity.
Qed.

Lemma parse_number_toString (z : Z) (rest : string) :
  delimited rest = true ->
  parse_number (Number_toString (NInt z) ++ rest) = Some (NInt z, rest).
Proof.
  intros H. pose proof (delimited_integral_end _ H) as He.
  destruct z as [|p|p].
  - cbn [Number_toString append]. unfold parse_number, parse_int_part.
    rewrite He. reflexivity.
  - cbn [Number_toString]. unfold parse_number.
    pose proof (parse_int_part_pos p rest H) as Hp.
    pose proof (to_uint_leading p) as Hl.
    destruct (Pos.to_uint p) as [|u|u|u|u|u|u|u|u|u|u]; try contradiction;
      cbn [string_of_digits append] in *; rewrite Hp, He; reflexivity.
  - cbn [Number_toString append]. unfold parse_number.
    rewrite parse_int_part_pos by assumption. rewrite He. reflexivity.
Qed.

Lemma Number_toString_start (z : Z) (rest : string) :
  number_start (Number_toString (NInt z) ++ rest) = true.
Proof.
  destruct z as [|p|p]; try reflexivity.
  cbn [Number_toString]. pose proof (to_uint_leading p) as H.
  destruct (Pos.to_uint p); try contradiction; reflexivity.
Qed.

Lemma number_start_value_start (s : string) :
  number_start s = true -> value_start s = true.
Proof.
  destruct s as [|c r]; [discriminate|].
  destruct c as [[|] [|] [|] [|] [|] [|] [|] [|]]; simpl; congruence.
Qed.

Lemma value_start_append (s rest : string) :
  value_start s = true -> value_start (s ++ rest) = true.
Proof. destruct s; [discriminate | trivial]. Qed.

Lemma stringify_value_start (v : value) (s : string) :
  SerializeJSONProperty v = Some s -> value_start s = true.
Proof.
  destruct v as [| |[|]|n| | | |]; simpl; intros [= <-]; try reflexivity.
  destruct n as [z| | |]; try reflexivity.
  cbn [is_finite]. apply number_start_value_start.
  rewrite <- (Number_toString_start z ""). f_equal.
  clear. induction (Number_toString (NInt z)); simpl; congruence.
Qed.

Lemma expect_value_start (c : ascii) (s : string) :
  value_start s = true -> (c = "]" \/ c = "}")%char -> expect c s = None.
Proof.
  destruct s as [|d r]; [discriminate|].
  intros H [-> | ->];
    destruct d as [[|] [|] [|] [|] [|] [|] [|] [|]]; simpl in H; try discriminate; reflexivity.
Qed.

Lemma parse_value_number (fuel : nat) (s : string) :
  number_start s = true ->
  parse_value (S fuel) s =
  match parse_number s with
  | Some (n, r') => Some (VNumber n, r')
  | None => None
  end.
Proof.
  destruct s as [|d r]; [discriminate|].
  destruct d as [[|] [|] [|] [|] [|] [|] [|] [|]]; simpl; try discriminate; reflexivity.
Qed.

Lemma stringify_array (elems : list value) :
  SerializeJSONProperty (VArray elems) =
  Some ("[" ++ String.concat "," (map printed elems) ++ "]").
Proof. reflexivity. Qed.

Lemma stringify_object (props : list (string * value)) :
  SerializeJSONProperty (VObject props) =
  Some ("{" ++ String.concat "," (flat_map printed_member props) ++ "}").
Proof. reflexivity. Qed.

Lemma parse_value_S (fuel : nat) (s : string) :
  parse_value (S fuel) s =
  match skip_ws s with
  | String "n" r => match strip_prefix "ull" r with Some r' => Some (VNull, r') | None => None end
  | String "t" r => match strip_prefix "rue" r with Some r' => Some (VBool true, r') | None => None end
  | String "f" r => match strip_prefix "alse" r with Some r' => Some (VBool false, r') | None => None end
  | String "034" r =>
      match parse_chars r with
      | Some (t, r') => Some (VString t, r')
      | None => None
      end
  | String "[" r =>
      match expect "]" r with
      | Some r' => Some (VArray [], r')
      | None => match parse_elements fuel r with
                | Some (vs, r') => Some (VArray vs, r')
                | None => None
                end
      end
  | String "{" r =>
      match expect "}" r with
      | Some r' => Some (VObject [], r')
      | None => match parse_members fuel r with
                | Some (ms, r') => Some (VObject (members_to_object ms), r')
                | None => None
                end
      end
  | s' => match parse_number s' with
          | Some (n, r') => Some (VNumber n, r')
          | None => None
          end
  end.
Proof. reflexivity. Qed.

Lemma parse_elements_S (fuel : nat) (s : string) :
  parse_elements (S fuel) s =
  match parse_value fuel s with
  | Some (v, r) =>
      match skip_ws r with
      | String "," r' =>
          match parse_elements fuel r' with
          | Some (vs, r'') => Some (v :: vs, r'')
          | None => None
          end
      | String "]" r' => Some ([v], r')
      | _ => None
      end
  | None => None
  end.
Proof. reflexivity. Qed.

Lemma parse_members_S (fuel : nat) (s : string) :
  parse_members (S fuel) s =
  match skip_ws s with
  | String "034" r =>
      match parse_chars r with
      | Some (k, r1) =>
          match skip_ws r1 with
          | String ":" r2 =>
              match parse_value fuel r2 with
              | Some (v, r3) =>
                  match skip_ws r3 with
                  | String "," r4 =>
                      match parse_members fuel r4 with
                      | Some (ms, r5) => Some ((k, v) :: ms, r5)
                      | None => None
                      end
                  | String "}" r4 => Some ([(k, v)], r4)
                  | _ => None
                  end
              | None => None
              end
          | _ => None
          end
      | None => None
      end
  | _ => None
  end.
Proof. reflexivity. Qed.

Lemma concat_cons2 (sep x y : string) (l : list string) :
  String.concat sep (x :: y :: l) = x ++ sep ++ String.concat sep (y :: l).
Proof. reflexivity. Qed.

Lemma list_sum_cons (x : nat) (l : list nat) : list_sum (x :: l) = x + list_sum l.
Proof. reflexivity. Qed.

Lemma parse_elements_printed (elems : list value) :
  Forall reads_back elems ->
  forallb representable elems = true ->
  elems <> [] ->
  forall fuel rest,
    list_sum (map (fun e => S (size e)) elems) <= fuel ->
    parse_elements fuel (String.concat "," (map printed elems) ++ String "]" rest)
    = Some (elems, rest).
Proof.
  induction 1 as [|e es He Hes IH]; [congruence|].
  cbn [forallb map]. rewrite list_sum_cons. intros Hrep _ fuel rest Hfuel.
  apply andb_prop in Hrep as [Hre Hres].
  destruct (He Hre) as (s & Hs & Hparse).
  destruct fuel as [|fuel]; [lia|].
  rewrite parse_elements_S. unfold printed at 1. rewrite Hs.
  destruct es as [|e' es'].
  - cbn [map String.concat].
    rewrite Hparse by (trivial; lia).
    reflexivity.
  - cbn [map] in *. rewrite concat_cons2.
    rewrite append_assoc. cbn [append].
    rewrite Hparse by (trivial; lia). cbn [skip_ws is_ws].
    rewrite IH; [reflexivity | assumption | discriminate | lia].
Qed.

Lemma flat_map_printed_member (props : list (string * value)) :
  Forall (fun kv => reads_back (snd kv)) props ->
  forallb (fun kv => representable (snd kv)) props = true ->
  flat_map printed_member props =
  map (fun kv => QuoteJSONString (fst kv) ++ ":" ++ printed (snd kv)) props.
Proof.
  induction 1 as [|[k v] ps Hv Hps IH]; [reflexivity|].
  cbn [forallb flat_map map fst snd]. intros Hrep.
  apply andb_prop in Hrep as [Hrv Hrps].
  destruct (Hv Hrv) as (s & Hs & _). cbn [snd] in Hs.
  unfold printed_member at 1, printed at 1. cbn [fst snd]. rewrite Hs.
  cbn [List.app]. now rewrite IH.
Qed.

Lemma parse_members_printed (props : list (string * value)) :
  Forall (fun kv => reads_back (snd kv)) props ->
  forallb (fun kv => representable (snd kv)) props = true ->
  props <> [] ->
  forall fuel rest,
    list_sum (map (fun kv => S (size (snd kv))) props) <= fuel ->
    parse_members fuel
      (String.concat ","
         (map (fun kv => QuoteJSONString (fst kv) ++ ":" ++ printed (snd kv)) props)
       ++ String "}" rest)
    = Some (props, rest).
Proof.
  induction 1 as [|[k v] ps Hv Hps IH]; [congruence|].
  cbn [forallb map fst snd]. rewrite list_sum_cons. intros Hrep _ fuel rest Hfuel.
  apply andb_prop in Hrep as [Hrv Hrps].
  destruct (Hv Hrv) as (s & Hs & Hparse). cbn [snd] in Hs, Hparse.
  destruct fuel as [|fuel]; [lia|].
  rewrite parse_members_S. unfold printed at 1. rewrite Hs.
  destruct ps as [|p' ps'].
  - cbn [map String.concat]. unfold QuoteJSONString.
    cbn [append]. rewrite !append_assoc. cbn [append skip_ws is_ws].
    rewrite parse_chars_escape_all. cbn [skip_ws is_ws].
    rewrite Hparse by (trivial; lia).
    reflexivity.
  - cbn [map] in *. rewrite concat_cons2.
    unfold QuoteJSONString at 1.
    cbn [append]. rewrite !append_assoc. cbn [append skip_ws is_ws].
    rewrite parse_chars_escape_all. cbn [skip_ws is_ws].
    rewrite Hparse by (trivial; lia). cbn [skip_ws is_ws].
    rewrite IH; [reflexivity | assumption | discriminate | lia].
Qed.

Lemma lookup_app_none {A} (k : string) (a b : list (string * A)) :
  lookup k (a ++ b)%list = None -> lookup k a = None /\ lookup k b = None.
Proof.
  induction a as [|[k' v'] a IH]; simpl; [auto|].
  destruct (String.eqb k k'); [discriminate | exact IH].
Qed.

Lemma obj_set_fresh {A} (k : string) (v : A) (o : list (string * A)) :
  lookup k o = None -> obj_set k v o = (o ++ [(k, v)])%list.
Proof.
  induction o as [|[k' v'] o IH]; simpl; [reflexivity|].
  destruct (String.eqb k k'); [discriminate|]. intros H. now rewrite IH.
Qed.

Lemma unique_keys_app_fresh {A} (acc : list (string * A)) k v ms :
  unique_keys (acc ++ (k, v) :: ms)%list = true ->
  lookup k acc = None /\ unique_keys ((acc ++ [(k, v)]) ++ ms)%list = true.
Proof.
  rewrite <- List.app_assoc. cbn [app]. intros H. split; [|assumption].
  induction acc as [|[k' v'] acc IH]; [reflexivity|].
  revert H. simpl.
  destruct (lookup k' (acc ++ (k, v) :: ms)%list) eqn:E; [intros [=]|].
  intros H. apply lookup_app_none in E as [_ E]. simpl in E.
  rewrite String.eqb_sym.
  destruct (String.eqb k' k); [discriminate|]. now apply IH.
Qed.

Lemma obj_assign_unique {A} (ms acc : list (string * A)) :
  unique_keys (acc ++ ms)%list = true -> obj_assign acc ms = (acc ++ ms)%list.
Proof.
  revert acc. induction ms as [|[k v] ms IH]; intros acc H.
  - now rewrite List.app_nil_r.
  - apply unique_keys_app_fresh in H as [Hk Hu].
    unfold obj_assign in *. cbn [fold_left fst snd].
    rewrite obj_set_fresh by assumption.
    rewrite IH by assumption. now rewrite <- List.app_assoc.
Qed.

Lemma members_to_object_unique (ms : list (string * value)) :
  unique_keys ms = true -> members_to_object ms = ms.
Proof. intros H. unfold members_to_object. now rewrite obj_assign_unique. Qed.

Lemma representable_reads_back (v : value) : reads_back v.
Proof.
  induction v as [| |b|n|s|elems IH|props IH|] using value_ind;
    unfold reads_back; intros Hrep; try discriminate.
  - exists "null". split; [reflexivity|]. intros [|fuel] rest Hf _; [simpl in Hf; lia | reflexivity].
  - destruct b; eexists; (split; [reflexivity|]);
      intros [|fuel] rest Hf _; (simpl in Hf; lia) || reflexivity.
  - destruct n as [z| | |]; try discriminate.
    eexists. split; [reflexivity|]. cbn [is_finite].
    intros [|fuel] rest Hf Hd; [simpl in Hf; lia|].
    rewrite parse_value_number by apply Number_toString_start.
    now rewrite parse_number_toString.
  - eexists. split; [reflexivity|].
    intros [|fuel] rest Hf _; [simpl in Hf; lia|].
    rewrite parse_value_S. unfold QuoteJSONString. cbn [append skip_ws is_ws].
    rewrite append_assoc. cbn [append]. now rewrite parse_chars_escape_all.
  - cbn [representable] in Hrep. eexists. split; [apply stringify_array|].
    intros [|fuel] rest Hf _; [simpl in Hf; lia|].
    rewrite parse_value_S. cbn [append skip_ws is_ws]. rewrite !append_assoc. cbn [append].
    destruct elems as [|e es]; [reflexivity|].
    rewrite expect_value_start.
    + rewrite (parse_elements_printed (e :: es)); trivial; [discriminate|].
      cbn [size] in Hf. lia.
    + destruct es; cbn [map String.concat];
        rewrite ?append_assoc; apply value_start_append.
      * inversion IH as [|? ? He _]; subst. simpl in Hrep. apply andb_prop in Hrep as [Hre _].
        destruct (He Hre) as (s & Hs & _). unfold printed. rewrite Hs.
        now apply stringify_value_start in Hs.
      * inversion IH as [|? ? He _]; subst. simpl in Hrep. apply andb_prop in Hrep as [Hre _].
        destruct (He Hre) as (s & Hs & _). unfold printed at 1. rewrite Hs.
        now apply stringify_value_start in Hs.
    + now left.
  - cbn [representable] in Hrep. apply andb_prop in Hrep as [Hrep Huniq].
    eexists. split; [apply stringify_object|].
    intros [|fuel] rest Hf _; [simpl in Hf; lia|].
    rewrite parse_value_S. cbn [append skip_ws is_ws]. rewrite !append_assoc. cbn [append].
    rewrite flat_map_printed_member by assumption.
    destruct props as [|[k v] ps]; [reflexivity|].
    rewrite expect_value_start.
    + rewrite (parse_members_printed ((k, v) :: ps)); trivial; [|discriminate|cbn [size] in Hf; lia].
      now rewrite members_to_object_unique.
    + cbn [map fst snd]. unfold QuoteJSONString at 1. destruct ps; reflexivity.
    + now right.
Qed.

Lemma concat_length_bound (l : list string) :
  list_sum (map (fun x => S (String.length x)) l) <= S (String.length (String.concat "," l)).
Proof.
  induction l as [|x l IH]; [simpl; lia|].
  cbn [map]. rewrite list_sum_cons.
  destruct l as [|y l]; [simpl; lia|].
  rewrite concat_cons2, !length_append. cbn [String.length] in *. lia.
Qed.

Lemma size_le_length (v : value) :
  representable v = true ->
  forall s, SerializeJSONProperty v = Some s -> 1 <= String.length s /\ size v <= String.length s.
Proof.
  induction v as [| |b|n|s0|elems IH|props IH|] using value_ind;
    intros Hrep s Hs; try discriminate.
  - injection Hs as <-. simpl. lia.
  - destruct b; injection Hs as <-; simpl; lia.
  - pose proof (stringify_value_start _ _ Hs) as Hst.
    destruct s; [discriminate|]. simpl. lia.
  - injection Hs as <-. simpl. lia.
  - rewrite stringify_array in Hs. injection Hs as <-.
    cbn [append String.length size]. rewrite length_append. cbn [String.length].
    split; [lia|].
    pose proof (concat_length_bound (map printed elems)) as Hb.
    rewrite map_map in Hb.
    assert (list_sum (map (fun e => S (size e)) elems)
            <= list_sum (map (fun x => S (String.length (printed x))) elems)) as Hle.
    { clear Hb. cbn [representable] in Hrep.
      induction IH as [|e es He Hes IHes]; [simpl; lia|].
      cbn [map forallb] in *. rewrite !list_sum_cons.
      apply andb_prop in Hrep as [Hre Hres].
      destruct (SerializeJSONProperty e) as [se|] eqn:Ee.
      - destruct (He Hre se eq_refl) as [_ Hsz]. unfold printed at 1. rewrite Ee.
        specialize (IHes Hres). lia.
      - destruct e; simpl in Hre, Ee; try discriminate. destruct b; discriminate. }
    lia.
  - cbn [representable] in Hrep. apply andb_prop in Hrep as [Hrep _].
    rewrite stringify_object in Hs. injection Hs as <-.
    cbn [append String.length size]. rewrite length_append. cbn [String.length].
    split; [lia|].
    pose proof (concat_length_bound (flat_map printed_member props)) as Hb.
    assert (list_sum (map (fun kv => S (size (snd kv))) props)
            <= list_sum (map (fun x => S (String.length x)) (flat_map printed_member props))) as Hle.
    { clear Hb.
      induction IH as [|[k e] es He Hes IHes]; [simpl; lia|].
      cbn [map forallb flat_map fst snd] in *. rewrite !list_sum_cons.
      apply andb_prop in Hrep as [Hre Hres].
      destruct (SerializeJSONProperty e) as [se|] eqn:Ee.
      - destruct (He Hre se eq_refl) as [_ Hsz]. unfold printed_member at 1. cbn [fst snd]. rewrite Ee.
        cbn [List.app map]. rewrite list_sum_cons, !length_append.
        specialize (IHes Hres). lia.
      - destruct e; simpl in Hre, Ee; try discriminate. destruct b; discriminate. }
    lia.
Qed.

Lemma append_nil_r (s : string) : s ++ "" = s.
Proof. induction s; simpl; congruence. Qed.

Theorem JSON_parse_stringify (v : value) (s : string) :
  representable v = true ->
  JSON_stringify v = Some s ->
  JSON_parse s = Some v.
Proof.
  intros Hrep Hs. unfold JSON_parse.
  destruct (representable_reads_back v Hrep) as (s' & Hs' & Hparse).
  unfold JSON_stringify in Hs. rewrite Hs in Hs'. injection Hs' as <-.
  destruct (size_le_length v Hrep s Hs) as [_ Hsz].
  rewrite <- (append_nil_r s) at 2.
  rewrite Hparse; [reflexivity | lia | reflexivity].
Qed.

(** ** The envelope on the wire *)

Lemma representable_stringify (v : value) :
  representable v = true -> exists s, SerializeJSONProperty v = Some s.
Proof.
  intros H. destruct (representable_reads_back v H) as (s & Hs & _). now exists s.
Qed.

Lemma serialize_wire_properties (m : Message) :
  JSON_stringify (VObject (own_properties m)) =
  JSON_stringify (VObject (wire_properties m)).
Proof.
  unfold JSON_stringify. rewrite !stringify_object. do 3 f_equal.
  unfold own_properties, wire_properties.
  destruct m as [h u r p st]. cbn [headers uuid route payload status].
  destruct h; destruct p as [| |[|]| | | | |]; reflexivity.
Qed.

Lemma wire_properties_representable (m : Message) :
  wire_safe m = true -> representable (VObject (wire_properties m)) = true.
Proof.
  unfold wire_safe, wire_properties.
  destruct m as [h u r p st]. cbn [headers uuid route payload status].
  intros H. apply andb_prop in H as [Hh Hp].
  assert (Hr : representable (match r with Some r0 => VString r0 | None => VNull end) = true)
    by (destruct r; reflexivity).
  destruct h as [h|]; destruct p; try discriminate Hp;
    cbn [representable forallb List.app snd] in *;
    rewrite ?Hh, ?Hp, ?Hr; reflexivity.
Qed.




(** ** Objects: lookup, assignment, spread *)

Lemma lookup_obj_set {A : Type} (k k' : string) (v : A) (o : list (string * A)) :
  lookup k (obj_set k' v o) = if String.eqb k k' then Some v else lookup k o.
Proof.
  induction o as [|[k2 v2] o IH]; cbn [obj_set lookup].
  - reflexivity.
  - destruct (String.eqb_spec k' k2) as [->|Hne]; cbn [lookup].
    + destruct (String.eqb k k2); reflexivity.
    + rewrite IH. destruct (String.eqb_spec k k2) as [->|Hne2]; [|reflexivity].
      destruct (String.eqb_spec k2 k') as [->|_]; [contradiction | reflexivity].
Qed.

Lemma lookup_obj_delete {A : Type} (k k' : string) (o : list (string * A)) :
  lookup k (obj_delete k' o) = if String.eqb k k' then None else lookup k o.
Proof.
  induction o as [|[k2 v2] o IH]; cbn [obj_delete lookup].
  - now destruct (String.eqb k k').
  - destruct (String.eqb_spec k' k2) as [->|Hne]; cbn [lookup].
    + rewrite IH. destruct (String.eqb k k2); reflexivity.
    + rewrite IH. destruct (String.eqb_spec k k2) as [->|Hne2]; [|reflexivity].
      destruct (String.eqb_spec k2 k') as [->|_]; [contradiction | reflexivity].
Qed.

Lemma unique_keys_obj_set {A : Type} (k : string) (v : A) (o : list (string * A)) :
  unique_keys o = true -> unique_keys (obj_set k v o) = true.
Proof.
  induction o as [|[k2 v2] o IH]; cbn [obj_set unique_keys]; [reflexivity|].
  destruct (lookup k2 o) eqn:E; [discriminate|]. intros H.
  destruct (String.eqb_spec k k2) as [->|Hne]; cbn [unique_keys].
  - now rewrite E.
  - rewrite lookup_obj_set, E.
    destruct (String.eqb_spec k2 k) as [->|_]; [contradiction | now apply IH].
Qed.

Lemma unique_keys_obj_delete {A : Type} (k : string) (o : list (string * A)) :
  unique_keys o = true -> unique_keys (obj_delete k o) = true.
Proof.
  induction o as [|[k2 v2] o IH]; cbn [obj_delete unique_keys]; [reflexivity|].
  destruct (lookup k2 o) eqn:E; [discriminate|]. intros H.
  destruct (String.eqb_spec k k2) as [->|Hne]; cbn [unique_keys].
  - now apply IH.
  - rewrite lookup_obj_delete, E.
    destruct (String.eqb k2 k); now apply IH.
Qed.

Lemma unique_keys_obj_assign {A : Type} (src target : list (string * A)) :
  unique_keys target = true -> unique_keys (obj_assign target src) = true.
Proof.
  revert target. unfold obj_assign.
  induction src as [|[k v] src IH]; intros target H; cbn [fold_left fst snd].
  - assumption.
  - apply IH. now apply unique_keys_obj_set.
Qed.

Lemma lookup_obj_assign {A : Type} (k : string) (src target : list (string * A)) :
  unique_keys src = true ->
  lookup k (obj_assign target src) =
  match lookup k src with Some v => Some v | None => lookup k target end.
Proof.
  revert target. unfold obj_assign.
  induction src as [|[k1 v1] src IH]; intros target; cbn [fold_left fst snd unique_keys lookup].
  - reflexivity.
  - destruct (lookup k1 src) eqn:E; [discriminate|]. intros H.
    rewrite IH by assumption.
    destruct (String.eqb_spec k k1) as [->|Hne].
    + rewrite E, lookup_obj_set, String.eqb_refl. reflexivity.
    + rewrite lookup_obj_set.
      destruct (String.eqb_spec k k1) as [->|_]; [contradiction | reflexivity].
Qed.

Lemma obj_assign_nil_unique {A : Type} (o : list (string * A)) :
  unique_keys o = true -> obj_assign [] o = o.
Proof. intros H. now rewrite obj_assign_unique. Qed.

(** The spread is the overlay, key by key. *)
Lemma lookup_spread2 (g : list (string * value)) (h : option (list (string * value)))
    (k : string) :
  unique_keys g = true ->
  match h with Some o => unique_keys o = true | None => True end ->
  lookup k (spread2 g h) = overlay g h k.
Proof.
  intros Hg Hh. unfold spread2, overlay. rewrite (obj_assign_nil_unique g Hg).
  destruct h as [o|].
  - now apply lookup_obj_assign.
  - reflexivity.
Qed.

Lemma obj_set_app_present {A : Type} (k : string) (v x : A) (m1 m2 : list (string * A)) :
  lookup k m1 = Some x ->
  obj_set k v (m1 ++ m2)%list = (obj_set k v m1 ++ m2)%list /\
  map fst (obj_set k v m1) = map fst m1.
Proof.
  induction m1 as [|[k1 v1] m1 IH]; cbn [lookup obj_set List.app map fst]; [discriminate|].
  destruct (String.eqb k k1); cbn [List.app map fst].
  - intros _. split; reflexivity.
  - intros H. destruct (IH H) as [-> ->]. split; reflexivity.
Qed.

Lemma obj_set_app_absent {A : Type} (k : string) (v : A) (m1 m2 : list (string * A)) :
  lookup k m1 = None ->
  obj_set k v (m1 ++ m2)%list = (m1 ++ obj_set k v m2)%list.
Proof.
  induction m1 as [|[k1 v1] m1 IH]; cbn [lookup obj_set List.app]; [reflexivity|].
  destruct (String.eqb k k1); [discriminate|]. intros H. now rewrite IH.
Qed.

Lemma extends_obj_set {A : Type} (g m : list (string * A)) (k : string) (v : A) :
  extends g m -> extends g (obj_set k v m).
Proof.
  intros (m1 & m2 & -> & Hk).
  destruct (lookup k m1) as [x|] eqn:E.
  - destruct (obj_set_app_present k v x m1 m2 E) as [-> Hk'].
    exists (obj_set k v m1), m2. split; [reflexivity | congruence].
  - rewrite obj_set_app_absent by assumption.
    exists m1, (obj_set k v m2). split; [reflexivity | assumption].
Qed.

Lemma extends_obj_assign {A : Type} (g src target : list (string * A)) :
  extends g target -> extends g (obj_assign target src).
Proof.
  revert target. unfold obj_assign.
  induction src as [|[k v] src IH]; intros target H; cbn [fold_left fst snd];
    [assumption | now apply IH, extends_obj_set].
Qed.

Lemma extends_refl {A : Type} (g : list (string * A)) : extends g g.
Proof. exists g, []. split; [now rewrite List.app_nil_r | reflexivity]. Qed.

(** Assigning onto [g] an object that starts with the keys of [g] gives
    that object back. *)
Lemma obj_assign_same_keys {A : Type} (m1 g done : list (string * A)) :
  map fst m1 = map fst g ->
  unique_keys (done ++ m1)%list = true ->
  obj_assign (done ++ g)%list m1 = (done ++ m1)%list.
Proof.
  revert g done. unfold obj_assign.
  induction m1 as [|[k v] m1 IH]; intros [|[k' v'] g] done Hk Hu;
    cbn [map fst] in Hk; try discriminate; cbn [fold_left fst snd].
  - reflexivity.
  - injection Hk as <- Hk.
    apply unique_keys_app_fresh in Hu as [Hfresh Hu].
    rewrite obj_set_app_absent by assumption.
    cbn [obj_set]. rewrite String.eqb_refl.
    change (done ++ (k, v) :: g)%list with (done ++ [(k, v)] ++ g)%list.
    rewrite List.app_assoc, IH by assumption.
    now rewrite <- List.app_assoc.
Qed.

Lemma fold_left_obj_assign_app {A : Type} (a b target : list (string * A)) :
  obj_assign target (a ++ b)%list = obj_assign (obj_assign target a) b.
Proof. unfold obj_assign. apply fold_left_app. Qed.

Lemma obj_assign_extends {A : Type} (g m : list (string * A)) :
  extends g m -> unique_keys m = true -> obj_assign g m = m.
Proof.
  intros (m1 & m2 & -> & Hk) Hu.
  rewrite fold_left_obj_assign_app.
  assert (Hu1 : unique_keys ([] ++ m1)%list = true).
  { cbn [List.app]. clear Hk. revert Hu. induction m1 as [|[k v] m1 IH]; [reflexivity|].
    cbn [List.app unique_keys].
    destruct (lookup k (m1 ++ m2)%list) eqn:E; [discriminate|].
    apply lookup_app_none in E as [-> _]. exact IH. }
  pose proof (obj_assign_same_keys m1 g [] Hk Hu1) as E.
  cbn [List.app] in E. rewrite E.
  now apply obj_assign_unique.
Qed.

(** Merging the global headers a second time changes nothing. *)
Lemma spread2_idempotent {A : Type} (g : list (string * A)) (h : option (list (string * A))) :
  spread2 g (Some (spread2 g h)) = spread2 g h.
Proof.
  unfold spread2.
  set (G := obj_assign [] g).
  assert (HG : unique_keys G = true) by (apply unique_keys_obj_assign; reflexivity).
  apply obj_assign_extends.
  - apply extends_obj_assign, extends_refl.
  - now apply unique_keys_obj_assign.
Qed.

(** ** The monad: computations that never throw *)

Lemma never_throws_ret {A : Type} (a : A) : never_throws (ret a).
Proof. intros w. now exists a. Qed.

Lemma never_throws_bind {A B : Type} (m : M A) (k : A -> M B) :
  never_throws m -> (forall a, never_throws (k a)) -> never_throws (bind m k).
Proof.
  intros Hm Hk w. unfold bind. destruct (Hm w) as [a Ha].
  destruct (m w) as [[a'|e] w']; cbn [fst] in Ha; [|discriminate].
  apply Hk.
Qed.

Lemma never_throws_try_catch {A : Type} (body : M A) (handler : Exn -> M A) :
  (forall e, never_throws (handler e)) -> never_throws (try_catch body handler).
Proof.
  intros Hh w. unfold try_catch. destruct (body w) as [[a|e] w'].
  - now exists a.
  - apply Hh.
Qed.

Lemma never_throws_cond {A : Type} (b : World -> bool) (m1 m2 : M A) :
  never_throws m1 -> never_throws m2 ->
  never_throws (fun w => if b w then m1 w else m2 w).
Proof. intros H1 H2 w. destruct (b w); [apply H1 | apply H2]. Qed.

Lemma never_throws_get_this : never_throws get_this.
Proof. intros w. now eexists. Qed.

Lemma never_throws_modify_this f : never_throws (modify_this f).
Proof. intros w. now eexists. Qed.

Lemma never_throws_emit e : never_throws (emit e).
Proof. intros w. now eexists. Qed.

Lemma never_throws_set_timer t d : never_throws (set_timer t d).
Proof. intros w. now eexists. Qed.

Lemma never_throws_clear_timer id : never_throws (clear_timer id).
Proof. intros w. now eexists. Qed.

Lemma never_throws_new_WebSocket u q : never_throws (new_WebSocket u q).
Proof. intros w. now eexists. Qed.

Lemma never_throws_set_readyState i st : never_throws (set_readyState i st).
Proof. intros w. now eexists. Qed.

Lemma never_throws_new_Promise : never_throws new_Promise.
Proof. intros w. now eexists. Qed.

Lemma never_throws_settle p o : never_throws (settle p o).
Proof. intros w. now eexists. Qed.

Lemma never_throws_socket_close : never_throws socket_close.
Proof.
  intros w. unfold socket_close. destruct (socket (this w)); [|now eexists].
  destruct (option_map readyState (nth_error (sockets w) n)) as [[| | |]|]; now eexists.
Qed.

Create HintDb nothrow.

#[local] Hint Resolve never_throws_ret never_throws_get_this never_throws_modify_this
  never_throws_emit never_throws_set_timer never_throws_clear_timer
  never_throws_new_WebSocket never_throws_set_readyState never_throws_new_Promise
  never_throws_settle never_throws_socket_close : nothrow.

(** Goes through a method statement by statement. *)
Ltac nothrow :=
  repeat first
    [ progress auto with nothrow
    | apply never_throws_bind; [|intros ?]
    | apply never_throws_try_catch; intros ?
    | apply never_throws_cond
    | match goal with
      | |- never_throws (match ?x with _ => _ end) => destruct x
      | |- never_throws (if ?b then _ else _) => destruct b
      end ].

Lemma never_throws_when_some {A : Type} (o : option A) (f : A -> M unit) :
  (forall a, never_throws (f a)) -> never_throws (when_some o f).
Proof. intros H. destruct o; cbn [when_some]; auto with nothrow. Qed.

Lemma never_throws_forEach {A : Type} (l : list A) (f : A -> M unit) :
  (forall a, never_throws (f a)) -> never_throws (forEach l f).
Proof. intros H. induction l; cbn [forEach]; nothrow. Qed.

Lemma never_throws_invoke key q r : never_throws (invoke key q r).
Proof. unfold invoke. nothrow. Qed.

#[local] Hint Resolve never_throws_invoke : nothrow.

Lemma never_throws_console_error msg : never_throws (console_error msg).
Proof. unfold console_error. nothrow. Qed.

Lemma never_throws_console_warn msg : never_throws (console_warn msg).
Proof. unfold console_warn. nothrow. Qed.

#[local] Hint Resolve never_throws_console_error never_throws_console_warn : nothrow.

Lemma never_throws_startQueManager : never_throws startQueManager.
Proof. unfold startQueManager. nothrow. apply never_throws_when_some. nothrow. Qed.

Lemma never_throws_stopQueManager : never_throws stopQueManager.
Proof. unfold stopQueManager. nothrow. Qed.

Lemma never_throws_startHeartbeat : never_throws startHeartbeat.
Proof. unfold startHeartbeat. nothrow. apply never_throws_when_some. nothrow. Qed.

Lemma never_throws_stopHeartbeat : never_throws stopHeartbeat.
Proof. unfold stopHeartbeat. nothrow. Qed.

Lemma never_throws_notify b : never_throws (notify b).
Proof. unfold notify. nothrow. apply never_throws_when_some. nothrow. Qed.

Lemma never_throws_sweep_entry now kq : never_throws (sweep_entry now kq).
Proof. unfold sweep_entry. nothrow. Qed.

Lemma never_throws_sweep now : never_throws (sweep now).
Proof.
  unfold sweep. nothrow. apply never_throws_forEach.
  apply never_throws_sweep_entry.
Qed.

#[local] Hint Resolve never_throws_startQueManager never_throws_stopQueManager
  never_throws_startHeartbeat never_throws_stopHeartbeat never_throws_notify
  never_throws_sweep : nothrow.

(** ** Sending: the result of each of the three operations *)

Lemma is_open_socket (w : World) :
  is_open w = true ->
  exists i, socket (this w) = Some i /\
            option_map readyState (nth_error (sockets w) i) = Some OPEN.
Proof.
  unfold is_open, socket_readyState.
  destruct (socket (this w)) as [i|]; [|discriminate].
  destruct (option_map readyState (nth_error (sockets w) i)) as [[| | |]|] eqn:E;
    try discriminate.
  intros _. now exists i.
Qed.

Lemma sendMessage_open (m : Message) (w : World) (i : nat) :
  is_open w = true -> socket (this w) = Some i ->
  sendMessage m w = (Ok (stamped w m), logged (WireSend i (serialize (stamped w m))) w).
Proof.
  intros Hopen Hi. unfold sendMessage. rewrite Hopen.
  destruct (is_open_socket w Hopen) as (j & Hj & Hst).
  rewrite Hi in Hj. injection Hj as <-.
  unfold bind, get_this, socket_send. rewrite Hi, Hst. reflexivity.
Qed.

Lemma sendMessage_not_open (m : Message) (w : World) :
  is_open w = false ->
  sendMessage m w = (Ok m, logged (ConsoleError not_connected) w).
Proof. intros Hopen. unfold sendMessage. rewrite Hopen. reflexivity. Qed.

Lemma never_throws_sendMessage m : never_throws (sendMessage m).
Proof.
  intros w. destruct (is_open w) eqn:E.
  - destruct (is_open_socket w E) as (i & Hi & _).
    rewrite (sendMessage_open m w i E Hi). now eexists.
  - rewrite (sendMessage_not_open m w E). now eexists.
Qed.

#[local] Hint Resolve never_throws_sendMessage : nothrow.

Lemma stamped_stamped (w w' : World) (m : Message) :
  globalHeaders (this w') = globalHeaders (this w) ->
  stamped w' (stamped w m) = stamped w m.
Proof.
  intros Hg. unfold stamped. rewrite Hg.
  cbn [set_headers headers uuid route payload status].
  now rewrite spread2_idempotent.
Qed.

Lemma onResponse_open (m : Message) (h : Handler) (now : Z) (w : World) (i : nat) :
  is_open w = true -> socket (this w) = Some i ->
  onResponse m h now w =
  (Ok (stamped w m),
   logged (WireSend i (serialize (stamped w m)))
     (with_waiter (uuid m) (waiter w h now) w)).
Proof.
  intros Hopen Hi. unfold onResponse, bind, get_this, modify_this.
  change (set_this _ w) with (with_waiter (uuid m) (waiter w h now) w).
  rewrite (sendMessage_open _ _ i) by assumption.
  change (set_headers _ m) with (stamped w m).
  now rewrite stamped_stamped.
Qed.

Lemma onResponse_not_open (m : Message) (h : Handler) (now : Z) (w : World) :
  is_open w = false ->
  onResponse m h now w =
  (Ok (stamped w m),
   logged (ConsoleError not_connected) (with_waiter (uuid m) (waiter w h now) w)).
Proof.
  intros Hopen. unfold onResponse, bind, get_this, modify_this.
  change (set_this _ w) with (with_waiter (uuid m) (waiter w h now) w).
  rewrite sendMessage_not_open by assumption. reflexivity.
Qed.

Lemma never_throws_onResponse m h now : never_throws (onResponse m h now).
Proof. unfold onResponse. nothrow. Qed.

#[local] Hint Resolve never_throws_onResponse : nothrow.

Lemma update_nth_app_last {A : Type} (f : A -> A) (l : list A) (x : A) :
  update_nth (List.length l) f (l ++ [x])%list = (l ++ [f x])%list.
Proof. induction l as [|y l IH]; cbn [update_nth List.length List.app]; congruence. Qed.

Lemma sendAndWait_open (m : Message) (now : Z) (w : World) (i : nat) :
  is_open w = true -> socket (this w) = Some i ->
  let p := List.length (promises w) in
  sendAndWait m now w =
  (Ok (p, stamped w m),
   logged (WireSend i (serialize (stamped w m)))
     (with_waiter (uuid m) (waiter w (PromiseResolve p) now)
        (set_promises (promises w ++ [Pending])%list w))).
Proof.
  intros Hopen Hi p. unfold sendAndWait, bind at 1, new_Promise, try_catch.
  fold p. set (w1 := set_promises _ w).
  assert (H1 : is_open w1 = true) by exact Hopen. rewrite H1. cbn [negb].
  unfold bind. rewrite (onResponse_open m _ now w1 i H1 Hi). reflexivity.
Qed.

Lemma sendAndWait_not_open (m : Message) (now : Z) (w : World) :
  is_open w = false ->
  sendAndWait m now w =
  (Ok (List.length (promises w), m),
   set_promises (promises w ++ [Rejected "WebSocket is not connected."])%list w).
Proof.
  intros Hopen. unfold sendAndWait, bind at 1, new_Promise, try_catch.
  set (w1 := set_promises _ w).
  assert (H1 : is_open w1 = false) by exact Hopen. rewrite H1. cbn [negb].
  unfold bind, settle, ret. subst w1. cbn [promises set_promises].
  rewrite update_nth_app_last. reflexivity.
Qed.

Lemma never_throws_sendAndWait m now : never_throws (sendAndWait m now).
Proof. unfold sendAndWait. nothrow. Qed.

Lemma never_throws_close : never_throws close.
Proof. unfold close. nothrow. Qed.

Lemma never_throws_connect u q : never_throws (connect u q).
Proof. unfold connect. nothrow. Qed.

#[local] Hint Resolve never_throws_sendAndWait never_throws_close
  never_throws_connect : nothrow.

Lemma never_throws_onopen q : never_throws (onopen q).
Proof. unfold onopen. nothrow. Qed.

Lemma never_throws_onmessage data : never_throws (onmessage data).
Proof. unfold onmessage. nothrow. Qed.

Lemma never_throws_onerror : never_throws onerror.
Proof. unfold onerror. nothrow. Qed.

Lemma never_throws_fail_entry kq : never_throws (fail_entry kq).
Proof. unfold fail_entry. nothrow. Qed.

Lemma never_throws_reconnect_policy u q code random :
  never_throws (reconnect_policy u q code random).
Proof. unfold reconnect_policy. nothrow. Qed.

#[local] Hint Resolve never_throws_fail_entry never_throws_reconnect_policy : nothrow.

Lemma never_throws_onclose u q code random : never_throws (onclose u q code random).
Proof.
  unfold onclose. nothrow.
  apply never_throws_forEach. intros. nothrow.
Qed.

Lemma never_throws_heartbeat_tick uuid0 : never_throws (heartbeat_tick uuid0).
Proof.
  unfold heartbeat_tick. nothrow.
  apply never_throws_when_some. intros. nothrow.
Qed.

Lemma never_throws_run_task t now uuid0 : never_throws (run_task t now uuid0).
Proof.
  destruct t; cbn [run_task]; auto using never_throws_heartbeat_tick with nothrow.
  - unfold heartbeat_timeout. nothrow.
  - unfold reconnect. nothrow.
Qed.

#[local] Hint Resolve never_throws_onopen never_throws_onmessage never_throws_onerror
  never_throws_onclose never_throws_run_task : nothrow.

Lemma never_throws_step (e : Event) : never_throws (step e).
Proof.
  intros w. destruct e; cbn [step].
  - destruct (nth_error (sockets w) sock) as [[u [| | |] q]|];
      try (now eexists). apply (never_throws_bind (set_readyState sock OPEN)); nothrow.
  - destruct (nth_error (sockets w) sock) as [[u [| | |] q]|];
      try (now eexists). apply never_throws_onmessage.
  - destruct (nth_error (sockets w) sock) as [[u [| | |] q]|];
      try (now eexists); apply never_throws_onerror.
  - destruct (nth_error (sockets w) sock) as [[u [| | |] q]|];
      try (now eexists);
      apply (never_throws_bind (set_readyState sock CLOSED)); nothrow.
  - destruct (find_timer id w) as [t|]; [|now eexists].
    apply (never_throws_bind (if repeats (task t) then ret tt else clear_timer id));
      nothrow.
  - apply (never_throws_bind (sendMessage m)); nothrow.
  - apply (never_throws_bind (onResponse request onReceivedAction now)); nothrow.
  - apply (never_throws_bind (sendAndWait m now)); nothrow.
  - apply never_throws_close.
Qed.

(** ** Headers on the wire, and what a send changes (C6, C10) *)


(** C10.  A send changes the envelope of the caller in its headers only:
    [onResponse] always leaves the merged headers there, whatever the state
    of the transport; [sendMessage] does so when the transport is open and
    leaves the envelope as it was when it is not; [uuid], [route],
    [payload] and [status] are never changed. *)
Theorem send_mutates_only_headers (w : World) (m : Message) :
  (forall h now, fst (onResponse m h now w) = Ok (stamped w m)) /\
  fst (sendMessage m w) = Ok (if is_open w then stamped w m else m) /\
  headers (stamped w m) = Some (spread2 (globalHeaders (this w)) (headers m)) /\
  uuid (stamped w m) = uuid m /\
  route (stamped w m) = route m /\
  payload (stamped w m) = payload m /\
  status (stamped w m) = status m.
Proof.
  split; [|split; [|repeat split]].
  - intros h now. destruct (is_open w) eqn:E.
    + destruct (is_open_socket w E) as (i & Hi & _).
      now rewrite (onResponse_open m h now w i).
    + now rewrite (onResponse_not_open m h now w).
  - destruct (is_open w) eqn:E.
    + destruct (is_open_socket w E) as (i & Hi & _).
      now rewrite (sendMessage_open m w i).
    + now rewrite (sendMessage_not_open m w).
Qed.

(** ** Failures raised to the caller (C8) *)


(** ** Inbound frames (C4) *)

Lemma is_PONG_false (r : value) : r <> VString "PONG" -> is_PONG r = false.
Proof.
  destruct r; try reflexivity. cbn [is_PONG]. intros H.
  destruct (String.eqb_spec s "PONG") as [->|]; [contradiction | reflexivity].
Qed.

Lemma get_field_defined (v r : value) (k k' : string) :
  get_field v k = Some r -> exists u, get_field v k' = Some u.
Proof. destruct v; cbn [get_field]; try discriminate; intros _; now eexists. Qed.

(** What [onmessage] does with a frame that parses, has a route and is not
    a PONG. *)
Lemma onmessage_frame (w : World) (data : string) (v r u : value) :
  JSON_parse data = Some v ->
  get_field v "route" = Some r ->
  r <> VString "PONG" ->
  get_field v "uuid" = Some u ->
  onmessage data w =
  let w1 := match onMessageReceived (this w) with
            | Some cb => logged (PushReceived cb (mkResponse v true)) w
            | None => w
            end in
  match Map_get u (pendingRequests (this w)) with
  | Some q =>
      (invoke (key_string u) q (mkResponse v true) ;;
       modify_this (fun o' =>
         set_pendingRequests (Map_delete u (pendingRequests o')) o')) w1
  | None => (Ok tt, w1)
  end.
Proof.
  intros Hparse Hroute Hr Hu.
  unfold onmessage, try_catch, bind at 1, JSON_parse_or_throw. rewrite Hparse.
  cbn [ret]. unfold bind at 1, read_field at 1. rewrite Hroute. cbn [ret].
  rewrite (is_PONG_false r Hr).
  unfold bind at 1, get_this at 1. unfold bind at 1.
  destruct (onMessageReceived (this w)) as [cb|]; cbn [when_some emit ret].
  - fold (logged (PushReceived cb (mkResponse v true)) w).
    unfold bind at 1, read_field. rewrite Hu. cbn [ret].
    unfold bind at 1, get_this. cbn [logged this].
    destruct (Map_get u (pendingRequests (this w))) as [q|]; [|reflexivity].
    destruct (onMessage q) eqn:Eq; unfold invoke, bind, emit, modify_this, settle, ret;
      rewrite Eq; reflexivity.
  - unfold bind at 1, read_field. rewrite Hu. cbn [ret].
    unfold bind at 1, get_this.
    destruct (Map_get u (pendingRequests (this w))) as [q|]; [|reflexivity].
    destruct (onMessage q) eqn:Eq; unfold invoke, bind, emit, modify_this, settle, ret;
      rewrite Eq; reflexivity.
Qed.


(** ** Frames: what a computation leaves alone *)

Section Frames.
Context {X : Type} (obs : World -> X) (R : X -> X -> Prop).
Hypothesis R_refl : forall x, R x x.
Hypothesis R_trans : forall x y z, R x y -> R y z -> R x z.

Lemma keeps_ret {A : Type} (a : A) : keeps obs R (ret a).
Proof. intros w. apply R_refl. Qed.

Lemma keeps_throw {A : Type} (e : Exn) : keeps obs R (@throw A e).
Proof. intros w. apply R_refl. Qed.

Lemma keeps_get_this : keeps obs R get_this.
Proof. intros w. apply R_refl. Qed.

Lemma keeps_bind {A B : Type} (m : M A) (k : A -> M B) :
  keeps obs R m -> (forall a, keeps obs R (k a)) -> keeps obs R (bind m k).
Proof.
  intros Hm Hk w. unfold bind. specialize (Hm w).
  destruct (m w) as [[a|e] w']; cbn [snd] in *; [|assumption].
  eapply R_trans; [eassumption | apply Hk].
Qed.

Lemma keeps_try_catch {A : Type} (body : M A) (handler : Exn -> M A) :
  keeps obs R body -> (forall e, keeps obs R (handler e)) ->
  keeps obs R (try_catch body handler).
Proof.
  intros Hb Hh w. unfold try_catch. specialize (Hb w).
  destruct (body w) as [[a|e] w']; cbn [snd] in *; [assumption|].
  eapply R_trans; [eassumption | apply Hh].
Qed.

Lemma keeps_cond {A : Type} (b : World -> bool) (m1 m2 : M A) :
  keeps obs R m1 -> keeps obs R m2 ->
  keeps obs R (fun w => if b w then m1 w else m2 w).
Proof. intros H1 H2 w. destruct (b w); [apply H1 | apply H2]. Qed.

Lemma keeps_when_some {A : Type} (o : option A) (f : A -> M unit) :
  (forall a, keeps obs R (f a)) -> keeps obs R (when_some o f).
Proof. intros H. destruct o; cbn [when_some]; [apply H | apply keeps_ret]. Qed.

Lemma keeps_forEach {A : Type} (l : list A) (f : A -> M unit) :
  (forall a, keeps obs R (f a)) -> keeps obs R (forEach l f).
Proof.
  intros H. induction l; cbn [forEach]; [apply keeps_ret|].
  apply keeps_bind; [apply H | intros _; assumption].
Qed.
End Frames.

(** Goes through a method statement by statement; [leaf] closes what is
    left of the host and of the fields. *)
Ltac frames Hrefl Htrans leaf :=
  repeat first
    [ apply (keeps_ret _ _ Hrefl)
    | apply (keeps_throw _ _ Hrefl)
    | apply (keeps_get_this _ _ Hrefl)
    | apply (keeps_bind _ _ Htrans); [|intros ?]
    | apply (keeps_try_catch _ _ Htrans); [|intros ?]
    | apply keeps_cond
    | apply (keeps_when_some _ _ Hrefl); intros ?
    | apply (keeps_forEach _ _ Hrefl Htrans); intros ?
    | match goal with
      | |- keeps _ _ (match ?x with _ => _ end) => destruct x
      | |- keeps _ _ (if ?b then _ else _) => destruct b
      end
    | leaf ].

(** ** Waiters: the operations that are quiet *)

Lemma waiter_calls_app (a b : list Effect) :
  waiter_calls (a ++ b)%list = (waiter_calls a ++ waiter_calls b)%list.
Proof. apply filter_app. Qed.

Lemma quiet_emit (e : Effect) : is_waiter_call e = false -> quiet (emit e).
Proof.
  intros H w. unfold waiters, emit. cbn [snd this trace].
  rewrite waiter_calls_app. cbn [waiter_calls filter]. rewrite H.
  now rewrite List.app_nil_r.
Qed.

Lemma quiet_modify_this (f : ObservableSocket -> ObservableSocket) :
  (forall o, pendingRequests (f o) = pendingRequests o) -> quiet (modify_this f).
Proof.
  intros H w. unfold waiters, modify_this. cbn [snd this trace set_this].
  now rewrite H.
Qed.

Lemma quiet_socket_send data : quiet (socket_send data).
Proof.
  intros w. unfold socket_send. destruct (socket (this w)); [|reflexivity].
  destruct (option_map readyState (nth_error (sockets w) n)) as [[| | |]|];
    try reflexivity.
  now apply quiet_emit.
Qed.

Lemma quiet_socket_close : quiet socket_close.
Proof.
  intros w. unfold socket_close. destruct (socket (this w)); [|reflexivity].
  destruct (option_map readyState (nth_error (sockets w) n)) as [[| | |]|];
    reflexivity.
Qed.

Lemma quiet_new_WebSocket u q : quiet (new_WebSocket u q).
Proof.
  intros w. unfold waiters, new_WebSocket. cbn [snd this trace].
  rewrite waiter_calls_app. cbn [waiter_calls filter is_waiter_call].
  now rewrite List.app_nil_r.
Qed.

(** Leaves of a quiet method: host operations and field updates that are
    quiet by computation. *)
Ltac quiet_leaf :=
  first
    [ apply quiet_emit; reflexivity
    | apply quiet_modify_this; intros ?; reflexivity
    | apply quiet_socket_send
    | apply quiet_socket_close
    | apply quiet_new_WebSocket
    | (intros ?; reflexivity) ].

Ltac quiet := unfold quiet; frames (@eq_refl (list (string * QueItem) * list Effect))
                                   (@eq_trans (list (string * QueItem) * list Effect))
                                   ltac:(fold (@quiet unit); fold (@quiet nat); quiet_leaf).

Lemma quiet_startQueManager : quiet startQueManager.
Proof. unfold startQueManager. quiet. Qed.

Lemma quiet_stopQueManager : quiet stopQueManager.
Proof. unfold stopQueManager. quiet. Qed.

Lemma quiet_startHeartbeat : quiet startHeartbeat.
Proof. unfold startHeartbeat. quiet. Qed.

Lemma quiet_stopHeartbeat : quiet stopHeartbeat.
Proof. unfold stopHeartbeat. quiet. Qed.

Lemma quiet_notify b : quiet (notify b).
Proof. unfold notify. quiet. Qed.

Lemma quiet_sendMessage m : quiet (sendMessage m).
Proof. unfold sendMessage, console_error. quiet. Qed.

Lemma quiet_connect u q : quiet (connect u q).
Proof. unfold connect. quiet. Qed.

Lemma quiet_close : quiet close.
Proof. unfold close. quiet. Qed.

Lemma quiet_onopen q : quiet (onopen q).
Proof. unfold onopen. quiet. Qed.

Lemma quiet_heartbeat_tick u : quiet (heartbeat_tick u).
Proof. unfold heartbeat_tick. quiet. Qed.

Lemma quiet_heartbeat_timeout : quiet heartbeat_timeout.
Proof. unfold heartbeat_timeout, console_warn. quiet. Qed.

Lemma quiet_reconnect u q : quiet (reconnect u q).
Proof. unfold reconnect. quiet. Qed.

(** ** Waiters: registration, match, sweep and close *)

Lemma bind_get_this {A : Type} (k : ObservableSocket -> M A) (w : World) :
  bind get_this k w = k (this w) w.
Proof. reflexivity. Qed.

(** Sequencing after a computation that cannot throw. *)
Lemma snd_bind_unit {B : Type} (m : M unit) (k : unit -> M B) (w : World) :
  never_throws m -> bind m k w = k tt (snd (m w)).
Proof.
  intros H. unfold bind. destruct (H w) as [[] Ha].
  destruct (m w) as [[[]|e] w']; cbn [fst] in Ha; [reflexivity | discriminate].
Qed.

Lemma snd_bind_unit_any {A : Type} (m : M A) (w : World) :
  never_throws m -> snd (bind m (fun _ => ret tt) w) = snd (m w).
Proof.
  intros H. unfold bind. destruct (H w) as [a Ha].
  destruct (m w) as [[a'|e] w']; cbn [fst] in Ha; [reflexivity | discriminate].
Qed.

Lemma onResponse_waiters (m : Message) (h : Handler) (now : Z) (w : World) :
  waiters (snd (onResponse m h now w)) =
  (obj_set (uuid m) (waiter w h now) (pendingRequests (this w)), waiter_calls (trace w)).
Proof.
  destruct (is_open w) eqn:E.
  - destruct (is_open_socket w E) as (i & Hi & _).
    rewrite (onResponse_open m h now w i E Hi).
    unfold waiters. cbn [snd logged with_waiter set_this this trace pendingRequests
      set_pendingRequests].
    rewrite waiter_calls_app. cbn [waiter_calls filter is_waiter_call].
    now rewrite List.app_nil_r.
  - rewrite (onResponse_not_open m h now w E).
    unfold waiters. cbn [snd logged with_waiter set_this this trace pendingRequests
      set_pendingRequests].
    rewrite waiter_calls_app. cbn [waiter_calls filter is_waiter_call].
    now rewrite List.app_nil_r.
Qed.

Lemma sendAndWait_waiters (m : Message) (now : Z) (w : World) :
  waiters (snd (sendAndWait m now w)) =
  if is_open w
  then (obj_set (uuid m) (waiter w (PromiseResolve (List.length (promises w))) now)
          (pendingRequests (this w)), waiter_calls (trace w))
  else waiters w.
Proof.
  destruct (is_open w) eqn:E.
  - destruct (is_open_socket w E) as (i & Hi & _).
    rewrite (sendAndWait_open m now w i E Hi).
    unfold waiters. cbn [snd logged with_waiter set_this this trace pendingRequests
      set_pendingRequests set_promises].
    rewrite waiter_calls_app. cbn [waiter_calls filter is_waiter_call].
    now rewrite List.app_nil_r.
  - now rewrite (sendAndWait_not_open m now w E).
Qed.

Lemma invoke_waiters (key : string) (q : QueItem) (r : Response) (w : World) :
  waiters (snd (invoke key q r w)) =
  (pendingRequests (this w),
   (waiter_calls (trace w) ++ [WaiterCalled key (onMessage q) r])%list).
Proof.
  unfold invoke, waiters.
  destruct (onMessage q); unfold bind, emit, settle, ret;
    cbn [snd this trace set_promises]; now rewrite waiter_calls_app.
Qed.

(** A frame either leaves the waiters as they are, or resolves the one
    waiter whose key it carries. *)
Lemma onmessage_waiters (data : string) (w : World) :
  waiters (snd (onmessage data w)) = waiters w \/
  exists v k q,
    JSON_parse data = Some v /\
    lookup k (pendingRequests (this w)) = Some q /\
    waiters (snd (onmessage data w)) =
      (obj_delete k (pendingRequests (this w)),
       (waiter_calls (trace w) ++ [WaiterCalled k (onMessage q) (mkResponse v true)])%list).
Proof.
  destruct (JSON_parse data) as [v|] eqn:Hparse.
  2:{ left. symmetry. unfold onmessage, try_catch, bind, JSON_parse_or_throw.
      rewrite Hparse.
      exact (quiet_emit (ConsoleError "Invalid WebSocket message:") eq_refl w). }
  destruct (get_field v "route") as [r|] eqn:Hroute.
  2:{ left. symmetry. unfold onmessage, try_catch, bind, JSON_parse_or_throw, read_field.
      rewrite Hparse. cbn [ret]. rewrite Hroute.
      exact (quiet_emit (ConsoleError "Invalid WebSocket message:") eq_refl w). }
  destruct (is_PONG r) eqn:Hpong.
  { left. unfold onmessage, try_catch, bind, JSON_parse_or_throw, read_field.
    rewrite Hparse. cbn [ret]. rewrite Hroute. cbn [ret]. rewrite Hpong.
    unfold get_this. destruct (heartbeatTimeout (this w)); reflexivity. }
  assert (Hr : r <> VString "PONG") by (intros ->; discriminate).
  destruct (get_field_defined v r "route" "uuid" Hroute) as [u Hu].
  rewrite (onmessage_frame w data v r u Hparse Hroute Hr Hu). cbv zeta.
  set (w1 := match onMessageReceived (this w) with
             | Some cb => logged (PushReceived cb (mkResponse v true)) w
             | None => w
             end).
  assert (H1 : waiters w1 = waiters w).
  { subst w1. destruct (onMessageReceived (this w)) as [cb|]; [|reflexivity].
    symmetry. exact (quiet_emit (PushReceived cb (mkResponse v true)) eq_refl w). }
  assert (Hp1 : pendingRequests (this w1) = pendingRequests (this w))
    by (subst w1; destruct (onMessageReceived (this w)); reflexivity).
  destruct (Map_get u (pendingRequests (this w))) as [q|] eqn:Eget; [|now left].
  right. destruct u; try discriminate Eget. cbn [Map_get key_string Map_delete] in *.
  exists v, s, q. repeat split; try assumption.
  rewrite snd_bind_unit by apply never_throws_invoke.
  pose proof (invoke_waiters s q (mkResponse v true) w1) as Hi.
  unfold waiters in *. unfold modify_this.
  cbn [snd this set_this trace pendingRequests set_pendingRequests].
  injection Hi as Hip Hit. injection H1 as _ H1t.
  now rewrite Hip, Hit, Hp1, H1t.
Qed.

(** Failing every entry of a table: the table stays, the handlers are
    called in table order. *)
Lemma forEach_failures (table : list (string * QueItem)) (w : World) :
  waiters (snd (forEach table fail_entry w)) =
  (pendingRequests (this w), (waiter_calls (trace w) ++ failures table)%list).
Proof.
  revert w. induction table as [|[k q] table IH]; intros w; cbn [forEach failures map].
  - unfold waiters. cbn [snd ret]. now rewrite List.app_nil_r.
  - rewrite snd_bind_unit by apply never_throws_fail_entry.
    rewrite IH. unfold fail_entry at 1 2. cbn [fst snd]. pose proof (invoke_waiters k q failure w) as Hi.
    unfold waiters in Hi. injection Hi as -> ->.
    now rewrite <- List.app_assoc.
Qed.

Lemma quiet_reconnect_policy u q code random : quiet (reconnect_policy u q code random).
Proof. unfold reconnect_policy, console_error. quiet. Qed.

(** After the close event the table is empty and every entry it held has
    had its handler called with the failure, in table order. *)
Lemma onclose_waiters u q code random (w : World) :
  waiters (snd (onclose u q code random w)) =
  ([], (waiter_calls (trace w) ++ failures (pendingRequests (this w)))%list).
Proof.
  unfold onclose.
  rewrite snd_bind_unit by apply never_throws_stopQueManager.
  rewrite snd_bind_unit by apply never_throws_stopHeartbeat.
  set (w2 := snd (stopHeartbeat (snd (stopQueManager w)))).
  assert (H2 : waiters w = waiters w2).
  { subst w2. etransitivity; [apply quiet_stopQueManager | apply quiet_stopHeartbeat]. }
  rewrite bind_get_this.
  rewrite snd_bind_unit
    by (apply never_throws_forEach; apply never_throws_fail_entry).
  set (w3 := snd (forEach (pendingRequests (this w2)) fail_entry w2)).
  pose proof (forEach_failures (pendingRequests (this w2)) w2) as H3. fold w3 in H3.
  rewrite snd_bind_unit by apply never_throws_modify_this.
  rewrite snd_bind_unit by apply never_throws_notify.
  set (w5 := snd (notify false _)).
  rewrite <- (quiet_reconnect_policy u q code random w5).
  subst w5. rewrite <- (quiet_notify false _).
  unfold waiters in *. unfold modify_this.
  cbn [snd this set_this trace pendingRequests set_pendingRequests].
  injection H3 as _ ->. injection H2 as -> ->. reflexivity.
Qed.

(** The sweep, entry by entry: the expired entries are deleted and their
    handlers called with the failure, in table order. *)
Lemma sweep_loop (now : Z) (l : list (string * QueItem)) (w : World) :
  waiters (snd (forEach l (sweep_entry now) w)) =
  (fold_left (fun P kq => if expired (snd kq) now then obj_delete (fst kq) P else P)
     l (pendingRequests (this w)),
   (waiter_calls (trace w) ++ failures (filter (fun kq => expired (snd kq) now) l))%list).
Proof.
  revert w. induction l as [|[k q] l IH]; intros w; cbn [forEach fold_left filter].
  - unfold waiters. cbn [snd ret failures map]. now rewrite List.app_nil_r.
  - rewrite snd_bind_unit by apply never_throws_sweep_entry.
    rewrite IH. unfold sweep_entry at 1 2. cbn [fst snd].
    destruct (expired q now); [|reflexivity].
    rewrite !snd_bind_unit by apply never_throws_invoke.
    pose proof (invoke_waiters k q failure w) as Hi.
    unfold waiters in Hi. injection Hi as Hp Ht. unfold modify_this.
    cbn [snd this set_this trace pendingRequests set_pendingRequests failures map fst snd].
    rewrite Hp, Ht. now rewrite <- List.app_assoc.
Qed.

Lemma sweep_waiters (now : Z) (w : World) :
  waiters (snd (sweep now w)) =
  (fold_left (fun P kq => if expired (snd kq) now then obj_delete (fst kq) P else P)
     (pendingRequests (this w)) (pendingRequests (this w)),
   (waiter_calls (trace w)
    ++ failures (filter (fun kq => expired (snd kq) now) (pendingRequests (this w))))%list).
Proof. unfold sweep. rewrite bind_get_this. apply sweep_loop. Qed.

Lemma quiet_set_readyState i st : quiet (set_readyState i st).
Proof. intros w. reflexivity. Qed.

Lemma quiet_clear_timer id : quiet (clear_timer id).
Proof. intros w. reflexivity. Qed.

(** Every turn moves the waiters in one of the five ways. *)
Lemma step_waiter_move (e : Event) (w : World) : waiter_move e w (snd (step e w)).
Proof.
  destruct e; cbn [step].
  - (* open *)
    apply move_none.
    destruct (nth_error (sockets w) sock) as [[u [| | |] q]|]; try reflexivity.
    rewrite snd_bind_unit by apply never_throws_set_readyState.
    symmetry. etransitivity; [apply (quiet_set_readyState sock OPEN) | apply quiet_onopen].
  - (* message *)
    destruct (nth_error (sockets w) sock) as [[u [| | |] q]|];
      try (apply move_none; reflexivity).
    destruct (onmessage_waiters data w) as [H | (v & k & q' & Hp & Hl & H)].
    + now apply move_none.
    + now apply (move_match _ _ _ sock data v k q').
  - (* error *)
    apply move_none.
    destruct (nth_error (sockets w) sock) as [[u [| | |] q]|]; try reflexivity;
      symmetry; exact (quiet_emit (ConsoleError "WebSocket error:") eq_refl w).
  - (* close *)
    destruct (nth_error (sockets w) sock) as [[u st q]|] eqn:Es;
      [|apply move_none; reflexivity].
    destruct st;
      try (apply move_none; reflexivity);
      (eapply (move_close _ _ _ sock code random _ eq_refl Es);
       [cbn [readyState]; discriminate|]);
      rewrite snd_bind_unit by apply never_throws_set_readyState;
      rewrite onclose_waiters; reflexivity.
  - (* timer *)
    destruct (find_timer id w) as [t|] eqn:Et; [|apply move_none; reflexivity].
    assert (Hc : never_throws (if repeats (task t) then ret tt else clear_timer id))
      by (destruct (repeats (task t)); auto with nothrow).
    rewrite snd_bind_unit by exact Hc.
    set (w1 := snd ((if repeats (task t) then ret tt else clear_timer id) w)).
    assert (H1 : waiters w1 = waiters w)
      by (subst w1; destruct (repeats (task t)); reflexivity).
    assert (Hp : pendingRequests (this w1) = pendingRequests (this w))
      by (subst w1; destruct (repeats (task t)); reflexivity).
    assert (Ht : waiter_calls (trace w1) = waiter_calls (trace w))
      by (subst w1; destruct (repeats (task t)); reflexivity).
    destruct (task t) eqn:Etask; cbn [run_task].
    + apply move_none. rewrite <- H1. symmetry. apply quiet_heartbeat_tick.
    + apply move_none. rewrite <- H1. symmetry. apply quiet_heartbeat_timeout.
    + apply (move_sweep _ _ _ id now randomUUID t eq_refl Et Etask).
      rewrite sweep_waiters. unfold swept, expired_entries. now rewrite Hp, Ht.
    + apply move_none. rewrite <- H1. symmetry. apply quiet_reconnect.
  - (* sendMessage *)
    apply move_none.
    rewrite snd_bind_unit_any by apply never_throws_sendMessage.
    symmetry. apply quiet_sendMessage.
  - (* onResponse *)
    apply (move_register _ _ _ request onReceivedAction now); [now left|].
    rewrite snd_bind_unit_any by apply never_throws_onResponse.
    apply onResponse_waiters.
  - (* sendAndWait *)
    rewrite snd_bind_unit_any by apply never_throws_sendAndWait.
    pose proof (sendAndWait_waiters m now w) as H.
    destruct (is_open w).
    + apply (move_register _ _ _ m (PromiseResolve (List.length (promises w))) now);
        [right; now split | exact H].
    + now apply move_none.
  - (* close *)
    apply move_none. symmetry. apply quiet_close.
Qed.

(** ** One waiter, by its key *)

Lemma key_calls_waiter_calls (key : string) (tr : list Effect) :
  key_calls key (waiter_calls tr) = key_calls key tr.
Proof.
  induction tr as [|e tr IH]; [reflexivity|].
  unfold key_calls, waiter_calls in *. cbn [filter].
  destruct e; cbn [is_waiter_call is_call_of filter]; try assumption.
  destruct (String.eqb key0 key); now rewrite IH.
Qed.

Lemma key_calls_app (key : string) (a b : list Effect) :
  key_calls key (a ++ b)%list = (key_calls key a ++ key_calls key b)%list.
Proof. apply filter_app. Qed.

Lemma key_calls_single (key k : string) (h : Handler) (r : Response) :
  key_calls key [WaiterCalled k h r] =
  if String.eqb k key then [WaiterCalled k h r] else [].
Proof. unfold key_calls. cbn [filter is_call_of]. now destruct (String.eqb k key). Qed.

(** From the waiters to one key: what the new calls are for that key. *)
Lemma key_calls_of_waiters (key : string) (w w' : World) (new : list Effect) :
  waiter_calls (trace w') = (waiter_calls (trace w) ++ new)%list ->
  key_calls key (trace w') = (key_calls key (trace w) ++ key_calls key new)%list.
Proof.
  intros H. rewrite <- (key_calls_waiter_calls key (trace w')), H.
  now rewrite key_calls_app, key_calls_waiter_calls.
Qed.

Lemma entries_of_key {A : Type} (key : string) (P : list (string * A)) :
  unique_keys P = true ->
  filter (fun kq => String.eqb (fst kq) key) P =
  match lookup key P with Some q => [(key, q)] | None => [] end.
Proof.
  induction P as [|[k q] P IH]; [reflexivity|].
  cbn [unique_keys filter lookup fst].
  destruct (lookup k P) eqn:Ek; [discriminate|]. intros Hu.
  rewrite String.eqb_sym.
  destruct (String.eqb_spec key k) as [->|Hne].
  - rewrite IH, Ek by assumption. reflexivity.
  - now apply IH.
Qed.

Lemma key_calls_failures (key : string) (L : list (string * QueItem)) :
  key_calls key (failures L) =
  failures (filter (fun kq => String.eqb (fst kq) key) L).
Proof.
  induction L as [|[k q] L IH]; [reflexivity|].
  change (failures ((k, q) :: L)) with (WaiterCalled k (onMessage q) failure :: failures L).
  unfold key_calls in *. cbn [filter is_call_of fst].
  destruct (String.eqb k key); rewrite IH; reflexivity.
Qed.

Lemma key_calls_failures_unique (key : string) (P : list (string * QueItem)) :
  unique_keys P = true ->
  key_calls key (failures P) =
  match lookup key P with
  | Some q => [WaiterCalled key (onMessage q) failure]
  | None => []
  end.
Proof.
  intros Hu. rewrite key_calls_failures, entries_of_key by assumption.
  now destruct (lookup key P).
Qed.

Lemma filter_filter_comm {A : Type} (f g : A -> bool) (l : list A) :
  filter f (filter g l) = filter g (filter f l).
Proof.
  induction l as [|x l IH]; [reflexivity|]. cbn [filter].
  destruct (g x) eqn:Eg, (f x) eqn:Ef; cbn [filter]; rewrite ?Eg, ?Ef, IH; reflexivity.
Qed.

Lemma key_calls_expired (key : string) (now : Z) (P : list (string * QueItem)) :
  unique_keys P = true ->
  key_calls key (failures (expired_entries now P)) =
  match lookup key P with
  | Some q => if expired q now then [WaiterCalled key (onMessage q) failure] else []
  | None => []
  end.
Proof.
  intros Hu. unfold expired_entries.
  rewrite key_calls_failures, filter_filter_comm, entries_of_key by assumption.
  destruct (lookup key P) as [q|]; [|reflexivity].
  cbn [filter snd]. now destruct (expired q now).
Qed.

Lemma lookup_deleted (key : string) (now : Z) (l P : list (string * QueItem)) :
  lookup key
    (fold_left (fun P kq => if expired (snd kq) now then obj_delete (fst kq) P else P) l P) =
  if existsb (fun kq => expired (snd kq) now && String.eqb (fst kq) key) l
  then None else lookup key P.
Proof.
  revert P. induction l as [|[k q] l IH]; intros P; cbn [fold_left existsb fst snd].
  - reflexivity.
  - rewrite IH. destruct (expired q now); cbn [andb orb]; [|reflexivity].
    rewrite lookup_obj_delete, String.eqb_sym.
    destruct (String.eqb k key); cbn [orb]; [|reflexivity].
    now destruct (existsb _ l).
Qed.

Lemma existsb_expired_key (key : string) (now : Z) (P : list (string * QueItem)) :
  unique_keys P = true ->
  existsb (fun kq => expired (snd kq) now && String.eqb (fst kq) key) P =
  match lookup key P with Some q => expired q now | None => false end.
Proof.
  induction P as [|[k q] P IH]; [reflexivity|].
  cbn [unique_keys existsb lookup fst snd].
  destruct (lookup k P) eqn:Ek; [discriminate|]. intros Hu.
  rewrite String.eqb_sym.
  destruct (String.eqb_spec key k) as [->|Hne].
  - rewrite IH, Ek by assumption. now rewrite andb_true_r, orb_false_r.
  - rewrite andb_false_r. now apply IH.
Qed.

Lemma lookup_swept (key : string) (now : Z) (P : list (string * QueItem)) :
  unique_keys P = true ->
  lookup key (swept now P) =
  match lookup key P with
  | Some q => if expired q now then None else Some q
  | None => None
  end.
Proof.
  intros Hu. unfold swept. rewrite lookup_deleted, existsb_expired_key by assumption.
  destruct (lookup key P) as [q|]; [|reflexivity]. now destruct (expired q now).
Qed.

Lemma unique_keys_deleted (now : Z) (l P : list (string * QueItem)) :
  unique_keys P = true ->
  unique_keys
    (fold_left (fun P kq => if expired (snd kq) now then obj_delete (fst kq) P else P) l P)
  = true.
Proof.
  revert P. induction l as [|[k q] l IH]; intros P Hu; cbn [fold_left fst snd];
    [assumption|].
  apply IH. destruct (expired q now); [now apply unique_keys_obj_delete | assumption].
Qed.

(** The keys of the table stay distinct, whatever the turn. *)
Lemma step_unique_keys (e : Event) (w : World) :
  unique_keys (pendingRequests (this w)) = true ->
  unique_keys (pendingRequests (this (snd (step e w)))) = true.
Proof.
  intros Hu.
  destruct (step_waiter_move e w)
    as [H | ? ? ? ? ? _ _ _ H | ? ? ? ? _ _ _ H | ? ? ? ? _ _ _ H | ? ? ? _ H];
    unfold waiters in H; injection H as -> _.
  - assumption.
  - now apply unique_keys_obj_delete.
  - now apply unique_keys_deleted.
  - reflexivity.
  - now apply unique_keys_obj_set.
Qed.

(** What one turn does to a pending waiter whose key is not registered
    again in that turn. *)
Lemma step_key (key : string) (q : QueItem) (e : Event) (w : World) :
  unique_keys (pendingRequests (this w)) = true ->
  pending key w = Some q ->
  re_registers key e = false ->
  exists o, outcome_holds key q w (snd (step e w)) o /\
    match o with
    | Untouched => True
    | Matched v => exists sock data, e = EvMessage sock data /\ JSON_parse data = Some v
    | Failed =>
        (exists id now u t,
           e = EvTimer id now u /\ find_timer id w = Some t /\
           task t = QueSweep /\ expired q now = true) \/
        (exists sock code random s,
           e = EvClose sock code random /\ nth_error (sockets w) sock = Some s /\
           readyState s <> CLOSED)
    end.
Proof.
  intros Hu Hq Hreg. unfold pending in *.
  destruct (step_waiter_move e w)
    as [H | sock data v k q' He Hparse Hk H | id now u t He Hfind Htask H
        | sock code random s He Hs Hst H | m h now He H];
    unfold waiters in H; injection H as Hp Ht.
  - exists Untouched. cbn [outcome_holds]. unfold pending. rewrite Hp. split; [|exact I].
    split; [assumption|].
    rewrite (key_calls_of_waiters key w _ []); [now rewrite List.app_nil_r|].
    now rewrite List.app_nil_r.
  - destruct (String.eqb_spec key k) as [->|Hne].
    + rewrite Hk in Hq. injection Hq as ->.
      exists (Matched v). cbn [outcome_holds]. unfold pending. rewrite Hp. split.
      * split; [now rewrite lookup_obj_delete, String.eqb_refl|].
        rewrite (key_calls_of_waiters k w _ _ Ht).
        now rewrite key_calls_single, String.eqb_refl.
      * now exists sock, data.
    + exists Untouched. cbn [outcome_holds]. unfold pending. rewrite Hp. split; [|exact I].
      split.
      * rewrite lookup_obj_delete.
        destruct (String.eqb_spec key k) as [->|_]; [contradiction | assumption].
      * rewrite (key_calls_of_waiters key w _ _ Ht), key_calls_single.
        destruct (String.eqb_spec k key) as [->|_]; [contradiction|].
        now rewrite List.app_nil_r.
  - pose proof (lookup_swept key now _ Hu) as Hl. rewrite Hq in Hl.
    pose proof (key_calls_expired key now _ Hu) as Hc. rewrite Hq in Hc.
    destruct (expired q now) eqn:Eexp.
    + exists Failed. cbn [outcome_holds]. unfold pending. rewrite Hp, Hl.
      split; [split; [reflexivity|] | left; now exists id, now, u, t].
      rewrite (key_calls_of_waiters key w _ _ Ht), Hc. reflexivity.
    + exists Untouched. cbn [outcome_holds]. unfold pending. rewrite Hp, Hl.
      split; [|exact I]. split; [reflexivity|].
      rewrite (key_calls_of_waiters key w _ _ Ht), Hc. now rewrite List.app_nil_r.
  - pose proof (key_calls_failures_unique key _ Hu) as Hc. rewrite Hq in Hc.
    exists Failed. cbn [outcome_holds]. unfold pending. rewrite Hp.
    split; [split; [reflexivity|] | right; now exists sock, code, random, s].
    rewrite (key_calls_of_waiters key w _ _ Ht), Hc. reflexivity.
  - assert (Hne : String.eqb key (uuid m) = false).
    { rewrite String.eqb_sym. destruct He as [-> | [-> _]]; exact Hreg. }
    exists Untouched. cbn [outcome_holds]. unfold pending. rewrite Hp. split; [|exact I].
    split.
    + now rewrite lookup_obj_set, Hne.
    + rewrite (key_calls_of_waiters key w _ []); [now rewrite List.app_nil_r|].
      now rewrite List.app_nil_r.
Qed.

Lemma step_key_absent (key : string) (e : Event) (w : World) :
  unique_keys (pendingRequests (this w)) = true ->
  pending key w = None ->
  re_registers key e = false ->
  pending key (snd (step e w)) = None /\
  key_calls key (trace (snd (step e w))) = key_calls key (trace w).
Proof.
  intros Hu Hq Hreg. unfold pending in *.
  destruct (step_waiter_move e w)
    as [H | sock data v k q' He Hparse Hk H | id now u t He Hfind Htask H
        | sock code random s He Hs Hst H | m h now He H];
    unfold waiters in H; injection H as Hp Ht; rewrite Hp.
  - split; [assumption|].
    rewrite (key_calls_of_waiters key w _ []); now rewrite List.app_nil_r.
  - assert (Hne : String.eqb k key = false).
    { destruct (String.eqb_spec k key) as [->|]; [congruence | reflexivity]. }
    split.
    + rewrite lookup_obj_delete. now destruct (String.eqb key k).
    + rewrite (key_calls_of_waiters key w _ _ Ht), key_calls_single, Hne.
      now rewrite List.app_nil_r.
  - split.
    + now rewrite lookup_swept, Hq.
    + rewrite (key_calls_of_waiters key w _ _ Ht), key_calls_expired, Hq by assumption.
      now rewrite List.app_nil_r.
  - split; [reflexivity|].
    rewrite (key_calls_of_waiters key w _ _ Ht), key_calls_failures_unique, Hq by assumption.
    now rewrite List.app_nil_r.
  - assert (Hne : String.eqb key (uuid m) = false).
    { rewrite String.eqb_sym. destruct He as [-> | [-> _]]; exact Hreg. }
    split.
    + now rewrite lookup_obj_set, Hne.
    + rewrite (key_calls_of_waiters key w _ []); now rewrite List.app_nil_r.
Qed.

Lemma run_cons (e : Event) (es : list Event) (w : World) :
  run (e :: es) w = run es (snd (step e w)).
Proof. reflexivity. Qed.

Lemma run_app (es1 es2 : list Event) (w : World) :
  run (es1 ++ es2)%list w = run es2 (run es1 w).
Proof. unfold run. apply fold_left_app. Qed.

Lemma run_unique_keys (es : list Event) (w : World) :
  unique_keys (pendingRequests (this w)) = true ->
  unique_keys (pendingRequests (this (run es w))) = true.
Proof.
  revert w. induction es as [|e es IH]; intros w Hu; [assumption|].
  rewrite run_cons. now apply IH, step_unique_keys.
Qed.

Lemma run_key_absent (key : string) (es : list Event) (w : World) :
  unique_keys (pendingRequests (this w)) = true ->
  pending key w = None ->
  Forall (fun e => re_registers key e = false) es ->
  pending key (run es w) = None /\
  key_calls key (trace (run es w)) = key_calls key (trace w).
Proof.
  revert w. induction es as [|e es IH]; intros w Hu Hq Hes; [now split|].
  inversion Hes as [|? ? He Hes']; subst. rewrite run_cons.
  destruct (step_key_absent key e w Hu Hq He) as [Hq1 Hc1].
  destruct (IH _ (step_unique_keys e w Hu) Hq1 Hes') as [Hq2 Hc2].
  split; [assumption | congruence].
Qed.

(** Over any number of turns: the waiter is still pending and its handler
    was not called, or the entry is gone and its handler was called
    once. *)
Lemma run_key (key : string) (q : QueItem) (es : list Event) (w : World) :
  unique_keys (pendingRequests (this w)) = true ->
  pending key w = Some q ->
  Forall (fun e => re_registers key e = false) es ->
  (pending key (run es w) = Some q /\
   key_calls key (trace (run es w)) = key_calls key (trace w)) \/
  (pending key (run es w) = None /\
   exists r, key_calls key (trace (run es w)) =
             (key_calls key (trace w) ++ [WaiterCalled key (onMessage q) r])%list).
Proof.
  revert w. induction es as [|e es IH]; intros w Hu Hq Hes; [now left|].
  inversion Hes as [|? ? He Hes']; subst. rewrite run_cons.
  pose proof (step_unique_keys e w Hu) as Hu1.
  destruct (step_key key q e w Hu Hq He) as [[|v|] [Ho _]]; cbn [outcome_holds] in Ho;
    destruct Ho as [Hq1 Hc1].
  - destruct (IH _ Hu1 Hq1 Hes') as [[Hq2 Hc2] | [Hq2 [r Hc2]]].
    + left. split; [assumption | congruence].
    + right. split; [assumption|]. exists r. congruence.
  - destruct (run_key_absent key es _ Hu1 Hq1 Hes') as [Hq2 Hc2].
    right. split; [assumption|]. exists (mkResponse v true). congruence.
  - destruct (run_key_absent key es _ Hu1 Hq1 Hes') as [Hq2 Hc2].
    right. split; [assumption|]. exists failure. congruence.
Qed.

Lemma frame_key_fields (data key : string) :
  frame_key data = Some key ->
  exists v r, JSON_parse data = Some v /\ get_field v "route" = Some r /\
              r <> VString "PONG" /\ get_field v "uuid" = Some (VString key).
Proof.
  unfold frame_key. destruct (JSON_parse data) as [v|] eqn:Ev; [|discriminate].
  destruct (get_field v "route") as [r|] eqn:Er; [|discriminate].
  destruct (get_field v "uuid") as [[| |b|n|k|l|p|]|] eqn:Eu; try discriminate.
  destruct (is_PONG r) eqn:E; [discriminate|]. intros [= ->].
  exists v, r. split; [reflexivity|]. split; [assumption|]. split; [|assumption].
  intros ->. discriminate.
Qed.

(** A turn that resolves the waiter leaves it resolved. *)
Lemma step_resolves (key : string) (q : QueItem) (e : Event) (w : World) :
  unique_keys (pendingRequests (this w)) = true ->
  (pending key w = Some q \/ pending key w = None) ->
  resolves key q e w ->
  pending key (snd (step e w)) = None.
Proof.
  intros Hu Hq Hres. unfold pending in *. destruct e; cbn [resolves] in Hres; try contradiction.
  - (* frame *)
    destruct Hres as [(s & Hs & Hst) Hkey].
    destruct (frame_key_fields data key Hkey) as (v & r & Hparse & Hroute & Hr & Huuid).
    cbn [step]. rewrite Hs. destruct s as [u st b]. cbn [readyState] in Hst. subst st.
    rewrite (onmessage_frame w data v r (VString key) Hparse Hroute Hr Huuid). cbv zeta.
    set (w1 := match onMessageReceived (this w) with
               | Some cb => logged (PushReceived cb (mkResponse v true)) w
               | None => w
               end).
    assert (Hp1 : pendingRequests (this w1) = pendingRequests (this w))
      by (subst w1; destruct (onMessageReceived (this w)); reflexivity).
    cbn [Map_get key_string Map_delete].
    destruct (lookup key (pendingRequests (this w))) as [q'|] eqn:El.
    + rewrite snd_bind_unit by apply never_throws_invoke.
      pose proof (invoke_waiters key q' (mkResponse v true) w1) as Hi.
      unfold waiters in Hi. injection Hi as Hip _. unfold modify_this.
      cbn [snd this set_this pendingRequests set_pendingRequests].
      now rewrite Hip, Hp1, lookup_obj_delete, String.eqb_refl.
    + cbn [snd]. now rewrite Hp1.
  - (* close *)
    destruct Hres as (s & Hs & Hst). cbn [step]. rewrite Hs.
    destruct s as [u [| | |] b]; cbn [readyState] in Hst; try contradiction;
      rewrite snd_bind_unit by apply never_throws_set_readyState;
      exact (f_equal (fun p => lookup key (fst p))
               (onclose_waiters u b code random (snd (set_readyState sock CLOSED w)))).
  - (* sweep *)
    destruct Hres as (t & Ht & Htask & Hexp). cbn [step]. rewrite Ht, Htask.
    cbn [repeats run_task]. rewrite snd_bind_unit by apply never_throws_ret.
    pose proof (sweep_waiters now w) as H. unfold waiters in H. injection H as Hp _.
    cbn [ret snd]. rewrite Hp. fold (swept now (pendingRequests (this w))).
    rewrite lookup_swept by assumption.
    destruct Hq as [-> | ->]; [now rewrite Hexp | reflexivity].
Qed.

Lemma Forall_app_inv {A : Type} (P : A -> Prop) (l1 l2 : list A) :
  Forall P (l1 ++ l2)%list -> Forall P l1 /\ Forall P l2.
Proof. intros H. now apply Forall_app in H. Qed.

Lemma registration_pending (key : string) (q : QueItem) (e : Event) (w : World) :
  registration e w = Some (key, q) ->
  pending key (snd (step e w)) = Some q /\
  waiter_calls (trace (snd (step e w))) = waiter_calls (trace w).
Proof.
  unfold pending. destruct e; cbn [registration]; try discriminate.
  - intros [= <- <-]. cbn [step].
    rewrite snd_bind_unit_any by apply never_throws_onResponse.
    pose proof (onResponse_waiters request onReceivedAction now w) as H.
    unfold waiters in H. injection H as -> ->.
    now rewrite lookup_obj_set, String.eqb_refl.
  - destruct (is_open w) eqn:E; [|discriminate]. intros [= <- <-]. cbn [step].
    rewrite snd_bind_unit_any by apply never_throws_sendAndWait.
    pose proof (sendAndWait_waiters m now w) as H. rewrite E in H.
    unfold waiters in H. injection H as -> ->.
    now rewrite lookup_obj_set, String.eqb_refl.
Qed.

(** ** Exactly one resolution (C1) *)


(** ** A waiter registered while the transport is not open (C9) *)


(** ** Timers: what close and the close event stop (C2) *)

Lemma stop_both (w : World) :
  let w2 := snd (stopHeartbeat (snd (stopQueManager w))) in
  handles w2 = (None, None, None) /\
  manuallyClosed (this w2) = manuallyClosed (this w) /\
  sockets w2 = sockets w /\
  socket (this w2) = socket (this w) /\
  (forall t, In t (timers w2) <-> In t (timers w) /\ held (this w) (timer_id t) = false).
Proof.
  destruct w as [o socks tms nt ps tr]. destruct o.
  unfold stopHeartbeat, stopQueManager, bind, get_this, modify_this, clear_timer, ret,
    handles, held.
  cbn [this snd queManagerInterval heartbeatInterval heartbeatTimeout set_timers timers
       sockets next_timer promises trace set_this set_queManagerInterval
       set_heartbeatInterval set_heartbeatTimeout manuallyClosed socket name
       pendingRequests onMessageReceived onSocketConnectionChange reconnectAttempts
       requestTimeout queManagerTimeout maxReconnectAttempts heartbeatRate
       heartbeatTimeoutDuration enableQueManager globalHeaders existsb].
  destruct queManagerInterval0 as [a|], heartbeatInterval0 as [b|],
           heartbeatTimeout0 as [c|];
    cbn [this snd queManagerInterval heartbeatInterval heartbeatTimeout set_timers timers
         sockets next_timer promises trace set_this set_queManagerInterval
         set_heartbeatInterval set_heartbeatTimeout manuallyClosed socket name
         pendingRequests onMessageReceived onSocketConnectionChange reconnectAttempts
         requestTimeout queManagerTimeout maxReconnectAttempts heartbeatRate
         heartbeatTimeoutDuration enableQueManager globalHeaders];
    (do 4 (split; [reflexivity|]));
    intros t;
    rewrite ?filter_In, ?orb_false_r, ?orb_false_iff, ?negb_true_iff,
      ?(Nat.eqb_sym (timer_id t));
    tauto.
Qed.

Lemma socket_close_frame (w : World) :
  this (snd (socket_close w)) = this w /\
  timers (snd (socket_close w)) = timers w /\
  trace (snd (socket_close w)) = trace w.
Proof.
  unfold socket_close. destruct (socket (this w)); [|repeat split].
  destruct (option_map readyState (nth_error (sockets w) n)) as [[| | |]|]; repeat split.
Qed.

Lemma clockwork_emit e : keeps clockwork eq (emit e).
Proof. intros w. reflexivity. Qed.

Lemma clockwork_settle p o : keeps clockwork eq (settle p o).
Proof. intros w. reflexivity. Qed.

Ltac clockwork :=
  frames (@eq_refl ((option nat * option nat * option nat) * list Timer))
         (@eq_trans ((option nat * option nat * option nat) * list Timer))
         ltac:(first [ apply clockwork_emit | apply clockwork_settle
                     | (intros ?; reflexivity) ]).

Lemma clockwork_fail_entry kq : keeps clockwork eq (fail_entry kq).
Proof. unfold fail_entry, invoke. clockwork. Qed.

Lemma clockwork_notify b : keeps clockwork eq (notify b).
Proof. unfold notify. clockwork. Qed.

Lemma reconnect_policy_clockwork u q code random (w : World) :
  handles (snd (reconnect_policy u q code random w)) = handles w /\
  (timers (snd (reconnect_policy u q code random w)) = timers w \/
   timers (snd (reconnect_policy u q code random w)) =
     (timers w ++ [mkTimer (next_timer w) (Reconnect u q)
                     (reconnect_delay (reconnectAttempts (this w)) random)])%list).
Proof.
  unfold reconnect_policy. destruct (policy_close code); [split; [|left]; reflexivity|].
  rewrite bind_get_this.
  destruct (manuallyClosed (this w)); [split; [|left]; reflexivity|].
  destruct (reconnectAttempts (this w) <? maxReconnectAttempts (this w))%Z;
    (split; [reflexivity|]); [right | left]; reflexivity.
Qed.

Lemma onclose_clockwork u q code random (w : World) :
  let w3 := snd (onclose u q code random w) in
  handles w3 = (None, None, None) /\
  forall t, In t (timers w3) ->
            (In t (timers w) /\ held (this w) (timer_id t) = false) \/
            is_reconnect t = true.
Proof.
  unfold onclose.
  rewrite snd_bind_unit by apply never_throws_stopQueManager.
  rewrite snd_bind_unit by apply never_throws_stopHeartbeat.
  destruct (stop_both w) as (Hh & _ & _ & _ & Ht).
  set (w2 := snd (stopHeartbeat (snd (stopQueManager w)))) in *.
  rewrite bind_get_this.
  rewrite snd_bind_unit
    by (apply never_throws_forEach; apply never_throws_fail_entry).
  set (w3 := snd (forEach (pendingRequests (this w2)) fail_entry w2)).
  assert (H3 : clockwork w2 = clockwork w3).
  { apply (keeps_forEach clockwork eq (@eq_refl _) (@eq_trans _)).
    apply clockwork_fail_entry. }
  rewrite snd_bind_unit by apply never_throws_modify_this.
  rewrite snd_bind_unit by apply never_throws_notify.
  set (w4 := snd (modify_this (set_pendingRequests []) w3)).
  assert (H4 : clockwork w3 = clockwork w4) by reflexivity.
  set (w5 := snd (notify false w4)).
  assert (H5 : clockwork w4 = clockwork w5) by apply clockwork_notify.
  assert (H25 : clockwork w5 = clockwork w2) by (now rewrite <- H5, <- H4, <- H3).
  unfold clockwork in H25. apply pair_equal_spec in H25 as [Hh5 Ht5].
  destruct (reconnect_policy_clockwork u q code random w5) as [Hh6 Ht6].
  cbv zeta. split; [rewrite Hh6, Hh5; exact Hh|].
  intros t Hin. destruct Ht6 as [Ht6 | Ht6]; rewrite Ht6 in Hin.
  - left. apply Ht. now rewrite <- Ht5.
  - apply in_app_or in Hin as [Hin | [<- | []]]; [|now right].
    left. apply Ht. now rewrite <- Ht5.
Qed.


(** ** The reconnect delay (C5) *)

Lemma backoff_le_cap (a : Z) : (backoff a <= 15000)%Z.
Proof. unfold backoff. lia. Qed.

Lemma backoff_monotone (a b : Z) : (0 <= a <= b)%Z -> (backoff a <= backoff b)%Z.
Proof.
  intros H. unfold backoff.
  assert (2 ^ a <= 2 ^ b)%Z by (apply Z.pow_le_mono_r; lia). lia.
Qed.

(** Below the cap, one more failure adds at least a second. *)
Lemma backoff_grows (a b : Z) :
  (0 <= a < b)%Z -> (backoff a < 15000)%Z -> (backoff a + 1000 <= backoff b)%Z.
Proof.
  intros H Hcap. unfold backoff in *.
  assert (Ha : (a <= 3)%Z).
  { destruct (Z_le_gt_dec a 3) as [|Hgt]; [assumption|exfalso].
    assert (2 ^ 4 <= 2 ^ a)%Z by (apply Z.pow_le_mono_r; lia).
    change (2 ^ 4)%Z with 16%Z in *. lia. }
  assert (Hb : (2 ^ (a + 1) <= 2 ^ b)%Z) by (apply Z.pow_le_mono_r; lia).
  rewrite Z.pow_add_r in Hb by lia. change (2 ^ 1)%Z with 2%Z in Hb.
  assert (H0 : (1 <= 2 ^ a)%Z) by (apply (Z.pow_le_mono_r 2 0 a); lia).
  assert (H3 : (2 ^ a <= 2 ^ 3)%Z) by (apply Z.pow_le_mono_r; lia).
  change (2 ^ 3)%Z with 8%Z in H3. lia.
Qed.

Lemma jitter_range (random : Q) :
  (0 <= random)%Q -> (random < 1)%Q -> (0 <= jitter random)%Q /\ (jitter random < 300)%Q.
Proof. intros H0 H1. unfold jitter. split; lra. Qed.

Lemma reconnect_delay_grows (a b : Z) (r r' : Q) :
  (0 <= a < b)%Z -> (backoff a < 15000)%Z ->
  (0 <= r)%Q -> (r < 1)%Q -> (0 <= r')%Q -> (r' < 1)%Q ->
  (reconnect_delay a r < reconnect_delay b r')%Q.
Proof.
  intros Hab Hcap Hr0 Hr1 Hr0' Hr1'.
  pose proof (backoff_grows a b Hab Hcap) as Hg.
  rewrite Zle_Qle, inject_Z_plus in Hg.
  destruct (jitter_range r Hr0 Hr1) as [_ Hj].
  destruct (jitter_range r' Hr0' Hr1') as [Hj' _].
  unfold reconnect_delay.
  change (inject_Z 1000) with 1000%Q in Hg. lra.
Qed.

(** ** The wiring: what a turn does to transports and reconnects *)

Lemma filter_true {A : Type} (l : list A) : filter (fun _ => true) l = l.
Proof. induction l; cbn [filter]; congruence. Qed.

Lemma filter_filter_and {A : Type} (f g : A -> bool) (l : list A) :
  filter g (filter f l) = filter (fun x => f x && g x) l.
Proof.
  induction l as [|x l IH]; [reflexivity|]. cbn [filter].
  destruct (f x); cbn [filter andb]; [destruct (g x)|]; now rewrite IH.
Qed.

Lemma calm_rel_refl (x : Wiring) : calm_rel x x.
Proof. repeat split. exists (fun _ => true). now rewrite filter_true. Qed.

Lemma calm_rel_trans (x y z : Wiring) : calm_rel x y -> calm_rel y z -> calm_rel x z.
Proof.
  intros (H1 & H2 & H3 & H4 & p & Hp) (G1 & G2 & G3 & G4 & p' & Hp').
  repeat split; try congruence.
  exists (fun t => p t && p' t). now rewrite Hp', Hp, filter_filter_and.
Qed.

Lemma calm_same (m : M unit) :
  (forall w, wiring (snd (m w)) = wiring w) -> calm m.
Proof. intros H w. rewrite H. apply calm_rel_refl. Qed.

Lemma calm_emit e : calm (emit e).
Proof. intros w. apply calm_rel_refl. Qed.

Lemma calm_settle p o : calm (settle p o).
Proof. intros w. apply calm_rel_refl. Qed.

Lemma calm_new_Promise : calm new_Promise.
Proof. intros w. apply calm_rel_refl. Qed.

Lemma calm_clear_timer id : calm (clear_timer id).
Proof.
  intros w. repeat split.
  exists (fun t => negb (Nat.eqb (timer_id t) id)).
  unfold wiring, reconnect_timers, clear_timer. cbn [snd set_timers timers w_reconnects].
  apply filter_filter_comm.
Qed.

Lemma calm_set_timer t d : is_reconnect (mkTimer 0 t d) = false -> calm (set_timer t d).
Proof.
  intros Ht w. repeat split.
  exists (fun _ => true). rewrite filter_true.
  unfold wiring, reconnect_timers, set_timer. cbn [snd timers w_reconnects].
  rewrite filter_app. cbn [filter]. unfold is_reconnect in *. cbn [task] in *.
  rewrite Ht. now rewrite List.app_nil_r.
Qed.

Lemma calm_modify_this (f : ObservableSocket -> ObservableSocket) :
  (forall o, socket (f o) = socket o /\
             reconnectAttempts (f o) = reconnectAttempts o /\
             maxReconnectAttempts (f o) = maxReconnectAttempts o) ->
  calm (modify_this f).
Proof.
  intros H w. destruct (H (this w)) as (H1 & H2 & H3).
  unfold wiring, calm_rel, modify_this.
  cbn [snd set_this this w_states w_socket w_attempts w_max w_reconnects].
  repeat split; try assumption.
  exists (fun _ => true). now rewrite filter_true.
Qed.

Lemma calm_socket_send data : calm (socket_send data).
Proof.
  intros w. unfold socket_send. destruct (socket (this w)); [|apply calm_rel_refl].
  destruct (option_map readyState (nth_error (sockets w) n)) as [[| | |]|];
    apply calm_rel_refl.
Qed.

Ltac calm_leaf :=
  first
    [ apply calm_emit
    | apply calm_settle
    | apply calm_new_Promise
    | apply calm_clear_timer
    | apply calm_set_timer; reflexivity
    | apply calm_modify_this; intros ?; repeat split
    | apply calm_socket_send ].

Ltac calm := unfold calm; frames calm_rel_refl calm_rel_trans
                                 ltac:(fold (@calm unit); fold (@calm nat); calm_leaf).

Lemma calm_startHeartbeat : calm startHeartbeat.
Proof. unfold startHeartbeat. calm. Qed.

Lemma calm_startQueManager : calm startQueManager.
Proof. unfold startQueManager. calm. Qed.

Lemma calm_stopHeartbeat : calm stopHeartbeat.
Proof. unfold stopHeartbeat. calm. Qed.

Lemma calm_stopQueManager : calm stopQueManager.
Proof. unfold stopQueManager. calm. Qed.

Lemma calm_notify b : calm (notify b).
Proof. unfold notify. calm. Qed.

Lemma calm_invoke key q r : calm (invoke key q r).
Proof. unfold invoke. calm. Qed.

Lemma calm_sendMessage m : calm (sendMessage m).
Proof. unfold sendMessage, console_error. calm. Qed.

Lemma calm_onResponse m h now : calm (onResponse m h now).
Proof. unfold onResponse, sendMessage, console_error. calm. Qed.

Lemma calm_sendAndWait m now : calm (sendAndWait m now).
Proof. unfold sendAndWait, onResponse, sendMessage, console_error. calm. Qed.

Lemma calm_onmessage data : calm (onmessage data).
Proof.
  unfold onmessage, JSON_parse_or_throw, read_field, invoke, console_error. calm.
Qed.

Lemma calm_sweep now : calm (sweep now).
Proof. unfold sweep, sweep_entry, invoke. calm. Qed.

Lemma calm_heartbeat_tick u : calm (heartbeat_tick u).
Proof. unfold heartbeat_tick, sendMessage, console_error. calm. Qed.

Lemma calm_onerror : calm onerror.
Proof. unfold onerror, console_error. calm. Qed.

Lemma map_update_nth {A B : Type} (f : A -> B) (g : A -> A) (h : B -> B)
    (i : nat) (l : list A) :
  (forall x, f (g x) = h (f x)) ->
  map f (update_nth i g l) = update_nth i h (map f l).
Proof.
  intros H. revert i. induction l as [|x l IH]; intros [|i]; cbn [update_nth map];
    try reflexivity; [now rewrite H | now rewrite IH].
Qed.

Lemma update_nth_ext_at {A : Type} (f g : A -> A) (i : nat) (l : list A) :
  (forall x, nth_error l i = Some x -> f x = g x) ->
  update_nth i f l = update_nth i g l.
Proof.
  revert i. induction l as [|x l IH]; intros [|i] H; cbn [update_nth]; try reflexivity.
  - now rewrite (H x eq_refl).
  - f_equal. apply IH. intros y Hy. now apply H.
Qed.

Lemma update_nth_same {A : Type} (f : A -> A) (i : nat) (l : list A) :
  (forall x, nth_error l i = Some x -> f x = x) -> update_nth i f l = l.
Proof.
  revert i. induction l as [|x l IH]; intros [|i] H; cbn [update_nth]; try reflexivity.
  - now rewrite (H x eq_refl).
  - f_equal. apply IH. intros y Hy. now apply H.
Qed.

Lemma length_update_nth {A : Type} (f : A -> A) (i : nat) (l : list A) :
  List.length (update_nth i f l) = List.length l.
Proof.
  revert i. induction l as [|x l IH]; intros [|i]; cbn [update_nth List.length];
    try reflexivity. now rewrite IH.
Qed.

Lemma nth_error_update_nth {A : Type} (f : A -> A) (i j : nat) (l : list A) :
  nth_error (update_nth i f l) j =
  if Nat.eqb i j then option_map f (nth_error l j) else nth_error l j.
Proof.
  revert i j. induction l as [|x l IH]; intros [|i] [|j];
    cbn [update_nth nth_error Nat.eqb option_map]; try reflexivity.
  - now destruct (Nat.eqb i j).
  - apply IH.
Qed.

Lemma states_nth (w : World) (i : nat) :
  nth_error (states w) i = option_map readyState (nth_error (sockets w) i).
Proof. unfold states. now rewrite nth_error_map. Qed.

Lemma wiring_set_readyState (i : nat) (st : ReadyState) (w : World) :
  wiring (snd (set_readyState i st w)) =
  {| w_states := update_nth i (fun _ => st) (states w);
     w_socket := socket (this w);
     w_attempts := reconnectAttempts (this w);
     w_max := maxReconnectAttempts (this w);
     w_reconnects := reconnect_timers w |}.
Proof.
  unfold wiring, set_readyState, states. cbn [snd set_sockets sockets this].
  f_equal. now apply map_update_nth.
Qed.

Lemma wiring_socket_close (w : World) :
  wiring (snd (socket_close w)) =
  {| w_states := hang_up (states w) (socket (this w));
     w_socket := socket (this w);
     w_attempts := reconnectAttempts (this w);
     w_max := maxReconnectAttempts (this w);
     w_reconnects := reconnect_timers w |}.
Proof.
  unfold socket_close, hang_up. destruct (socket (this w)) as [i|] eqn:Es.
  2:{ unfold wiring. cbn [ret snd]. now rewrite Es. }
  pose proof (states_nth w i) as Hn.
  destruct (option_map readyState (nth_error (sockets w) i)) as [st|] eqn:E.
  - assert (Hup : update_nth i closing (states w) = update_nth i (fun _ => closing st) (states w)).
    { apply update_nth_ext_at. intros x Hx. rewrite Hn in Hx. now injection Hx as ->. }
    rewrite Hup. destruct st; cbn [closing].
    + rewrite wiring_set_readyState. now rewrite Es.
    + rewrite wiring_set_readyState. now rewrite Es.
    + unfold wiring. cbn [ret snd]. rewrite Es. f_equal. symmetry.
      apply update_nth_same. intros x Hx. rewrite Hn in Hx. now injection Hx as ->.
    + unfold wiring. cbn [ret snd]. rewrite Es. f_equal. symmetry.
      apply update_nth_same. intros x Hx. rewrite Hn in Hx. now injection Hx as ->.
  - unfold wiring. cbn [ret snd]. rewrite Es. f_equal. symmetry.
    apply update_nth_same. intros x Hx. rewrite Hn in Hx. discriminate.
Qed.

Lemma wiring_connect (u : string) (q : bool) (w : World) :
  wiring (snd (connect u q w)) =
  {| w_states := (states w ++ [CONNECTING])%list;
     w_socket := Some (List.length (states w));
     w_attempts := reconnectAttempts (this w);
     w_max := maxReconnectAttempts (this w);
     w_reconnects := reconnect_timers w |}.
Proof.
  unfold wiring, connect, bind, new_WebSocket, modify_this, states.
  cbn [snd set_this this sockets set_socket set_manuallyClosed socket reconnectAttempts
       maxReconnectAttempts].
  rewrite map_app, length_map. reflexivity.
Qed.

(** The end of [onclose]: a reconnect is scheduled exactly when the close
    code is no policy code, the session was not closed by hand and the
    budget is not used up; its delay is the backoff of the attempts made so
    far plus the jitter. *)
Lemma reconnect_policy_timers u q code random (w : World) :
  let w' := snd (reconnect_policy u q code random w) in
  this w' = this w /\ sockets w' = sockets w /\
  timers w' =
    if negb (policy_close code) && negb (manuallyClosed (this w))
       && (reconnectAttempts (this w) <? maxReconnectAttempts (this w))%Z
    then (timers w ++ [mkTimer (next_timer w) (Reconnect u q)
                         (reconnect_delay (reconnectAttempts (this w)) random)])%list
    else timers w.
Proof.
  unfold reconnect_policy. destruct (policy_close code); [repeat split|].
  rewrite bind_get_this.
  destruct (manuallyClosed (this w)); [repeat split|].
  destruct (reconnectAttempts (this w) <? maxReconnectAttempts (this w))%Z; repeat split.
Qed.

Lemma calm_onopen_tail (q : bool) :
  calm (startHeartbeat ;; (if q then startQueManager else ret tt)).
Proof. destruct q; unfold startHeartbeat, startQueManager; calm. Qed.

Lemma calm_onclose_head :
  calm (stopQueManager ;; stopHeartbeat ;;
        o <- get_this ;; forEach (pendingRequests o) fail_entry ;;
        modify_this (set_pendingRequests []) ;; notify false).
Proof.
  unfold stopQueManager, stopHeartbeat, fail_entry, invoke, notify. calm.
Qed.

Lemma calm_close_head :
  calm (modify_this (set_manuallyClosed true) ;; stopQueManager ;; stopHeartbeat).
Proof. unfold stopQueManager, stopHeartbeat. calm. Qed.

(** [onclose] and [close], cut where the wiring changes. *)
Lemma onclose_cut u q code random (w : World) :
  snd (onclose u q code random w) =
  snd (reconnect_policy u q code random
         (snd ((stopQueManager ;; stopHeartbeat ;;
                o <- get_this ;; forEach (pendingRequests o) fail_entry ;;
                modify_this (set_pendingRequests []) ;; notify false) w))).
Proof.
  unfold onclose.
  rewrite !snd_bind_unit by apply never_throws_stopQueManager.
  rewrite !snd_bind_unit by apply never_throws_stopHeartbeat.
  rewrite !bind_get_this.
  rewrite !snd_bind_unit by (apply never_throws_forEach; apply never_throws_fail_entry).
  rewrite !snd_bind_unit by apply never_throws_modify_this.
  rewrite snd_bind_unit by apply never_throws_notify.
  do 2 f_equal. symmetry.
  rewrite snd_bind_unit by apply never_throws_stopQueManager.
  rewrite snd_bind_unit by apply never_throws_stopHeartbeat.
  rewrite bind_get_this.
  rewrite snd_bind_unit by (apply never_throws_forEach; apply never_throws_fail_entry).
  now rewrite snd_bind_unit by apply never_throws_modify_this.
Qed.

Lemma close_cut (w : World) :
  snd (close w) =
  snd (socket_close
         (snd ((modify_this (set_manuallyClosed true) ;; stopQueManager ;; stopHeartbeat) w))).
Proof.
  unfold close.
  rewrite snd_bind_unit by apply never_throws_modify_this.
  rewrite snd_bind_unit by apply never_throws_stopQueManager.
  rewrite snd_bind_unit by apply never_throws_stopHeartbeat.
  do 2 f_equal. symmetry.
  rewrite snd_bind_unit by apply never_throws_modify_this.
  now rewrite snd_bind_unit by apply never_throws_stopQueManager.
Qed.

Lemma reconnect_timers_app (w : World) (t : Timer) :
  filter is_reconnect (timers w ++ [t])%list =
  (reconnect_timers w ++ if is_reconnect t then [t] else [])%list.
Proof. rewrite filter_app. cbn [filter]. now destruct (is_reconnect t). Qed.

(** Every turn moves the wiring in one of the five ways. *)
Lemma step_wiring_move (e : Event) (w : World) :
  wiring_move e (wiring w) (wiring (snd (step e w))).
Proof.
  destruct e as [sock | sock data | sock | sock code random | id now u
                 | m | m h now | m now | ]; cbn [step].
  - (* open *)
    destruct (nth_error (sockets w) sock) as [[url0 st q]|] eqn:Es;
      [|apply wm_calm, calm_rel_refl].
    destruct st; try (apply wm_calm, calm_rel_refl).
    rewrite snd_bind_unit by apply never_throws_set_readyState.
    unfold onopen.
    rewrite snd_bind_unit by apply never_throws_notify.
    rewrite snd_bind_unit by apply never_throws_modify_this.
    set (w1 := snd (set_readyState sock OPEN w)).
    set (w2 := snd (notify true w1)).
    set (w3 := snd (modify_this (set_reconnectAttempts 0%Z) w2)).
    pose proof (wiring_set_readyState sock OPEN w) as H1. fold w1 in H1.
    destruct (calm_notify true w1) as (Hs2 & Hk2 & Ha2 & Hm2 & p2 & Hp2). fold w2 in Hs2, Hk2, Ha2, Hm2, Hp2.
    destruct (calm_onopen_tail q w3) as (Hs4 & Hk4 & Ha4 & Hm4 & p4 & Hp4).
    rewrite H1 in Hs2, Hk2, Ha2, Hm2, Hp2. cbn [w_states w_socket w_attempts w_max w_reconnects] in *.
    apply (wm_open _ _ _ sock eq_refl).
    + cbn [wiring w_states]. rewrite states_nth, Es. reflexivity.
    + rewrite Hs4. exact Hs2.
    + rewrite Hk4. exact Hk2.
    + rewrite Ha4. reflexivity.
    + rewrite Hm4. exact Hm2.
    + exists (fun t => p2 t && p4 t). rewrite Hp4.
      change (w_reconnects (wiring w3)) with (w_reconnects (wiring w2)).
      rewrite Hp2. apply filter_filter_and.
  - (* message *)
    destruct (nth_error (sockets w) sock) as [[url0 [| | |] q]|];
      try (apply wm_calm, calm_rel_refl).
    apply wm_calm, calm_onmessage.
  - (* error *)
    destruct (nth_error (sockets w) sock) as [[url0 [| | |] q]|];
      try (apply wm_calm, calm_rel_refl); apply wm_calm, calm_onerror.
  - (* close *)
    destruct (nth_error (sockets w) sock) as [[url0 st q]|] eqn:Es;
      [|apply wm_calm, calm_rel_refl].
    assert (Hlive : st = CLOSED \/ st <> CLOSED)
      by (destruct st; (now left) || (right; discriminate)).
    destruct Hlive as [-> | Hlive]; [apply wm_calm, calm_rel_refl|].
    replace (snd (match st with
                  | CLOSED => ret tt w
                  | _ => (set_readyState sock CLOSED ;; onclose url0 q code random) w
                  end))
      with (snd (onclose url0 q code random (snd (set_readyState sock CLOSED w))))
      by (destruct st; try contradiction;
          now rewrite snd_bind_unit by apply never_throws_set_readyState).
    rewrite onclose_cut.
    set (w1 := snd (set_readyState sock CLOSED w)).
    pose proof (wiring_set_readyState sock CLOSED w) as H1. fold w1 in H1.
    destruct (calm_onclose_head w1) as (Hs2 & Hk2 & Ha2 & Hm2 & p2 & Hp2).
    set (w2 := snd (_ w1)) in *.
    rewrite H1 in Hs2, Hk2, Ha2, Hm2, Hp2.
    cbn [w_states w_socket w_attempts w_max w_reconnects] in Hs2, Hk2, Ha2, Hm2, Hp2.
    destruct (reconnect_policy_timers url0 q code random w2) as (Hthis & Hsock & Htim).
    set (w3 := snd (reconnect_policy url0 q code random w2)) in *.
    apply (wm_close _ _ _ sock code random st eq_refl).
    + cbn [wiring w_states]. rewrite states_nth, Es. reflexivity.
    + assumption.
    + cbn [wiring w_states] in *. unfold states in *. now rewrite Hsock.
    + cbn [wiring w_socket] in *. now rewrite Hthis.
    + cbn [wiring w_attempts] in *. now rewrite Hthis.
    + cbn [wiring w_max] in *. now rewrite Hthis.
    + exists p2. cbn [wiring w_reconnects w_attempts w_max] in *.
      unfold reconnect_timers at 1 3. rewrite Htim.
      destruct (negb (policy_close code) && negb (manuallyClosed (this w2))
                && (reconnectAttempts (this w2) <? maxReconnectAttempts (this w2))%Z)
        eqn:Esched.
      * right. eexists. rewrite reconnect_timers_app. cbn [is_reconnect task].
        rewrite Hp2. split; [reflexivity|]. cbn [delay]. rewrite Ha2.
        split; [reflexivity|].
        apply andb_prop in Esched as [_ Hlt]. apply Z.ltb_lt in Hlt.
        now rewrite Ha2, Hm2 in Hlt.
      * left. exact Hp2.
  - (* timer *)
    destruct (find_timer id w) as [t|] eqn:Et; [|apply wm_calm, calm_rel_refl].
    assert (Hc : never_throws (if repeats (task t) then ret tt else clear_timer id))
      by (destruct (repeats (task t)); auto with nothrow).
    rewrite snd_bind_unit by exact Hc.
    set (w1 := snd ((if repeats (task t) then ret tt else clear_timer id) w)).
    assert (H1 : calm_rel (wiring w) (wiring w1)).
    { subst w1. destruct (repeats (task t)); [apply calm_rel_refl | apply calm_clear_timer]. }
    destruct (task t) as [| | |socketUrl q] eqn:Etask; cbn [run_task].
    + apply wm_calm. eapply calm_rel_trans; [exact H1 | apply calm_heartbeat_tick].
    + unfold heartbeat_timeout. rewrite snd_bind_unit by apply never_throws_console_warn.
      set (w2 := snd (console_warn _ w1)).
      assert (H2 : calm_rel (wiring w) (wiring w2)).
      { eapply calm_rel_trans; [exact H1 | apply calm_emit]. }
      destruct H2 as (Hs2 & Hk2 & Ha2 & Hm2 & p2 & Hp2).
      rewrite wiring_socket_close.
      cbn [wiring w_states w_socket w_attempts w_max w_reconnects] in *.
      apply wm_hang_up; cbn [w_states w_socket w_attempts w_max w_reconnects];
        try assumption.
      * right. now exists id, now, u.
      * now rewrite Hs2, Hk2.
      * now exists p2.
    + apply wm_calm. eapply calm_rel_trans; [exact H1 | apply calm_sweep].
    + subst w1. cbn [repeats]. unfold reconnect.
      rewrite snd_bind_unit by apply never_throws_modify_this.
      rewrite wiring_connect.
      unfold find_timer in Et. apply find_some in Et as [Hin Hid].
      apply Nat.eqb_eq in Hid.
      apply (wm_reconnect _ _ _ id now u t eq_refl);
        cbn [wiring w_states w_socket w_attempts w_max w_reconnects];
        try reflexivity; try assumption.
      * unfold reconnect_timers. apply filter_In. split; [assumption|].
        unfold is_reconnect. now rewrite Etask.
      * unfold reconnect_timers, clear_timer, modify_this.
        cbn [snd set_timers set_this timers]. apply filter_filter_comm.
  - (* sendMessage *)
    apply wm_calm. rewrite snd_bind_unit_any by apply never_throws_sendMessage.
    apply calm_sendMessage.
  - (* onResponse *)
    apply wm_calm. rewrite snd_bind_unit_any by apply never_throws_onResponse.
    apply calm_onResponse.
  - (* sendAndWait *)
    apply wm_calm. rewrite snd_bind_unit_any by apply never_throws_sendAndWait.
    apply calm_sendAndWait.
  - (* close *)
    rewrite close_cut.
    destruct (calm_close_head w) as (Hs2 & Hk2 & Ha2 & Hm2 & p2 & Hp2).
    set (w2 := snd (_ w)) in *.
    rewrite wiring_socket_close.
    cbn [wiring w_states w_socket w_attempts w_max w_reconnects] in *.
    apply wm_hang_up; cbn [w_states w_socket w_attempts w_max w_reconnects];
      try assumption.
    + now left.
    + now rewrite Hs2, Hk2.
    + now exists p2.
Qed.

Lemma filter_nil_or_single {A : Type} (p : A -> bool) (l : list A) :
  (l = [] \/ exists t, l = [t]) ->
  filter p l = [] \/ (filter p l = l /\ exists t, l = [t]).
Proof.
  intros [-> | [t ->]]; [now left|]. cbn [filter].
  destruct (p t); [right; split; [reflexivity | now exists t] | now left].
Qed.

Lemma Forall_update_nth {A : Type} (P : A -> Prop) (f : A -> A) (i : nat) (l : list A) :
  Forall P l -> (forall x, P x -> P (f x)) -> Forall P (update_nth i f l).
Proof.
  intros H Hf. revert i. induction H as [|x l Hx Hl IH]; intros [|i]; cbn [update_nth];
    constructor; auto.
Qed.

(** The invariant of the reconnect policy holds after every turn. *)
Lemma wired_move (e : Event) (x y : Wiring) :
  wired x -> wiring_move e x y -> wired y.
Proof.
  intros (Hatt & Hlive & Hrec) Hmove.
  destruct Hmove
    as [(Hs & Hk & Ha & Hm & p & Hp)
       | sock He Hst Hs Hk Ha Hm [p Hp]
       | sock code random st He Hst Hne Hs Hk Ha Hm [p Hp]
       | He Hs Hk Ha Hm [p Hp]
       | id now u t He Hin Hid Hs Hk Ha Hm Hp].
  - (* calm *)
    unfold wired. rewrite Hs, Hk, Ha, Hm, Hp. split; [assumption|]. split; [assumption|].
    destruct Hrec as [Hr | (Hr & Hall & Hlt)].
    + left. now rewrite Hr.
    + destruct (filter_nil_or_single p (w_reconnects x) (or_intror Hr)) as [H | [H Ht]];
        [now left | right; now rewrite H].
  - (* open *)
    assert (Hr : w_reconnects x = []).
    { destruct Hrec as [Hr | (_ & Hall & _)]; [assumption|exfalso].
      rewrite Forall_forall in Hall.
      apply nth_error_In in Hst. apply Hall in Hst. discriminate. }
    unfold wired. rewrite Hs, Hk, Ha, Hm, Hp, Hr. split; [lia|]. split; [|now left].
    intros i st. rewrite nth_error_update_nth.
    destruct (Nat.eqb_spec sock i) as [->|Hne].
    + intros _ _. apply (Hlive i CONNECTING Hst). discriminate.
    + apply Hlive.
  - (* close *)
    assert (Hr : w_reconnects x = []).
    { destruct Hrec as [Hr | (_ & Hall & _)]; [assumption|exfalso].
      rewrite Forall_forall in Hall.
      apply nth_error_In in Hst. apply Hall in Hst. contradiction. }
    assert (Hall : Forall (fun s => s = CLOSED) (w_states y)).
    { rewrite Hs. apply Forall_forall. intros s Hin.
      apply In_nth_error in Hin as [i Hi]. rewrite nth_error_update_nth in Hi.
      destruct (Nat.eqb_spec sock i) as [->|Hneq].
      - rewrite Hst in Hi. now injection Hi as <-.
      - destruct s; try reflexivity; exfalso;
          pose proof (Hlive sock st Hst Hne) as H1;
          (assert (H2 : w_socket x = Some i) by (apply (Hlive i _ Hi); discriminate));
          congruence. }
    unfold wired. rewrite Hk, Ha, Hm. split; [assumption|]. split.
    + intros i s Hi Hs'. rewrite Forall_forall in Hall.
      apply nth_error_In in Hi. apply Hall in Hi. contradiction.
    + rewrite Hr in Hp. cbn [filter List.app] in Hp.
      destruct Hp as [Hp | (t & Hp & _ & Hlt)]; [now left|].
      right. split; [now exists t|]. split; assumption.
  - (* the transport is asked to close *)
    unfold wired. rewrite Hk, Ha, Hm, Hp, Hs. split; [assumption|]. split.
    + intros i st. unfold hang_up. destruct (w_socket x) as [j|] eqn:Ej; [|apply Hlive].
      rewrite nth_error_update_nth.
      destruct (Nat.eqb_spec j i) as [->|Hneq]; [|apply Hlive].
      destruct (nth_error (w_states x) i) as [st'|] eqn:Ei; cbn [option_map];
        [|discriminate].
      intros [= <-] Hc. reflexivity.
    + destruct Hrec as [Hr | (Hr & Hall & Hlt)].
      * left. now rewrite Hr.
      * destruct (filter_nil_or_single p (w_reconnects x) (or_intror Hr)) as [H | [H Ht]];
          [now left | right; rewrite H].
        split; [assumption|]. split; [|assumption].
        unfold hang_up. destruct (w_socket x); [|assumption].
        apply Forall_update_nth; [assumption | now intros ? ->].
  - (* reconnect *)
    destruct Hrec as [Hr | ([t' Hr] & Hall & Hlt)]; [rewrite Hr in Hin; contradiction|].
    rewrite Hr in Hin. destruct Hin as [-> | []].
    unfold wired. rewrite Hs, Hk, Ha, Hm, Hp, Hr. split; [lia|]. split.
    + intros i st Hi Hst. f_equal.
      destruct (Nat.lt_ge_cases i (List.length (w_states x))) as [Hlt'|Hge].
      * rewrite nth_error_app1 in Hi by assumption.
        rewrite Forall_forall in Hall. apply nth_error_In in Hi. apply Hall in Hi.
        contradiction.
      * rewrite nth_error_app2 in Hi by assumption.
        destruct (i - List.length (w_states x)) as [|k] eqn:Ek.
        -- lia.
        -- cbn [nth_error] in Hi. now destruct k.
    + left. cbn [filter]. now rewrite Hid, Nat.eqb_refl.
Qed.

Lemma step_wired (e : Event) (w : World) :
  wired (wiring w) -> wired (wiring (snd (step e w))).
Proof. intros H. exact (wired_move e _ _ H (step_wiring_move e w)). Qed.

Lemma run_wired (es : list Event) (w : World) :
  wired (wiring w) -> wired (wiring (run es w)).
Proof.
  revert w. induction es as [|e es IH]; intros w H; [assumption|].
  rewrite run_cons. now apply IH, step_wired.
Qed.

Lemma new_wired name0 socketUrl cb1 cb2 userConfig :
  wired (wiring (new_ObservableSocket name0 socketUrl cb1 cb2 userConfig)).
Proof.
  unfold new_ObservableSocket. rewrite wiring_connect.
  unfold wired. cbn [w_states w_socket w_attempts w_max w_reconnects states sockets this
                     reconnectAttempts map List.app List.length].
  split; [lia|]. split; [|now left].
  intros [|[|i]] st; cbn [nth_error]; intros [=] _. reflexivity.
Qed.

(** Once the budget is used up, a turn that is no open event schedules no
    reconnect, opens no transport and leaves the count of attempts. *)
Lemma exhausted_move (e : Event) (x y : Wiring) :
  wired x -> (w_max x <= w_attempts x)%Z -> is_open_event e = false ->
  wiring_move e x y ->
  w_reconnects y = [] /\ w_attempts y = w_attempts x /\ w_max y = w_max x /\
  List.length (w_states y) = List.length (w_states x).
Proof.
  intros (Hatt & Hlive & Hrec) Hex Hopen Hmove.
  assert (Hr : w_reconnects x = []).
  { destruct Hrec as [Hr | (_ & _ & Hlt)]; [assumption | lia]. }
  destruct Hmove
    as [(Hs & Hk & Ha & Hm & p & Hp)
       | sock He Hst Hs Hk Ha Hm [p Hp]
       | sock code random st He Hst Hne Hs Hk Ha Hm [p Hp]
       | He Hs Hk Ha Hm [p Hp]
       | id now u t He Hin Hid Hs Hk Ha Hm Hp].
  - rewrite Hp, Hr, Hs. repeat split; assumption.
  - subst e. discriminate.
  - rewrite Hr in Hp. cbn [filter List.app] in Hp.
    destruct Hp as [Hp | (t & _ & _ & Hlt)]; [|lia].
    rewrite Hs, length_update_nth. repeat split; assumption.
  - rewrite Hp, Hr, Hs. repeat split; try assumption.
    unfold hang_up. destruct (w_socket x); [apply length_update_nth | reflexivity].
  - rewrite Hr in Hin. contradiction.
Qed.

Lemma run_exhausted (es : list Event) (w : World) :
  wired (wiring w) ->
  (maxReconnectAttempts (this w) <= reconnectAttempts (this w))%Z ->
  Forall (fun e => is_open_event e = false) es ->
  reconnect_timers w = [] /\
  reconnect_timers (run es w) = [] /\
  reconnectAttempts (this (run es w)) = reconnectAttempts (this w) /\
  List.length (sockets (run es w)) = List.length (sockets w).
Proof.
  intros Hw Hex Hes.
  assert (H0 : reconnect_timers w = []).
  { destruct Hw as (_ & _ & [Hr | (_ & _ & Hlt)]); [exact Hr|].
    cbn [wiring w_attempts w_max] in Hlt. lia. }
  split; [assumption|].
  revert w Hw Hex H0. induction Hes as [|e es He Hes IH]; intros w Hw Hex H0.
  - repeat split; assumption.
  - rewrite run_cons.
    destruct (exhausted_move e _ _ Hw Hex He (step_wiring_move e w))
      as (Hr & Ha & Hm & Hl).
    cbn [wiring w_reconnects w_attempts w_max w_states] in Hr, Ha, Hm, Hl.
    unfold states in Hl. rewrite !length_map in Hl.
    destruct (IH _ (step_wired e w Hw)) as (Hr' & Ha' & Hl'); [lia | assumption |].
    repeat split; congruence.
Qed.


(** ** A session that is closed for good *)

Lemma still_rel_refl (x : list WebSocket * list Timer) : still_rel x x.
Proof. now split. Qed.

Lemma still_rel_trans (x y z : list WebSocket * list Timer) :
  still_rel x y -> still_rel y z -> still_rel x z.
Proof. intros [H1 H2] [G1 G2]. split; [congruence | auto]. Qed.

Lemma still_clear_timer id : keeps plant still_rel (clear_timer id).
Proof.
  intros w. split; [reflexivity|]. unfold plant, clear_timer.
  cbn [snd set_timers timers]. now intros ->.
Qed.

Lemma still_close_head :
  keeps plant still_rel
    (modify_this (set_manuallyClosed true) ;; stopQueManager ;; stopHeartbeat).
Proof.
  unfold stopQueManager, stopHeartbeat.
  frames still_rel_refl still_rel_trans
         ltac:(first [ apply still_clear_timer | (intros ?; apply still_rel_refl) ]).
Qed.

Lemma dead_not_open (w : World) : dead w -> is_open w = false.
Proof.
  intros [Hall _]. unfold is_open, socket_readyState.
  destruct (socket (this w)) as [i|]; [|reflexivity].
  destruct (nth_error (sockets w) i) as [s|] eqn:E; [|reflexivity].
  rewrite Forall_forall in Hall. apply nth_error_In in E. apply Hall in E.
  cbn [option_map]. now rewrite E.
Qed.

Lemma dead_socket (w : World) (i : nat) (s : WebSocket) :
  dead w -> nth_error (sockets w) i = Some s -> readyState s = CLOSED.
Proof.
  intros [Hall _] E. rewrite Forall_forall in Hall. apply nth_error_In in E. now apply Hall.
Qed.

(** In such a world a turn calls no handler, and the world stays such. *)
Lemma dead_step (e : Event) (w : World) :
  dead w ->
  dead (snd (step e w)) /\
  waiter_calls (trace (snd (step e w))) = waiter_calls (trace w).
Proof.
  intros Hd. pose proof (dead_not_open w Hd) as Hopen.
  destruct e as [sock | sock data | sock | sock code random | id now u
                 | m | m h now | m now | ]; cbn [step].
  - destruct (nth_error (sockets w) sock) as [[u st q]|] eqn:E; [|now split].
    apply (dead_socket w sock _ Hd) in E. cbn [readyState] in E. subst st. now split.
  - destruct (nth_error (sockets w) sock) as [[u st q]|] eqn:E; [|now split].
    apply (dead_socket w sock _ Hd) in E. cbn [readyState] in E. subst st. now split.
  - destruct (nth_error (sockets w) sock) as [[u st q]|] eqn:E; [|now split].
    apply (dead_socket w sock _ Hd) in E. cbn [readyState] in E. subst st. now split.
  - destruct (nth_error (sockets w) sock) as [[u st q]|] eqn:E; [|now split].
    apply (dead_socket w sock _ Hd) in E. cbn [readyState] in E. subst st. now split.
  - unfold find_timer. destruct Hd as [Hall Ht]. rewrite Ht. cbn [find]. now split.
  - rewrite snd_bind_unit_any by apply never_throws_sendMessage.
    rewrite (sendMessage_not_open m w Hopen). split; [exact Hd|].
    cbn [snd logged trace]. rewrite waiter_calls_app. apply List.app_nil_r.
  - rewrite snd_bind_unit_any by apply never_throws_onResponse.
    rewrite (onResponse_not_open m h now w Hopen). split; [exact Hd|].
    cbn [snd logged with_waiter set_this trace]. rewrite waiter_calls_app.
    apply List.app_nil_r.
  - rewrite snd_bind_unit_any by apply never_throws_sendAndWait.
    rewrite (sendAndWait_not_open m now w Hopen). now split.
  - split.
    + rewrite close_cut. destruct (still_close_head w) as [Hs Ht].
      set (w2 := snd (_ w)) in *. cbn [plant fst snd] in Hs, Ht.
      assert (Hd2 : dead w2).
      { destruct Hd as [Hall Htim]. split; [now rewrite Hs | auto]. }
      unfold socket_close. destruct (socket (this w2)) as [i|]; [|exact Hd2].
      destruct (nth_error (sockets w2) i) as [s|] eqn:E; [|exact Hd2].
      cbn [option_map]. rewrite (dead_socket w2 i s Hd2 E). exact Hd2.
    + pose proof (quiet_close w) as H. unfold waiters in H.
      apply pair_equal_spec in H as [_ H]. now symmetry.
Qed.

Lemma dead_run (es : list Event) (w : World) :
  dead w -> waiter_calls (trace (run es w)) = waiter_calls (trace w).
Proof.
  revert w. induction es as [|e es IH]; intros w Hd; [reflexivity|].
  rewrite run_cons. destruct (dead_step e w Hd) as [Hd' Hc]. now rewrite IH.
Qed.


(** ** Concrete runs: instances of the theorems, and failing inputs *)




(** C3: the code at the failing input.  The connection is lost and a
    reconnect is scheduled; [close()] is called while it is pending; when
    the reconnect timer fires, a new transport is opened and
    [manuallyClosed] is cleared again. *)
Lemma reconnect_after_manual_close :
  let w1 := run (lost_connection ++ [CallClose]) fresh_world in
  let w2 := run [EvTimer 2 0 "unused"] w1 in
  manuallyClosed (this w1) = true /\
  states w1 = [CLOSED] /\
  map task (timers w1) = [Reconnect example_url false] /\
  states w2 = [CLOSED; CONNECTING] /\
  socket (this w2) = Some 1 /\
  manuallyClosed (this w2) = false /\
  trace w2 = (trace w1 ++ [NewWebSocket example_url])%list.
Proof.
  cbv zeta. do 6 (split; [vm_compute; reflexivity|]). vm_compute; reflexivity.
Qed.






(** ** The settings of a session *)

(** Leaves of a method that leave an observation as it is, by computation. *)
Ltac same_leaf :=
  intros ?w; unfold socket_send, socket_close, set_readyState, settle, emit,
    modify_this, set_timer, clear_timer, new_WebSocket, new_Promise, ret, throw;
  repeat match goal with
         | |- context [match ?x with _ => _ end] => destruct x
         end;
  reflexivity.

Ltac steady :=
  frames (@eq_refl (string * Z * Z * Z * Z * Z * bool * list (string * value)
                    * option Callback * option Callback))
         (@eq_trans (string * Z * Z * Z * Z * Z * bool * list (string * value)
                     * option Callback * option Callback))
         same_leaf.

Lemma steady_onopen q i st : keeps settings eq (set_readyState i st ;; onopen q).
Proof.
  unfold onopen, notify, startHeartbeat, startQueManager. steady.
Qed.

Lemma steady_onmessage data : keeps settings eq (onmessage data).
Proof.
  unfold onmessage, JSON_parse_or_throw, read_field, invoke, console_error. steady.
Qed.

Lemma steady_sendMessage m : keeps settings eq (sendMessage m).
Proof. unfold sendMessage, console_error. steady. Qed.

Lemma steady_onResponse m h now : keeps settings eq (onResponse m h now).
Proof. unfold onResponse, sendMessage, console_error. steady. Qed.

Lemma steady_sendAndWait m now : keeps settings eq (sendAndWait m now).
Proof. unfold sendAndWait, onResponse, sendMessage, console_error. steady. Qed.

Lemma steady_close : keeps settings eq close.
Proof. unfold close, stopQueManager, stopHeartbeat. steady. Qed.

Lemma steady_onclose u q code random i :
  keeps settings eq (set_readyState i CLOSED ;; onclose u q code random).
Proof.
  unfold onclose, stopQueManager, stopHeartbeat, fail_entry, invoke, notify,
    reconnect_policy, console_error.
  steady.
Qed.

Lemma steady_timer (b : bool) id t now u :
  keeps settings eq ((if b then ret tt else clear_timer id) ;; run_task t now u).
Proof.
  destruct t; cbn [run_task];
    unfold heartbeat_tick, heartbeat_timeout, sweep, sweep_entry, reconnect, connect,
      invoke, sendMessage, console_error, console_warn;
    steady.
Qed.

Lemma steady_step (e : Event) : keeps settings eq (step e).
Proof.
  intros w.
  destruct e as [sock | sock data | sock | sock code random | id now u
                 | m | m h now | m now | ]; cbn [step].
  - destruct (nth_error (sockets w) sock) as [[url0 [| | |] q]|]; try reflexivity.
    apply steady_onopen.
  - destruct (nth_error (sockets w) sock) as [[url0 [| | |] q]|]; try reflexivity.
    apply steady_onmessage.
  - destruct (nth_error (sockets w) sock) as [[url0 [| | |] q]|]; reflexivity.
  - destruct (nth_error (sockets w) sock) as [[url0 [| | |] q]|]; try reflexivity;
      apply steady_onclose.
  - destruct (find_timer id w) as [t|]; [|reflexivity]. apply steady_timer.
  - rewrite snd_bind_unit_any by apply never_throws_sendMessage. apply steady_sendMessage.
  - rewrite snd_bind_unit_any by apply never_throws_onResponse. apply steady_onResponse.
  - rewrite snd_bind_unit_any by apply never_throws_sendAndWait. apply steady_sendAndWait.
  - apply steady_close.
Qed.

Lemma steady_run (es : list Event) (w : World) : settings (run es w) = settings w.
Proof.
  revert w. induction es as [|e es IH]; intros w; [reflexivity|].
  rewrite run_cons, IH. symmetry. apply steady_step.
Qed.

Lemma clamp_requestTimeout_spec (t : Z) :
  clamp_requestTimeout t = Z.max MIN_QUE_TIMEOUT (Z.min MAX_TIMEOUT t).
Proof.
  unfold clamp_requestTimeout, MAX_TIMEOUT, MIN_QUE_TIMEOUT.
  destruct (Z.gtb_spec t 1800000); [lia|].
  destruct (Z.ltb_spec t 2000); lia.
Qed.


(** ** One live transport, one pending reconnect *)

Lemma length_le_1 {A : Type} (l : list A) :
  l = [] \/ (exists t, l = [t]) -> (List.length l <= 1)%nat.
Proof. intros [-> | [t ->]]; cbn; lia. Qed.

(** X2.  At any time in the life of a session: a transport that is not
    closed is the current one ([this.socket]); at most one reconnect is
    scheduled, and only while every transport is closed and the attempts are
    below the maximum; the attempt count is not negative. *)
Theorem one_live_transport
    (name0 socketUrl : string) (cb1 cb2 : option Callback)
    (userConfig : option Config.Partial) (es : list Event) :
  let w := run es (new_ObservableSocket name0 socketUrl cb1 cb2 userConfig) in
  (forall i s, nth_error (sockets w) i = Some s -> readyState s <> CLOSED ->
               socket (this w) = Some i) /\
  (List.length (reconnect_timers w) <= 1)%nat /\
  (reconnect_timers w <> [] ->
   Forall (fun s => readyState s = CLOSED) (sockets w) /\
   (reconnectAttempts (this w) < maxReconnectAttempts (this w))%Z) /\
  (0 <= reconnectAttempts (this w))%Z.
Proof.
  intros w.
  pose proof (run_wired es _ (new_wired name0 socketUrl cb1 cb2 userConfig)) as H.
  fold w in H. destruct H as (Hpos & Hlive & Hrec).
  cbn [wiring w_states w_socket w_attempts w_max w_reconnects] in *.
  split; [|split; [|split]].
  - intros i s Hs Hst. apply (Hlive i (readyState s)); [|assumption].
    now rewrite states_nth, Hs.
  - apply length_le_1. destruct Hrec as [-> | [Ht _]]; auto.
  - intros Hne. destruct Hrec as [H | (_ & Hall & Hlt)]; [contradiction|].
    split; [|assumption]. unfold states in Hall. rewrite Forall_map in Hall. exact Hall.
  - assumption.
Qed.

Lemma one_live_transport_witness :
  nth_error
    (sockets (run [EvOpen 0] (new_ObservableSocket "app" example_url (Some 1) (Some 2) None)))
    0 = Some (mkWebSocket example_url OPEN false) /\
  OPEN <> CLOSED /\
  socket
    (this (run [EvOpen 0] (new_ObservableSocket "app" example_url (Some 1) (Some 2) None)))
  = Some 0 /\
  reconnect_timers
    (run lost_connection (new_ObservableSocket "app" example_url (Some 1) (Some 2) None))
  <> [] /\
  Forall (fun s => readyState s = CLOSED)
    (sockets
       (run lost_connection (new_ObservableSocket "app" example_url (Some 1) (Some 2) None))).
Proof.
  assert (H1 : nth_error
                 (sockets (run [EvOpen 0]
                             (new_ObservableSocket "app" example_url (Some 1) (Some 2) None)))
                 0 = Some (mkWebSocket example_url OPEN false))
    by (vm_compute; reflexivity).
  assert (H2 : readyState (mkWebSocket example_url OPEN false) <> CLOSED) by discriminate.
  assert (H3 : reconnect_timers
                 (run lost_connection
                    (new_ObservableSocket "app" example_url (Some 1) (Some 2) None)) <> [])
    by (vm_compute; discriminate).
  split; [exact H1|]. split; [discriminate|]. split.
  - exact (proj1 (one_live_transport "app" example_url (Some 1) (Some 2) None [EvOpen 0])
             0 _ H1 H2).
  - split; [exact H3|].
    exact (proj1 (proj1 (proj2 (proj2 (one_live_transport "app" example_url (Some 1) (Some 2)
                                         None lost_connection))) H3)).
Defined.

(** ** Frames that are not delivered to the callbacks *)

Lemma onmessage_PONG (w : World) (data : string) (v : value) :
  JSON_parse data = Some v ->
  get_field v "route" = Some (VString "PONG") ->
  onmessage data w =
  match heartbeatTimeout (this w) with
  | Some id => clear_timer id w
  | None => (Ok tt, w)
  end.
Proof.
  intros Hparse Hroute.
  unfold onmessage, try_catch, bind at 1, JSON_parse_or_throw. rewrite Hparse.
  cbn [ret]. unfold bind at 1, read_field at 1. rewrite Hroute. cbn [ret is_PONG].
  cbn [String.eqb Ascii.eqb Bool.eqb andb]. unfold bind, get_this.
  destruct (heartbeatTimeout (this w)); reflexivity.
Qed.

(** X3.  A frame whose route is PONG is not delivered: no callback is
    called, whatever its correlation id, and the session object and the
    pending table stay as they are; the heartbeat timeout timer is disarmed
    (its handle keeps the stale id). *)
Theorem PONG_only_disarms_the_timeout (w : World) (data : string) (v : value) :
  JSON_parse data = Some v ->
  get_field v "route" = Some (VString "PONG") ->
  let w' := snd (onmessage data w) in
  fst (onmessage data w) = Ok tt /\
  this w' = this w /\
  trace w' = trace w /\
  sockets w' = sockets w /\
  promises w' = promises w /\
  timers w' = match heartbeatTimeout (this w) with
              | Some id => filter (fun t => negb (Nat.eqb (timer_id t) id)) (timers w)
              | None => timers w
              end.
Proof.
  intros Hparse Hroute w'. subst w'. rewrite (onmessage_PONG w data v Hparse Hroute).
  destruct (heartbeatTimeout (this w)); repeat split; reflexivity.
Qed.

Lemma PONG_only_disarms_the_timeout_witness :
  JSON_parse (serialize pong) = Some (VObject (wire_properties pong)) /\
  get_field (VObject (wire_properties pong)) "route" = Some (VString "PONG") /\
  pending "req-1" waiting_world <> None /\
  this (snd (onmessage (serialize pong) waiting_world)) = this waiting_world /\
  trace (snd (onmessage (serialize pong) waiting_world)) = trace waiting_world.
Proof.
  assert (H1 : JSON_parse (serialize pong) = Some (VObject (wire_properties pong)))
    by (vm_compute; reflexivity).
  assert (H2 : get_field (VObject (wire_properties pong)) "route" = Some (VString "PONG"))
    by reflexivity.
  split; [exact H1|]. split; [exact H2|]. split; [vm_compute; discriminate|].
  destruct (PONG_only_disarms_the_timeout waiting_world _ _ H1 H2) as (_ & Ht & Htr & _).
  split; [exact Ht | exact Htr].
Defined.



(** ** Registering twice under one correlation id *)

Lemma obj_set_obj_set {A : Type} (k : string) (v1 v2 : A) (o : list (string * A)) :
  obj_set k v2 (obj_set k v1 o) = obj_set k v2 o.
Proof.
  induction o as [|[k' v'] o IH]; cbn [obj_set].
  - now rewrite String.eqb_refl.
  - destruct (String.eqb k k') eqn:E; cbn [obj_set]; rewrite E;
      [reflexivity | now rewrite IH].
Qed.

(** X5.  [onResponse] under a correlation id that is already pending
    replaces the waiter in place: the table holds the second handler and the
    second expiry, and the first handler has not been called. *)
Theorem second_registration_replaces_the_first
    (w : World) (m1 m2 : Message) (h1 h2 : Handler) (t1 t2 : Z) :
  uuid m2 = uuid m1 ->
  let w1 := snd (onResponse m1 h1 t1 w) in
  let w2 := snd (onResponse m2 h2 t2 w1) in
  pendingRequests (this w2)
    = obj_set (uuid m1) (waiter w h2 t2) (pendingRequests (this w)) /\
  pending (uuid m1) w2 = Some (waiter w h2 t2) /\
  waiter_calls (trace w2) = waiter_calls (trace w).
Proof.
  intros Hu w1 w2.
  pose proof (onResponse_waiters m1 h1 t1 w) as H1.
  pose proof (onResponse_waiters m2 h2 t2 w1) as H2.
  fold w1 in H1. fold w2 in H2. unfold waiters in H1, H2.
  apply pair_equal_spec in H1 as [Hp1 Hc1]. apply pair_equal_spec in H2 as [Hp2 Hc2].
  assert (Hw : waiter w1 h2 t2 = waiter w h2 t2).
  { pose proof (steady_onResponse m1 h1 t1 w) as Hs. fold w1 in Hs.
    unfold settings in Hs. unfold waiter. f_equal. f_equal. f_equal. congruence. }
  assert (Hp : pendingRequests (this w2)
               = obj_set (uuid m1) (waiter w h2 t2) (pendingRequests (this w))).
  { rewrite Hp2, Hp1, Hu, Hw. apply obj_set_obj_set. }
  split; [exact Hp|]. split.
  - unfold pending. rewrite Hp. now rewrite lookup_obj_set, String.eqb_refl.
  - now rewrite Hc2, Hc1.
Qed.

Lemma second_registration_replaces_the_first_witness :
  uuid example_reply = uuid example_request /\
  pending "req-1"
    (snd (onResponse example_reply (UserHandler 8) 2000
            (snd (onResponse example_request (UserHandler 7) 1000 open_world))))
  = Some (waiter open_world (UserHandler 8) 2000).
Proof.
  assert (H : uuid example_reply = uuid example_request) by reflexivity.
  split; [exact H|].
  exact (proj1 (proj2 (second_registration_replaces_the_first open_world
                         example_request example_reply (UserHandler 7) (UserHandler 8)
                         1000%Z 2000%Z H))).
Defined.

(** ** The expiry sweep *)

Lemma obj_delete_filter {A : Type} (k : string) (o : list (string * A)) :
  obj_delete k o = filter (fun kv => negb (String.eqb k (fst kv))) o.
Proof.
  induction o as [|[k' v'] o IH]; cbn [obj_delete filter fst]; [reflexivity|].
  destruct (String.eqb k k'); cbn [negb]; now rewrite IH.
Qed.

Lemma deleted_filter (now : Z) (l P : list (string * QueItem)) :
  fold_left (fun P kq => if expired (snd kq) now then obj_delete (fst kq) P else P) l P =
  filter (fun kv => negb (existsb (fun kq => expired (snd kq) now
                                             && String.eqb (fst kq) (fst kv)) l)) P.
Proof.
  revert P. induction l as [|kq l IH]; intros P; cbn [fold_left existsb].
  - cbn [negb]. symmetry. apply filter_true.
  - rewrite IH. destruct (expired (snd kq) now); cbn [andb orb].
    + rewrite obj_delete_filter, filter_filter_and. apply filter_ext.
      intros kv. now rewrite negb_orb, String.eqb_sym.
    + reflexivity.
Qed.

Lemma lookup_In_unique {A : Type} (k : string) (v : A) (o : list (string * A)) :
  unique_keys o = true -> In (k, v) o -> lookup k o = Some v.
Proof.
  induction o as [|[k' v'] o IH]; cbn [unique_keys lookup In]; [intros _ []|].
  destruct (lookup k' o) eqn:E; [discriminate|]. intros Hu [[= -> ->] | Hin].
  - now rewrite String.eqb_refl.
  - destruct (String.eqb_spec k k') as [->|_]; [|auto].
    rewrite (IH Hu Hin) in E. discriminate.
Qed.

Lemma swept_filter (now : Z) (P : list (string * QueItem)) :
  unique_keys P = true ->
  swept now P = filter (fun kq => negb (expired (snd kq) now)) P.
Proof.
  intros Hu. unfold swept. rewrite deleted_filter. apply filter_ext_in.
  intros [k q] Hin. cbn [fst snd]. rewrite (existsb_expired_key k now P Hu).
  now rewrite (lookup_In_unique k q P Hu Hin).
Qed.

(** X6.  A tick of the sweep at [now] removes from the table exactly the
    entries that are expired, keeps the others in their order, and calls the
    handler of each removed entry once with the failure, in table order.
    An entry is expired when its expiry is set, is not zero and lies
    strictly before [now]. *)
Theorem sweep_fails_exactly_the_expired (now : Z) (w : World) :
  unique_keys (pendingRequests (this w)) = true ->
  let table := pendingRequests (this w) in
  let w' := snd (sweep now w) in
  pendingRequests (this w') = filter (fun kq => negb (expired (snd kq) now)) table /\
  waiter_calls (trace w') =
    (waiter_calls (trace w) ++ failures (filter (fun kq => expired (snd kq) now) table))%list /\
  forall q, expired q now = true <->
            exists e, expire q = Some e /\ e <> 0%Z /\ (e < now)%Z.
Proof.
  intros Hu table w'. pose proof (sweep_waiters now w) as H. fold w' in H.
  unfold waiters in H. apply pair_equal_spec in H as [Hp Hc].
  split; [|split].
  - rewrite Hp. now apply swept_filter.
  - exact Hc.
  - intros q. unfold expired. destruct (expire q) as [e|].
    + rewrite andb_true_iff, negb_true_iff, Z.eqb_neq, Z.ltb_lt. split.
      * intros [H1 H2]. now exists e.
      * intros (e' & [= <-] & H1 & H2). now split.
    + split; [discriminate | intros (e & [=] & _)].
Qed.

Lemma sweep_fails_exactly_the_expired_witness :
  unique_keys (pendingRequests (this waiting_world)) = true /\
  pendingRequests (this (snd (sweep 31000 waiting_world)))
    = pendingRequests (this waiting_world) /\
  pendingRequests (this (snd (sweep 31001 waiting_world))) = [].
Proof.
  assert (H : unique_keys (pendingRequests (this waiting_world)) = true) by reflexivity.
  split; [exact H|]. split.
  - rewrite (proj1 (sweep_fails_exactly_the_expired 31000 waiting_world H)).
    vm_compute. reflexivity.
  - rewrite (proj1 (sweep_fails_exactly_the_expired 31001 waiting_world H)).
    vm_compute. reflexivity.
Defined.

(** ** The heartbeat *)

Lemma heartbeat_tick_open (w : World) (i : nat) (randomUUID : string) :
  is_open w = true -> socket (this w) = Some i ->
  let w' := snd (heartbeat_tick randomUUID w) in
  trace w' = (trace w ++ [WireSend i (serialize (stamped w (ping randomUUID)))])%list /\
  heartbeatTimeout (this w') = Some (next_timer w) /\
  timers w' =
    (match heartbeatTimeout (this w) with
     | Some id => filter (fun t => negb (Nat.eqb (timer_id t) id)) (timers w)
     | None => timers w
     end
     ++ [mkTimer (next_timer w) HeartbeatTimeout
           (inject_Z (heartbeatTimeoutDuration (this w)))])%list /\
  pendingRequests (this w') = pendingRequests (this w) /\
  sockets w' = sockets w.
Proof.
  intros Hopen Hi w'. subst w'. unfold heartbeat_tick. rewrite Hopen.
  fold (ping randomUUID). unfold bind, get_this.
  rewrite (sendMessage_open (ping randomUUID) w i Hopen Hi). cbn [logged this].
  destruct (heartbeatTimeout (this w)); repeat split; reflexivity.
Qed.

(** X7.  The heartbeat tick does nothing while the transport is not open.
    On an open transport it writes one PING frame, with the global headers
    merged in, disarms the timeout timer in the handle, arms a fresh one
    with the configured duration and stores its id; the pending table and
    the transports are left alone. *)
Theorem heartbeat_tick_pings (w : World) (randomUUID : string) :
  (is_open w = false -> heartbeat_tick randomUUID w = (Ok tt, w)) /\
  (forall i,
     is_open w = true -> socket (this w) = Some i ->
     let w' := snd (heartbeat_tick randomUUID w) in
     trace w' = (trace w ++ [WireSend i (serialize (stamped w (ping randomUUID)))])%list /\
     heartbeatTimeout (this w') = Some (next_timer w) /\
     timers w' =
       (match heartbeatTimeout (this w) with
        | Some id => filter (fun t => negb (Nat.eqb (timer_id t) id)) (timers w)
        | None => timers w
        end
        ++ [mkTimer (next_timer w) HeartbeatTimeout
              (inject_Z (heartbeatTimeoutDuration (this w)))])%list /\
     pendingRequests (this w') = pendingRequests (this w) /\
     sockets w' = sockets w).
Proof.
  split.
  - intros Hopen. unfold heartbeat_tick. now rewrite Hopen.
  - intros i Hopen Hi. now apply heartbeat_tick_open.
Qed.

Lemma heartbeat_tick_pings_witness :
  is_open open_world = true /\
  socket (this open_world) = Some 0 /\
  is_open fresh_world = false /\
  heartbeat_tick "ping-1" fresh_world = (Ok tt, fresh_world) /\
  trace (snd (heartbeat_tick "ping-1" open_world))
  = (trace open_world ++ [WireSend 0 (serialize (stamped open_world (ping "ping-1")))])%list.
Proof.
  assert (H1 : is_open open_world = true) by reflexivity.
  assert (H2 : socket (this open_world) = Some 0) by reflexivity.
  assert (H3 : is_open fresh_world = false) by reflexivity.
  split; [exact H1|]. split; [exact H2|]. split; [exact H3|]. split.
  - exact (proj1 (heartbeat_tick_pings fresh_world "ping-1") H3).
  - exact (proj1 (proj2 (heartbeat_tick_pings open_world "ping-1") 0 H1 H2)).
Defined.

(** X8.  When the heartbeat timeout fires on an open transport, the
    warning is logged and the transport starts closing: it is no longer
    open, so a send is refused from then on.  The waiters are not failed
    yet and no timer is touched. *)
Theorem heartbeat_timeout_hangs_up (w : World) (i : nat) :
  is_open w = true -> socket (this w) = Some i ->
  let w' := snd (heartbeat_timeout w) in
  trace w' = (trace w ++ [ConsoleWarn "No PONG received! Closing WebSocket..."])%list /\
  states w' = update_nth i (fun _ => CLOSING) (states w) /\
  nth_error (states w') i = Some CLOSING /\
  is_open w' = false /\
  this w' = this w /\
  timers w' = timers w /\
  forall m, sendMessage m w' = (Ok m, logged (ConsoleError not_connected) w').
Proof.
  intros Hopen Hi w'.
  destruct (is_open_socket w Hopen) as (j & Hj & Hst).
  rewrite Hi in Hj. injection Hj as <-.
  assert (Hw' : w' = snd (set_readyState i CLOSING
                            (logged (ConsoleWarn "No PONG received! Closing WebSocket...") w))).
  { subst w'. unfold heartbeat_timeout, console_warn, bind, emit, socket_close.
    fold (logged (ConsoleWarn "No PONG received! Closing WebSocket...") w).
    cbn [logged this sockets]. rewrite Hi, Hst. reflexivity. }
  assert (Hstates : states w' = update_nth i (fun _ => CLOSING) (states w)).
  { rewrite Hw'. unfold states, set_readyState. cbn [snd set_sockets sockets logged].
    now apply map_update_nth. }
  assert (Hnth : nth_error (states w') i = Some CLOSING).
  { rewrite Hstates, nth_error_update_nth, Nat.eqb_refl, states_nth, Hst. reflexivity. }
  assert (Hclosed : is_open w' = false).
  { unfold is_open, socket_readyState.
    replace (socket (this w')) with (Some i) by (now rewrite Hw').
    rewrite <- states_nth, Hnth. reflexivity. }
  split; [now rewrite Hw'|]. split; [exact Hstates|]. split; [exact Hnth|].
  split; [exact Hclosed|]. split; [now rewrite Hw'|]. split; [now rewrite Hw'|].
  intros m. now apply sendMessage_not_open.
Qed.

Lemma heartbeat_timeout_hangs_up_witness :
  is_open open_world = true /\
  socket (this open_world) = Some 0 /\
  states (snd (heartbeat_timeout open_world)) = [CLOSING] /\
  is_open (snd (heartbeat_timeout open_world)) = false.
Proof.
  assert (H1 : is_open open_world = true) by reflexivity.
  assert (H2 : socket (this open_world) = Some 0) by reflexivity.
  split; [exact H1|]. split; [exact H2|].
  destruct (heartbeat_timeout_hangs_up open_world 0 H1 H2) as (_ & Hs & _ & Hc & _).
  split; [exact Hs | exact Hc].
Defined.

(** ** Closing twice *)

Lemma socket_close_settled (w : World) :
  snd (socket_close (snd (socket_close w))) = snd (socket_close w).
Proof.
  assert (H : forall w0 i st,
            socket (this w0) = Some i ->
            option_map readyState (nth_error (sockets w0) i) = Some st ->
            st <> CONNECTING -> st <> OPEN -> socket_close w0 = (Ok tt, w0)).
  { intros w0 i st Hi Hs H1 H2. unfold socket_close. rewrite Hi, Hs.
    destruct st; try reflexivity; contradiction. }
  destruct (socket (this w)) as [i|] eqn:Ei.
  - destruct (option_map readyState (nth_error (sockets w) i)) as [st|] eqn:Es.
    + assert (Hst : (st = CONNECTING \/ st = OPEN) \/ (st <> CONNECTING /\ st <> OPEN))
        by (destruct st; (left; auto; fail) || (right; split; discriminate)).
      destruct Hst as [Hlive | [H1 H2]].
      * assert (Hw : socket_close w = set_readyState i CLOSING w).
        { unfold socket_close. rewrite Ei, Es. destruct Hlive as [-> | ->]; reflexivity. }
        rewrite Hw.
        rewrite (H (snd (set_readyState i CLOSING w)) i CLOSING); try discriminate;
          [reflexivity | exact Ei |].
        unfold set_readyState. cbn [snd set_sockets sockets].
        rewrite nth_error_update_nth, Nat.eqb_refl.
        destruct (nth_error (sockets w) i); [reflexivity | discriminate].
      * rewrite (H w i st Ei Es H1 H2). cbn [snd]. now rewrite (H w i st Ei Es H1 H2).
    + assert (Hw : socket_close w = (Ok tt, w))
        by (unfold socket_close; now rewrite Ei, Es).
      rewrite Hw. cbn [snd]. now rewrite Hw.
  - assert (Hw : socket_close w = (Ok tt, w)) by (unfold socket_close; now rewrite Ei).
    rewrite Hw. cbn [snd]. now rewrite Hw.
Qed.

Lemma close_settled (w : World) :
  handles w = (None, None, None) ->
  manuallyClosed (this w) = true ->
  snd (close w) = snd (socket_close w).
Proof.
  intros Hh Hm. unfold handles in Hh. injection Hh as Hi Ht Hq.
  destruct w as [o ss ts n ps tr]. cbn [this] in *.
  destruct o as [nm sk pr cb1 cb2 mc ra hi ht qi rt qt mx hr hd eq gh].
  cbn [heartbeatInterval heartbeatTimeout queManagerInterval manuallyClosed] in *.
  subst. reflexivity.
Qed.

(** X9.  [close()] is idempotent: a second call changes nothing. *)
Theorem close_is_idempotent (w : World) :
  snd (close (snd (close w))) = snd (close w).
Proof.
  assert (Hh : handles (snd (close w)) = (None, None, None) /\
               manuallyClosed (this (snd (close w))) = true).
  { rewrite close_cut.
    destruct (socket_close_frame
                (snd ((modify_this (set_manuallyClosed true) ;; stopQueManager ;; stopHeartbeat) w)))
      as (Hthis & _ & _).
    unfold handles. rewrite Hthis.
    rewrite snd_bind_unit by apply never_throws_modify_this.
    rewrite snd_bind_unit by apply never_throws_stopQueManager.
    destruct (stop_both (snd (modify_this (set_manuallyClosed true) w)))
      as (Hnone & Hman & _).
    split; [exact Hnone | now rewrite Hman]. }
  destruct Hh as [Hh Hm].
  rewrite (close_settled _ Hh Hm).
  rewrite close_cut. apply socket_close_settled.
Qed.

(** ** The promise of [sendAndWait] *)

Lemma lookup_In {A : Type} (k : string) (v : A) (o : list (string * A)) :
  lookup k o = Some v -> In (k, v) o.
Proof.
  induction o as [|[k' v'] o IH]; cbn [lookup In]; [discriminate|].
  destruct (String.eqb_spec k k') as [->|_]; [intros [= ->]; now left | auto].
Qed.

Lemma fail_entry_promises (kq : string * QueItem) (w : World) (p : nat) :
  pendingRequests (this (snd (fail_entry kq w))) = pendingRequests (this w) /\
  nth_error (promises (snd (fail_entry kq w))) p =
  if settles p kq
  then match nth_error (promises w) p with
       | Some Pending => Some (Fulfilled failure)
       | x => x
       end
  else nth_error (promises w) p.
Proof.
  unfold fail_entry, invoke, settles, bind, emit, settle, ret.
  destruct (onMessage (snd kq)) as [h|p']; cbn [snd this promises set_promises];
    [split; reflexivity|].
  split; [reflexivity|]. rewrite nth_error_update_nth.
  destruct (Nat.eqb p' p); [|reflexivity].
  destruct (nth_error (promises w) p) as [[| |]|]; reflexivity.
Qed.

Lemma forEach_fail_promises (l : list (string * QueItem)) (w : World) (p : nat) :
  nth_error (promises (snd (forEach l fail_entry w))) p =
  if existsb (settles p) l
  then match nth_error (promises w) p with
       | Some Pending => Some (Fulfilled failure)
       | x => x
       end
  else nth_error (promises w) p.
Proof.
  revert w. induction l as [|kq l IH]; intros w; cbn [forEach existsb]; [reflexivity|].
  rewrite snd_bind_unit by apply never_throws_fail_entry.
  rewrite IH. destruct (fail_entry_promises kq w p) as [_ ->].
  destruct (settles p kq); cbn [orb]; [|reflexivity].
  destruct (nth_error (promises w) p) as [[| |]|]; destruct (existsb (settles p) l);
    reflexivity.
Qed.

Lemma stopQueManager_keeps_promises :
  keeps (fun w0 => (pendingRequests (this w0), promises w0)) eq stopQueManager.
Proof.
  unfold stopQueManager.
  frames (@eq_refl (list (string * QueItem) * list Promise))
         (@eq_trans (list (string * QueItem) * list Promise)) same_leaf.
Qed.

Lemma stopHeartbeat_keeps_promises :
  keeps (fun w0 => (pendingRequests (this w0), promises w0)) eq stopHeartbeat.
Proof.
  unfold stopHeartbeat.
  frames (@eq_refl (list (string * QueItem) * list Promise))
         (@eq_trans (list (string * QueItem) * list Promise)) same_leaf.
Qed.

Lemma onclose_tail_keeps_promises u q code random :
  keeps promises eq
    (modify_this (set_pendingRequests []) ;; notify false ;;
     reconnect_policy u q code random).
Proof.
  unfold notify, reconnect_policy, console_error.
  frames (@eq_refl (list Promise)) (@eq_trans (list Promise)) same_leaf.
Qed.

Lemma onclose_promises u q code random (w : World) (p : nat) :
  nth_error (promises (snd (onclose u q code random w))) p =
  if existsb (settles p) (pendingRequests (this w))
  then match nth_error (promises w) p with
       | Some Pending => Some (Fulfilled failure)
       | x => x
       end
  else nth_error (promises w) p.
Proof.
  unfold onclose.
  rewrite snd_bind_unit by apply never_throws_stopQueManager.
  rewrite snd_bind_unit by apply never_throws_stopHeartbeat.
  pose proof (stopQueManager_keeps_promises w) as H0.
  pose proof (stopHeartbeat_keeps_promises (snd (stopQueManager w))) as H1.
  cbv beta in H0, H1. rewrite <- H0 in H1. clear H0.
  set (w1 := snd (stopHeartbeat (snd (stopQueManager w)))) in *.
  apply pair_equal_spec in H1 as [Hp Hq].
  rewrite bind_get_this.
  rewrite snd_bind_unit by (apply never_throws_forEach; intros ?; apply never_throws_fail_entry).
  rewrite <- (onclose_tail_keeps_promises u q code random
                (snd (forEach (pendingRequests (this w1)) fail_entry w1))).
  rewrite forEach_fail_promises, <- Hp, <- Hq. reflexivity.
Qed.



(** ** The armed timers *)

Lemma tidily_refl (w : World) : tidily w w.
Proof. intros H. exact H. Qed.

Lemma tidily_trans (a b c : World) : tidily a b -> tidily b c -> tidily a c.
Proof. unfold tidily. auto. Qed.

(** Disarming timers keeps the ids of the armed ones distinct. *)
Lemma ids_stay_distinct (keep : Timer -> bool) (ts : list Timer) :
  NoDup (map timer_id ts) -> NoDup (map timer_id (filter keep ts)).
Proof.
  intros Hnd. induction ts as [|t ts IH]; [exact Hnd|].
  cbn [map filter] in *. apply NoDup_cons_iff in Hnd as [Hfresh Hrest].
  destruct (keep t); [|now apply IH].
  cbn [map]. apply NoDup_cons; [|now apply IH].
  rewrite in_map_iff. intros (t' & Hid & Hin). apply Hfresh.
  rewrite in_map_iff. exists t'. split; [exact Hid|].
  now apply filter_In in Hin.
Qed.

Lemma Forall_filter {A : Type} (P : A -> Prop) (p : A -> bool) (l : list A) :
  Forall P l -> Forall P (filter p l).
Proof.
  rewrite !Forall_forall. intros H x Hin. apply filter_In in Hin as [Hin _]. auto.
Qed.

Lemma tidy_clear_timer id : keeps (fun w => w) tidily (clear_timer id).
Proof.
  intros w (Ho & Hb & Hn). unfold clear_timer. cbn [snd].
  repeat split; cbn [this timers next_timer set_timers].
  - now apply Forall_filter.
  - now apply Forall_filter.
  - now apply ids_stay_distinct.
Qed.

(** Arming a fresh timer after the timers [p] rejects are disarmed. *)
Lemma fresh_timer (ts : list Timer) (n : nat) (p : Timer -> bool) (k : TimerTask) (d : Q) :
  Forall (fun t => timer_id t < n) ts ->
  NoDup (map timer_id ts) ->
  Forall (fun t => timer_id t < S n) (filter p ts ++ [mkTimer n k d])%list /\
  NoDup (map timer_id (filter p ts ++ [mkTimer n k d])%list).
Proof.
  intros Hb Hn. split.
  - apply Forall_app. split.
    + apply Forall_filter. revert Hb. apply Forall_impl. intros; lia.
    + constructor; [cbn; lia | constructor].
  - rewrite map_app. cbn [map timer_id]. 
    assert (Hn' := ids_stay_distinct p ts Hn).
    apply NoDup_app; [assumption | repeat constructor; intros [] |].
    intros x Hin [<- | []].
    apply in_map_iff in Hin as (t & Ht & Hin). apply filter_In in Hin as [Hin _].
    rewrite Forall_forall in Hb. specialize (Hb t Hin). lia.
Qed.

Lemma tidy_schedule u q d :
  keeps (fun w => w) tidily (set_timer (Reconnect u q) d ;; ret tt).
Proof.
  intros w (Ho & Hb & Hn). unfold bind, set_timer, ret. cbn [snd].
  destruct (fresh_timer (timers w) (next_timer w) (fun _ => true) (Reconnect u q) d Hb Hn)
    as [Hb' Hn'].
  rewrite filter_true in Hb', Hn'.
  repeat split; cbn [this timers next_timer]; [|assumption..].
  apply Forall_app. split; [assumption|]. constructor; [exact I | constructor].
Qed.

Lemma survivor (t : Timer) (id : nat) :
  negb (Nat.eqb (timer_id t) id) = true -> Some id = Some (timer_id t) -> False.
Proof. intros Hne [= ->]. now rewrite Nat.eqb_refl in Hne. Qed.

Lemma tidy_startHeartbeat : keeps (fun w => w) tidily startHeartbeat.
Proof.
  intros w (Ho & Hb & Hn).
  unfold startHeartbeat, bind, get_this, when_some, clear_timer, set_timer, modify_this, ret.
  destruct (heartbeatInterval (this w)) as [id|] eqn:Eh;
    cbn [snd this timers next_timer set_timers set_this];
    [ destruct (fresh_timer (timers w) (next_timer w)
                  (fun t => negb (Nat.eqb (timer_id t) id)) HeartbeatTick
                  (inject_Z (heartbeatRate (this w))) Hb Hn) as [Hb' Hn']
    | destruct (fresh_timer (timers w) (next_timer w) (fun _ => true) HeartbeatTick
                  (inject_Z (heartbeatRate (this w))) Hb Hn) as [Hb' Hn'];
      rewrite filter_true in Hb', Hn' ];
    (split; [|split; assumption]);
    (apply Forall_app; split; [|constructor; [reflexivity | constructor]]).
  - apply Forall_forall. intros t Hin. apply filter_In in Hin as [Hin Hne].
    rewrite Forall_forall in Ho. specialize (Ho t Hin). unfold owned in *.
    destruct (task t); cbn; try assumption.
    rewrite Eh in Ho. now destruct (survivor t id Hne Ho).
  - apply Forall_forall. intros t Hin.
    rewrite Forall_forall in Ho. specialize (Ho t Hin). unfold owned in *.
    destruct (task t); cbn; try assumption. rewrite Eh in Ho. discriminate.
Qed.

Lemma tidy_startQueManager : keeps (fun w => w) tidily startQueManager.
Proof.
  intros w (Ho & Hb & Hn).
  unfold startQueManager, bind, get_this, when_some, clear_timer, set_timer, modify_this, ret.
  destruct (queManagerInterval (this w)) as [id|] eqn:Eh;
    cbn [snd this timers next_timer set_timers set_this];
    [ destruct (fresh_timer (timers w) (next_timer w)
                  (fun t => negb (Nat.eqb (timer_id t) id)) QueSweep
                  (inject_Z (queManagerTimeout (this w))) Hb Hn) as [Hb' Hn']
    | destruct (fresh_timer (timers w) (next_timer w) (fun _ => true) QueSweep
                  (inject_Z (queManagerTimeout (this w))) Hb Hn) as [Hb' Hn'];
      rewrite filter_true in Hb', Hn' ];
    (split; [|split; assumption]);
    (apply Forall_app; split; [|constructor; [reflexivity | constructor]]).
  - apply Forall_forall. intros t Hin. apply filter_In in Hin as [Hin Hne].
    rewrite Forall_forall in Ho. specialize (Ho t Hin). unfold owned in *.
    destruct (task t); cbn; try assumption.
    rewrite Eh in Ho. now destruct (survivor t id Hne Ho).
  - apply Forall_forall. intros t Hin.
    rewrite Forall_forall in Ho. specialize (Ho t Hin). unfold owned in *.
    destruct (task t); cbn; try assumption. rewrite Eh in Ho. discriminate.
Qed.

Lemma tidy_rearm_timeout :
  keeps (fun w => w) tidily
    (o <- get_this ;;
     when_some (heartbeatTimeout o) clear_timer ;;
     id <- set_timer HeartbeatTimeout (inject_Z (heartbeatTimeoutDuration o)) ;;
     modify_this (set_heartbeatTimeout (Some id))).
Proof.
  intros w (Ho & Hb & Hn).
  unfold bind, get_this, when_some, clear_timer, set_timer, modify_this, ret.
  destruct (heartbeatTimeout (this w)) as [id|] eqn:Eh;
    cbn [snd this timers next_timer set_timers set_this];
    [ destruct (fresh_timer (timers w) (next_timer w)
                  (fun t => negb (Nat.eqb (timer_id t) id)) HeartbeatTimeout
                  (inject_Z (heartbeatTimeoutDuration (this w))) Hb Hn) as [Hb' Hn']
    | destruct (fresh_timer (timers w) (next_timer w) (fun _ => true) HeartbeatTimeout
                  (inject_Z (heartbeatTimeoutDuration (this w))) Hb Hn) as [Hb' Hn'];
      rewrite filter_true in Hb', Hn' ];
    (split; [|split; assumption]);
    (apply Forall_app; split; [|constructor; [reflexivity | constructor]]).
  - apply Forall_forall. intros t Hin. apply filter_In in Hin as [Hin Hne].
    rewrite Forall_forall in Ho. specialize (Ho t Hin). unfold owned in *.
    destruct (task t); cbn; try assumption.
    rewrite Eh in Ho. now destruct (survivor t id Hne Ho).
  - apply Forall_forall. intros t Hin.
    rewrite Forall_forall in Ho. specialize (Ho t Hin). unfold owned in *.
    destruct (task t); cbn; try assumption. rewrite Eh in Ho. discriminate.
Qed.

Lemma tidy_stopQueManager : keeps (fun w => w) tidily stopQueManager.
Proof.
  intros w (Ho & Hb & Hn).
  unfold stopQueManager, bind, get_this, clear_timer, modify_this, ret.
  destruct (queManagerInterval (this w)) as [id|] eqn:Eh;
    cbn [snd this timers next_timer set_timers set_this];
    [|now repeat split].
  split; [|split; [now apply Forall_filter | now apply ids_stay_distinct]].
  apply Forall_forall. intros t Hin. apply filter_In in Hin as [Hin Hne].
  rewrite Forall_forall in Ho. specialize (Ho t Hin). unfold owned in *.
  destruct (task t); cbn; try assumption.
  rewrite Eh in Ho. now destruct (survivor t id Hne Ho).
Qed.

Lemma tidy_stop_interval :
  keeps (fun w => w) tidily
    (o <- get_this ;;
     match heartbeatInterval o with
     | Some id => clear_timer id ;; modify_this (set_heartbeatInterval None)
     | None => ret tt
     end).
Proof.
  intros w (Ho & Hb & Hn).
  unfold bind, get_this, clear_timer, modify_this, ret.
  destruct (heartbeatInterval (this w)) as [id|] eqn:Eh;
    cbn [snd this timers next_timer set_timers set_this];
    [|now repeat split].
  split; [|split; [now apply Forall_filter | now apply ids_stay_distinct]].
  apply Forall_forall. intros t Hin. apply filter_In in Hin as [Hin Hne].
  rewrite Forall_forall in Ho. specialize (Ho t Hin). unfold owned in *.
  destruct (task t); cbn; try assumption.
  rewrite Eh in Ho. now destruct (survivor t id Hne Ho).
Qed.

Lemma tidy_stop_timeout :
  keeps (fun w => w) tidily
    (o <- get_this ;;
     match heartbeatTimeout o with
     | Some id => clear_timer id ;; modify_this (set_heartbeatTimeout None)
     | None => ret tt
     end).
Proof.
  intros w (Ho & Hb & Hn).
  unfold bind, get_this, clear_timer, modify_this, ret.
  destruct (heartbeatTimeout (this w)) as [id|] eqn:Eh;
    cbn [snd this timers next_timer set_timers set_this];
    [|now repeat split].
  split; [|split; [now apply Forall_filter | now apply ids_stay_distinct]].
  apply Forall_forall. intros t Hin. apply filter_In in Hin as [Hin Hne].
  rewrite Forall_forall in Ho. specialize (Ho t Hin). unfold owned in *.
  destruct (task t); cbn; try assumption.
  rewrite Eh in Ho. now destruct (survivor t id Hne Ho).
Qed.

Lemma stopHeartbeat_in_two (w : World) :
  stopHeartbeat w =
  (o <- get_this ;;
   match heartbeatTimeout o with
   | Some id => clear_timer id ;; modify_this (set_heartbeatTimeout None)
   | None => ret tt
   end)
    (snd ((o <- get_this ;;
           match heartbeatInterval o with
           | Some id => clear_timer id ;; modify_this (set_heartbeatInterval None)
           | None => ret tt
           end) w)).
Proof.
  unfold stopHeartbeat, bind, get_this.
  destruct (heartbeatInterval (this w)); reflexivity.
Qed.

Lemma tidy_stopHeartbeat : keeps (fun w => w) tidily stopHeartbeat.
Proof.
  intros w H. rewrite stopHeartbeat_in_two.
  apply tidy_stop_timeout. now apply tidy_stop_interval.
Qed.

(** What is left of a method once the timers are dealt with: it touches
    neither a handle nor a timer. *)
Ltac tidy_leaf :=
  intros ?w; unfold socket_send, socket_close, set_readyState, settle, emit,
    modify_this, new_WebSocket, new_Promise, ret, throw;
  repeat match goal with
         | |- context [match ?x with _ => _ end] => destruct x
         end;
  exact (fun H => H).

Ltac tidy_frames :=
  repeat first
    [ apply tidy_startHeartbeat
    | apply tidy_startQueManager
    | apply tidy_stopHeartbeat
    | apply tidy_stopQueManager
    | apply tidy_rearm_timeout
    | apply tidy_schedule
    | apply tidy_clear_timer
    | apply (keeps_ret _ _ tidily_refl)
    | apply (keeps_throw _ _ tidily_refl)
    | apply (keeps_get_this _ _ tidily_refl)
    | apply (keeps_bind _ _ tidily_trans); [|intros ?]
    | apply (keeps_try_catch _ _ tidily_trans); [|intros ?]
    | apply keeps_cond
    | apply (keeps_when_some _ _ tidily_refl); intros ?
    | apply (keeps_forEach _ _ tidily_refl tidily_trans); intros ?
    | match goal with
      | |- keeps _ _ (match ?x with _ => _ end) => destruct x
      | |- keeps _ _ (if ?b then _ else _) => destruct b
      end
    | tidy_leaf ].

Lemma tidy_sendMessage m : keeps (fun w => w) tidily (sendMessage m).
Proof. unfold sendMessage, console_error. tidy_frames. Qed.

Lemma tidy_onopen q i : keeps (fun w => w) tidily (set_readyState i OPEN ;; onopen q).
Proof. unfold onopen, notify. tidy_frames. Qed.

Lemma tidy_onmessage data : keeps (fun w => w) tidily (onmessage data).
Proof.
  unfold onmessage, JSON_parse_or_throw, read_field, invoke, console_error. tidy_frames.
Qed.

Lemma tidy_onResponse m h now : keeps (fun w => w) tidily (onResponse m h now).
Proof. unfold onResponse, sendMessage, console_error. tidy_frames. Qed.

Lemma tidy_sendAndWait m now : keeps (fun w => w) tidily (sendAndWait m now).
Proof. unfold sendAndWait, onResponse, sendMessage, console_error. tidy_frames. Qed.

Lemma tidy_close : keeps (fun w => w) tidily close.
Proof. unfold close. tidy_frames. Qed.

Lemma tidy_onclose u q code random i :
  keeps (fun w => w) tidily (set_readyState i CLOSED ;; onclose u q code random).
Proof.
  unfold onclose, fail_entry, invoke, notify, reconnect_policy, console_error. tidy_frames.
Qed.

Lemma tidy_timer (b : bool) id t now u :
  keeps (fun w => w) tidily ((if b then ret tt else clear_timer id) ;; run_task t now u).
Proof.
  destruct t; cbn [run_task];
    unfold heartbeat_tick, heartbeat_timeout, sweep, sweep_entry, reconnect, connect,
      invoke, console_warn;
    tidy_frames.
Qed.

Lemma tidy_step (e : Event) (w : World) : tidy w -> tidy (snd (step e w)).
Proof.
  destruct e as [sock | sock data | sock | sock code random | id now u
                 | m | m h now | m now | ]; cbn [step].
  - destruct (nth_error (sockets w) sock) as [[url0 [| | |] q]|]; try (intros H; exact H).
    apply tidy_onopen.
  - destruct (nth_error (sockets w) sock) as [[url0 [| | |] q]|]; try (intros H; exact H).
    apply tidy_onmessage.
  - destruct (nth_error (sockets w) sock) as [[url0 [| | |] q]|]; intros H; exact H.
  - destruct (nth_error (sockets w) sock) as [[url0 [| | |] q]|]; try (intros H; exact H);
      apply tidy_onclose.
  - destruct (find_timer id w) as [t|]; [|intros H; exact H]. apply tidy_timer.
  - rewrite snd_bind_unit_any by apply never_throws_sendMessage. apply tidy_sendMessage.
  - rewrite snd_bind_unit_any by apply never_throws_onResponse. apply tidy_onResponse.
  - rewrite snd_bind_unit_any by apply never_throws_sendAndWait. apply tidy_sendAndWait.
  - apply tidy_close.
Qed.

Lemma tidy_run (es : list Event) (w : World) : tidy w -> tidy (run es w).
Proof.
  revert w. induction es as [|e es IH]; intros w H; [exact H|].
  rewrite run_cons. apply IH. now apply tidy_step.
Qed.

Lemma tidy_new name0 socketUrl cb1 cb2 userConfig :
  tidy (new_ObservableSocket name0 socketUrl cb1 cb2 userConfig).
Proof. repeat split; constructor. Qed.

Lemma same_id_once {A : Type} (f : A -> nat) (l : list A) (n : nat) :
  NoDup (map f l) -> Forall (fun x => f x = n) l -> (List.length l <= 1)%nat.
Proof.
  destruct l as [|x [|y l]]; cbn [List.length]; try lia.
  intros Hn Hall. exfalso.
  inversion Hall as [|? ? Hx Hall']; subst. inversion Hall' as [|? ? Hy _]; subst.
  inversion Hn as [|? ? Hnin _]; subst. apply Hnin. left. congruence.
Qed.

(** X11.  At any time in the life of a session every armed heartbeat,
    timeout and sweep timer is the one its handle holds, the ids of the
    armed timers are distinct, and at most one timer of each kind is
    armed. *)
Theorem one_timer_of_each_kind
    (name0 socketUrl : string) (cb1 cb2 : option Callback)
    (userConfig : option Config.Partial) (es : list Event) :
  let w := run es (new_ObservableSocket name0 socketUrl cb1 cb2 userConfig) in
  Forall (owned (this w)) (timers w) /\
  NoDup (map timer_id (timers w)) /\
  forall k, (List.length (armed k w) <= 1)%nat.
Proof.
  intros w.
  pose proof (tidy_run es _ (tidy_new name0 socketUrl cb1 cb2 userConfig)) as H.
  fold w in H. destruct H as (Ho & Hb & Hn).
  split; [exact Ho|]. split; [exact Hn|]. intros k.
  assert (Hnd : NoDup (map timer_id (armed k w))) by (now apply ids_stay_distinct).
  assert (Hown : Forall (owned (this w)) (armed k w)) by (now apply Forall_filter).
  assert (Hk : Forall (fun t => same_kind k (task t) = true) (armed k w)).
  { apply Forall_forall. intros t Hin. now apply filter_In in Hin as [_ Hin]. }
  destruct k as [| | |u q].
  - destruct (heartbeatInterval (this w)) as [id|] eqn:Eh.
    + apply (same_id_once timer_id _ id Hnd).
      rewrite Forall_forall in *. intros t Hin. specialize (Hown t Hin).
      specialize (Hk t Hin). unfold owned in Hown. destruct (task t); try discriminate.
      congruence.
    + destruct (armed HeartbeatTick w) as [|t l]; [cbn; lia|]. exfalso.
      inversion Hown as [|? ? Ht _]; subst. inversion Hk as [|? ? Hkt _]; subst.
      unfold owned in Ht. destruct (task t); try discriminate. congruence.
  - destruct (heartbeatTimeout (this w)) as [id|] eqn:Eh.
    + apply (same_id_once timer_id _ id Hnd).
      rewrite Forall_forall in *. intros t Hin. specialize (Hown t Hin).
      specialize (Hk t Hin). unfold owned in Hown. destruct (task t); try discriminate.
      congruence.
    + destruct (armed HeartbeatTimeout w) as [|t l]; [cbn; lia|]. exfalso.
      inversion Hown as [|? ? Ht _]; subst. inversion Hk as [|? ? Hkt _]; subst.
      unfold owned in Ht. destruct (task t); try discriminate. congruence.
  - destruct (queManagerInterval (this w)) as [id|] eqn:Eh.
    + apply (same_id_once timer_id _ id Hnd).
      rewrite Forall_forall in *. intros t Hin. specialize (Hown t Hin).
      specialize (Hk t Hin). unfold owned in Hown. destruct (task t); try discriminate.
      congruence.
    + destruct (armed QueSweep w) as [|t l]; [cbn; lia|]. exfalso.
      inversion Hown as [|? ? Ht _]; subst. inversion Hk as [|? ? Hkt _]; subst.
      unfold owned in Ht. destruct (task t); try discriminate. congruence.
  - pose proof (run_wired es _ (new_wired name0 socketUrl cb1 cb2 userConfig)) as Hw.
    fold w in Hw. destruct Hw as (_ & _ & Hrec). cbn [wiring w_reconnects] in Hrec.
    replace (armed (Reconnect u q) w) with (reconnect_timers w).
    + apply length_le_1. destruct Hrec as [-> | [Ht _]]; auto.
    + unfold armed, reconnect_timers. apply filter_ext. intros t. unfold is_reconnect.
      destruct (task t); reflexivity.
Qed.

(** ** The endpoint and the sweep flag *)

Lemma boundly_refl (u : string) (q : bool) (w : World) : boundly u q w w.
Proof. intros H. exact H. Qed.

Lemma boundly_trans (u : string) (q : bool) (a b c : World) :
  boundly u q a b -> boundly u q b c -> boundly u q a c.
Proof. unfold boundly. auto. Qed.

Lemma bound_clear_timer (u : string) (q : bool) id : keeps (fun w => w) (boundly u q) (clear_timer id).
Proof.
  intros w [Hs Ht]. split; [exact Hs|]. cbn. now apply Forall_filter.
Qed.

Lemma bound_set_timer (u : string) (q : bool) k d :
  (forall n, bound_timer u q (mkTimer n k d)) ->
  keeps (fun w => w) (boundly u q) (set_timer k d).
Proof.
  intros Hk w [Hs Ht]. split; [exact Hs|]. cbn.
  apply Forall_app. split; [exact Ht|]. constructor; [apply Hk | constructor].
Qed.

Lemma Forall_update_same {A : Type} (P : A -> Prop) (f : A -> A) (i : nat) (l : list A) :
  (forall x, P x -> P (f x)) -> Forall P l -> Forall P (update_nth i f l).
Proof.
  intros Hf. revert i. induction l as [|x l IH]; intros i H; [destruct i; constructor|].
  inversion H; subst. destruct i; cbn [update_nth]; constructor; auto.
Qed.

Lemma bound_set_readyState (u : string) (q : bool) i st : keeps (fun w => w) (boundly u q) (set_readyState i st).
Proof.
  intros w [Hs Ht]. split; [|exact Ht]. cbn.
  apply Forall_update_same; [|exact Hs]. intros s H. exact H.
Qed.

Lemma bound_socket_close (u : string) (q : bool) : keeps (fun w => w) (boundly u q) socket_close.
Proof.
  intros w. unfold socket_close.
  destruct (socket (this w)) as [i|]; [|apply (boundly_refl _ _)].
  destruct (option_map readyState (nth_error (sockets w) i)) as [[| | |]|];
    try apply (boundly_refl _ _); apply bound_set_readyState.
Qed.

Lemma bound_new_WebSocket (u : string) (q : bool) : keeps (fun w => w) (boundly u q) (new_WebSocket u q).
Proof.
  intros w [Hs Ht]. split; [|exact Ht]. cbn.
  apply Forall_app. split; [exact Hs|]. constructor; [now split | constructor].
Qed.

Ltac bound_leaf :=
  intros ?w; unfold socket_send, settle, emit, modify_this, new_Promise, ret, throw;
  repeat match goal with
         | |- context [match ?x with _ => _ end] => destruct x
         end;
  exact (fun H => H).

Ltac bound_frames :=
  repeat first
    [ apply bound_clear_timer
    | apply bound_set_timer; intros ?; cbn; auto; fail
    | apply bound_set_readyState
    | apply bound_socket_close
    | apply bound_new_WebSocket
    | apply (keeps_ret _ _ (boundly_refl _ _))
    | apply (keeps_throw _ _ (boundly_refl _ _))
    | apply (keeps_get_this _ _ (boundly_refl _ _))
    | apply (keeps_bind _ _ (boundly_trans _ _)); [|intros ?]
    | apply (keeps_try_catch _ _ (boundly_trans _ _)); [|intros ?]
    | apply keeps_cond
    | apply (keeps_when_some _ _ (boundly_refl _ _)); intros ?
    | apply (keeps_forEach _ _ (boundly_refl _ _) (boundly_trans _ _)); intros ?
    | match goal with
      | |- keeps _ _ (match ?x with _ => _ end) => destruct x
      | |- keeps _ _ (if ?b then _ else _) => destruct b
      end
    | bound_leaf ].

Lemma bound_onopen (u : string) (q : bool) i : keeps (fun w => w) (boundly u q) (set_readyState i OPEN ;; onopen q).
Proof.
  unfold onopen, notify, startHeartbeat, startQueManager.
  destruct q; bound_frames.
Qed.

Lemma bound_onmessage (u : string) (q : bool) data : keeps (fun w => w) (boundly u q) (onmessage data).
Proof.
  unfold onmessage, JSON_parse_or_throw, read_field, invoke, console_error. bound_frames.
Qed.

Lemma bound_sendMessage (u : string) (q : bool) m : keeps (fun w => w) (boundly u q) (sendMessage m).
Proof. unfold sendMessage, console_error. bound_frames. Qed.

Lemma bound_onResponse (u : string) (q : bool) m h now : keeps (fun w => w) (boundly u q) (onResponse m h now).
Proof. unfold onResponse, sendMessage, console_error. bound_frames. Qed.

Lemma bound_sendAndWait (u : string) (q : bool) m now : keeps (fun w => w) (boundly u q) (sendAndWait m now).
Proof. unfold sendAndWait, onResponse, sendMessage, console_error. bound_frames. Qed.

Lemma bound_close (u : string) (q : bool) : keeps (fun w => w) (boundly u q) close.
Proof. unfold close, stopQueManager, stopHeartbeat. bound_frames. Qed.

Lemma bound_onclose (u : string) (q : bool) code random i :
  keeps (fun w => w) (boundly u q) (set_readyState i CLOSED ;; onclose u q code random).
Proof.
  unfold onclose, stopQueManager, stopHeartbeat, fail_entry, invoke, notify,
    reconnect_policy, console_error.
  bound_frames.
Qed.

Lemma bound_timer_fires (u : string) (q : bool) (b : bool) id t now r :
  bound_timer u q t ->
  keeps (fun w => w) (boundly u q)
    ((if b then ret tt else clear_timer id) ;; run_task (task t) now r).
Proof.
  unfold bound_timer. destruct (task t) as [| | |u' q']; cbn [run_task]; intros Hb;
    [| | |destruct Hb as [-> ->]];
    unfold heartbeat_tick, heartbeat_timeout, sweep, sweep_entry, reconnect, connect,
      invoke, sendMessage, console_error, console_warn;
    bound_frames.
Qed.

Lemma bound_step (u : string) (q : bool) (e : Event) (w : World) : bound u q w -> bound u q (snd (step e w)).
Proof.
  intros Hb. pose proof Hb as [Hs Ht]. revert Hb.
  destruct e as [sock | sock data | sock | sock code random | id now r
                 | m | m h now | m now | ]; cbn [step].
  - destruct (nth_error (sockets w) sock) as [[url0 st q0]|] eqn:E; [|intros H; exact H].
    rewrite Forall_forall in Hs. destruct (Hs _ (nth_error_In _ _ E)) as [Hu Hq].
    cbn in Hu, Hq. subst url0 q0.
    destruct st; try (intros H; exact H). apply bound_onopen.
  - destruct (nth_error (sockets w) sock) as [[url0 [| | |] q0]|]; try (intros H; exact H).
    apply bound_onmessage.
  - destruct (nth_error (sockets w) sock) as [[url0 [| | |] q0]|]; intros H; exact H.
  - destruct (nth_error (sockets w) sock) as [[url0 st q0]|] eqn:E; [|intros H; exact H].
    rewrite Forall_forall in Hs. destruct (Hs _ (nth_error_In _ _ E)) as [Hu Hq].
    cbn in Hu, Hq. subst url0 q0.
    destruct st; try (intros H; exact H); apply bound_onclose.
  - destruct (find_timer id w) as [t|] eqn:E; [|intros H; exact H].
    apply bound_timer_fires. unfold find_timer in E. apply find_some in E as [Hin _].
    rewrite Forall_forall in Ht. now apply Ht.
  - rewrite snd_bind_unit_any by apply never_throws_sendMessage. apply bound_sendMessage.
  - rewrite snd_bind_unit_any by apply never_throws_onResponse. apply bound_onResponse.
  - rewrite snd_bind_unit_any by apply never_throws_sendAndWait. apply bound_sendAndWait.
  - apply bound_close.
Qed.

Lemma bound_run (u : string) (q : bool) (es : list Event) (w : World) : bound u q w -> bound u q (run es w).
Proof.
  revert w. induction es as [|e es IH]; intros w H; [exact H|].
  rewrite run_cons. apply IH. now apply bound_step.
Qed.

Lemma bound_new name0 socketUrl cb1 cb2 userConfig :
  bound socketUrl (Config.queManager (Config.assign socketConfig userConfig))
    (new_ObservableSocket name0 socketUrl cb1 cb2 userConfig).
Proof. split; repeat constructor. Qed.

(** X12.  Every transport that a session ever creates connects to the
    address given to the constructor, and every scheduled reconnect is one
    to that address. *)
Theorem every_transport_uses_the_endpoint
    (name0 socketUrl : string) (cb1 cb2 : option Callback)
    (userConfig : option Config.Partial) (es : list Event) :
  let w := run es (new_ObservableSocket name0 socketUrl cb1 cb2 userConfig) in
  Forall (fun s => url s = socketUrl) (sockets w) /\
  Forall (fun t => match task t with
                  | Reconnect u' _ => u' = socketUrl
                  | _ => True
                  end) (timers w).
Proof.
  intros w.
  destruct (bound_run _ _ es _ (bound_new name0 socketUrl cb1 cb2 userConfig)) as [Hs Ht].
  fold w in Hs, Ht. split.
  - revert Hs. apply Forall_impl. now intros s [H _].
  - revert Ht. apply Forall_impl. intros t H. unfold bound_timer in H.
    destruct (task t); try exact I. apply H.
Qed.

(** X13.  With [queManager] off, which is the default, no sweep timer is
    ever armed, and no timer that fires touches the pending table or calls a
    handler of a waiter: a pending request never times out. *)
Theorem no_expiry_without_queManager
    (name0 socketUrl : string) (cb1 cb2 : option Callback)
    (userConfig : option Config.Partial) (es : list Event) :
  Config.queManager (Config.assign socketConfig userConfig) = false ->
  let w := run es (new_ObservableSocket name0 socketUrl cb1 cb2 userConfig) in
  armed QueSweep w = [] /\
  forall id now randomUUID,
    waiters (snd (step (EvTimer id now randomUUID) w)) = waiters w.
Proof.
  intros Hq w.
  destruct (bound_run _ _ es _ (bound_new name0 socketUrl cb1 cb2 userConfig)) as [_ Ht].
  fold w in Ht. rewrite Hq in Ht.
  assert (Hno : forall t, In t (timers w) -> task t <> QueSweep).
  { rewrite Forall_forall in Ht. intros t Hin E. specialize (Ht t Hin).
    unfold bound_timer in Ht. rewrite E in Ht. discriminate. }
  split.
  - unfold armed. destruct (filter _ (timers w)) as [|t l] eqn:E; [reflexivity|].
    exfalso. assert (Hin : In t (filter (fun t => same_kind QueSweep (task t)) (timers w)))
      by (rewrite E; now left).
    apply filter_In in Hin as [Hin Hk]. apply (Hno t Hin).
    destruct (task t); try discriminate. reflexivity.
  - intros id now r.
    destruct (step_waiter_move (EvTimer id now r) w)
      as [H | ? ? ? ? ? [=] | id' now' u' t [= <- <- <-] Hfind Htask _ | ? ? ? ? [=] | ? ? ? [[=] | [[=] _]]].
    + exact H.
    + exfalso. unfold find_timer in Hfind. apply find_some in Hfind as [Hin _].
      exact (Hno t Hin Htask).
Qed.

Lemma no_expiry_without_queManager_witness :
  Config.queManager (Config.assign socketConfig None) = false /\
  armed QueSweep (run [EvOpen 0; CallOnResponse example_request (UserHandler 7) 1000]
                    fresh_world) = [] /\
  waiters (snd (step (EvTimer 1 99000 "ping-1")
                  (run [EvOpen 0; CallOnResponse example_request (UserHandler 7) 1000]
                     fresh_world)))
  = waiters (run [EvOpen 0; CallOnResponse example_request (UserHandler 7) 1000] fresh_world).
Proof.
  assert (H : Config.queManager (Config.assign socketConfig None) = false) by reflexivity.
  split; [exact H|].
  destruct (no_expiry_without_queManager "app" example_url (Some 1) (Some 2) None
              [EvOpen 0; CallOnResponse example_request (UserHandler 7) 1000] H)
    as [Ha Hw].
  split; [exact Ha | apply Hw].
Defined.

(** ** A successful open resets the backoff *)

Lemma onopen_keeps_sockets q : keeps sockets eq (onopen q).
Proof.
  unfold onopen, notify, startHeartbeat, startQueManager.
  frames (@eq_refl (list WebSocket)) (@eq_trans (list WebSocket)) same_leaf.
Qed.

Lemma notify_keeps_policy b : keeps policy_fields eq (notify b).
Proof.
  unfold notify.
  frames (@eq_refl (bool * Z * Z)) (@eq_trans (bool * Z * Z)) same_leaf.
Qed.

Lemma onopen_tail_keeps_policy (q : bool) :
  keeps policy_fields eq (startHeartbeat ;; if q then startQueManager else ret tt).
Proof.
  unfold startHeartbeat, startQueManager.
  frames (@eq_refl (bool * Z * Z)) (@eq_trans (bool * Z * Z)) same_leaf.
Qed.

Lemma onclose_head_keeps_policy :
  keeps policy_fields eq
    (stopQueManager ;; stopHeartbeat ;;
     o <- get_this ;; forEach (pendingRequests o) fail_entry ;;
     modify_this (set_pendingRequests []) ;; notify false).
Proof.
  unfold stopQueManager, stopHeartbeat, fail_entry, invoke, notify.
  frames (@eq_refl (bool * Z * Z)) (@eq_trans (bool * Z * Z)) same_leaf.
Qed.

Lemma onopen_policy (q : bool) (w : World) :
  policy_fields (snd (onopen q w)) = (manuallyClosed (this w), 0%Z, maxReconnectAttempts (this w)).
Proof.
  unfold onopen.
  rewrite snd_bind_unit by apply never_throws_notify.
  rewrite snd_bind_unit by apply never_throws_modify_this.
  rewrite <- (onopen_tail_keeps_policy q).
  pose proof (notify_keeps_policy true w) as H. unfold policy_fields in *.
  apply pair_equal_spec in H as [H Hmax]. apply pair_equal_spec in H as [Hman _].
  cbn [modify_this snd set_this this set_reconnectAttempts manuallyClosed
       reconnectAttempts maxReconnectAttempts].
  now rewrite <- Hman, <- Hmax.
Qed.

(** X14.  When a connecting transport opens, the attempt count is reset
    to zero.  If it is lost after that (no policy close code, no manual
    close, a positive maximum), the reconnect is scheduled with the delay of
    attempt zero, and the count stays zero until that timer fires. *)
Theorem open_resets_the_backoff
    (w : World) (sock : nat) (s : WebSocket) (code : Z) (random : Q) :
  nth_error (sockets w) sock = Some s ->
  readyState s = CONNECTING ->
  policy_close code = false ->
  manuallyClosed (this w) = false ->
  (0 < maxReconnectAttempts (this w))%Z ->
  let w1 := snd (step (EvOpen sock) w) in
  let w2 := snd (step (EvClose sock code random) w1) in
  reconnectAttempts (this w1) = 0%Z /\
  nth_error (states w1) sock = Some OPEN /\
  reconnectAttempts (this w2) = 0%Z /\
  exists n,
    In (mkTimer n (Reconnect (url s) (closure_enableQueManager s)) (reconnect_delay 0 random))
       (timers w2).
Proof.
  intros Hs Hst Hcode Hman Hmax w1 w2.
  destruct s as [u st q]. cbn [readyState url closure_enableQueManager] in *. subst st.
  assert (Hw1 : w1 = snd (onopen q (snd (set_readyState sock OPEN w)))).
  { subst w1. cbn [step]. rewrite Hs.
    now rewrite snd_bind_unit by apply never_throws_set_readyState. }
  assert (Hp1 : policy_fields w1 = (false, 0%Z, maxReconnectAttempts (this w))).
  { rewrite Hw1, onopen_policy. cbn [set_readyState snd set_sockets this]. now rewrite Hman. }
  assert (Hs1 : nth_error (sockets w1) sock = Some (mkWebSocket u OPEN q)).
  { rewrite Hw1, <- (onopen_keeps_sockets q). cbn [set_readyState snd set_sockets sockets].
    now rewrite nth_error_update_nth, Nat.eqb_refl, Hs. }
  unfold policy_fields in Hp1. apply pair_equal_spec in Hp1 as [Hp1 Hmax1].
  apply pair_equal_spec in Hp1 as [Hman1 Hatt1].
  assert (Hw2 : w2 = snd (onclose u q code random (snd (set_readyState sock CLOSED w1)))).
  { subst w2. cbn [step]. rewrite Hs1.
    now rewrite snd_bind_unit by apply never_throws_set_readyState. }
  rewrite onclose_cut in Hw2.
  set (w1' := snd (set_readyState sock CLOSED w1)) in *.
  pose proof (onclose_head_keeps_policy w1') as Hhead.
  set (w3 := snd (_ w1')) in *.
  destruct (reconnect_policy_timers u q code random w3) as (Hthis & _ & Htim).
  rewrite <- Hw2 in Hthis, Htim.
  unfold policy_fields in Hhead.
  change (this w1') with (this w1) in Hhead.
  rewrite Hman1, Hatt1, Hmax1 in Hhead.
  apply pair_equal_spec in Hhead as [Hhead Hmax3].
  apply pair_equal_spec in Hhead as [Hman3 Hatt3].
  rewrite <- Hman3, <- Hatt3, <- Hmax3, Hcode in Htim.
  replace (0 <? maxReconnectAttempts (this w))%Z with true in Htim
    by (symmetry; now apply Z.ltb_lt).
  cbn [negb andb] in Htim.
  split; [exact Hatt1|]. split; [now rewrite states_nth, Hs1|].
  split; [now rewrite Hthis, <- Hatt3|].
  exists (next_timer w3). rewrite Htim. apply in_or_app. right. now left.
Qed.

Lemma open_resets_the_backoff_witness :
  nth_error (sockets fresh_world) 0 = Some (mkWebSocket example_url CONNECTING false) /\
  policy_close 1006 = false /\
  manuallyClosed (this fresh_world) = false /\
  (0 < maxReconnectAttempts (this fresh_world))%Z /\
  reconnectAttempts (this (snd (step (EvClose 0 1006 (1 # 2))
                                  (snd (step (EvOpen 0) fresh_world))))) = 0%Z.
Proof.
  assert (H1 : nth_error (sockets fresh_world) 0
               = Some (mkWebSocket example_url CONNECTING false)) by reflexivity.
  assert (H2 : policy_close 1006 = false) by reflexivity.
  assert (H3 : manuallyClosed (this fresh_world) = false) by reflexivity.
  assert (H4 : (0 < maxReconnectAttempts (this fresh_world))%Z) by reflexivity.
  split; [exact H1|]. split; [exact H2|]. split; [exact H3|]. split; [exact H4|].
  exact (proj1 (proj2 (proj2
    (open_resets_the_backoff fresh_world 0 _ 1006%Z (1 # 2)%Q H1 eq_refl H2 H3 H4)))).
Defined.

(** ** [sendAndWait] while the transport is not open *)

(** X15.  [sendAndWait] registers a waiter and merges the headers into
    the envelope exactly when the transport is open.  When it is not, the
    envelope is returned as it was and nothing but the list of promises
    changes: no waiter, no log line, no timer. *)
Theorem sendAndWait_registers_only_when_open (w : World) (m : Message) (now : Z) :
  let p := List.length (promises w) in
  let w' := snd (sendAndWait m now w) in
  fst (sendAndWait m now w) = Ok (p, if is_open w then stamped w m else m) /\
  pendingRequests (this w') =
    (if is_open w
     then obj_set (uuid m) (waiter w (PromiseResolve p) now) (pendingRequests (this w))
     else pendingRequests (this w)) /\
  (is_open w = false ->
   this w' = this w /\ trace w' = trace w /\ timers w' = timers w /\
   sockets w' = sockets w).
Proof.
  intros p w'. subst p w'. destruct (is_open w) eqn:Hopen.
  - destruct (is_open_socket w Hopen) as (i & Hi & _).
    rewrite (sendAndWait_open m now w i Hopen Hi). cbv zeta.
    split; [reflexivity|]. split; [reflexivity | discriminate].
  - rewrite (sendAndWait_not_open m now w Hopen).
    split; [reflexivity|]. split; [reflexivity|]. intros _. repeat split; reflexivity.
Qed.

Lemma sendAndWait_registers_only_when_open_witness :
  is_open fresh_world = false /\
  this (snd (sendAndWait example_request 1000 fresh_world)) = this fresh_world /\
  trace (snd (sendAndWait example_request 1000 fresh_world)) = trace fresh_world.
Proof.
  assert (H : is_open fresh_world = false) by reflexivity.
  split; [exact H|].
  destruct (proj2 (proj2 (sendAndWait_registers_only_when_open fresh_world example_request
                            1000%Z)) H) as (H1 & H2 & _).
  split; [exact H1 | exact H2].
Defined.

(** ** The heartbeat cycle *)

Lemma tidy_heartbeat_tick u : keeps (fun w => w) tidily (heartbeat_tick u).
Proof. unfold heartbeat_tick. tidy_frames. Qed.

Lemma armed_app (k : TimerTask) (w : World) (a b : list Timer) :
  timers w = (a ++ b)%list ->
  armed k w = (filter (fun t => same_kind k (task t)) a
               ++ filter (fun t => same_kind k (task t)) b)%list.
Proof. intros H. unfold armed. rewrite H. apply filter_app. Qed.

Lemma filter_nil_iff {A : Type} (p : A -> bool) (l : list A) :
  (forall x, In x l -> p x = false) -> filter p l = [].
Proof.
  induction l as [|x l IH]; cbn [filter]; [reflexivity|]. intros H.
  rewrite (H x (or_introl eq_refl)). apply IH. intros y Hy. apply H. now right.
Qed.

(** The timeouts that survive disarming the one in the handle: none. *)
Lemma timeouts_disarmed (w : World) :
  tidy w ->
  filter (fun t => same_kind HeartbeatTimeout (task t))
    match heartbeatTimeout (this w) with
    | Some id => filter (fun t => negb (Nat.eqb (timer_id t) id)) (timers w)
    | None => timers w
    end = [].
Proof.
  intros (Ho & _ & _). rewrite Forall_forall in Ho. apply filter_nil_iff. intros t Hin.
  destruct (task t) eqn:Et; try reflexivity. exfalso.
  destruct (heartbeatTimeout (this w)) as [id|] eqn:Eh.
  - apply filter_In in Hin as [Hin Hne]. specialize (Ho t Hin). unfold owned in Ho.
    rewrite Et, Eh in Ho. exact (survivor t id Hne Ho).
  - specialize (Ho t Hin). unfold owned in Ho. rewrite Et, Eh in Ho. discriminate.
Qed.

(** X16.  In a session whose timers are tidy (as they are at any time,
    see X11) a heartbeat tick on an open transport leaves exactly one
    timeout timer armed, and a PONG frame that follows leaves none: the
    transport is not closed by the heartbeat. *)
Theorem PONG_cancels_the_hang_up
    (w : World) (i : nat) (randomUUID data : string) (v : value) :
  tidy w ->
  is_open w = true -> socket (this w) = Some i ->
  JSON_parse data = Some v ->
  get_field v "route" = Some (VString "PONG") ->
  let w1 := snd (heartbeat_tick randomUUID w) in
  let w2 := snd (onmessage data w1) in
  armed HeartbeatTimeout w1 =
    [mkTimer (next_timer w) HeartbeatTimeout (inject_Z (heartbeatTimeoutDuration (this w)))] /\
  armed HeartbeatTimeout w2 = [] /\
  sockets w2 = sockets w /\
  pendingRequests (this w2) = pendingRequests (this w).
Proof.
  intros Ht Hopen Hi Hparse Hroute w1 w2.
  destruct (heartbeat_tick_open w i randomUUID Hopen Hi) as (_ & Hh1 & Ht1 & Hp1 & Hs1).
  fold w1 in Hh1, Ht1, Hp1, Hs1.
  assert (Ht' : tidy w1) by (now apply tidy_heartbeat_tick).
  assert (Hpong : this w2 = this w1 /\ sockets w2 = sockets w1 /\
                  timers w2 = match heartbeatTimeout (this w1) with
                              | Some id =>
                                  filter (fun t => negb (Nat.eqb (timer_id t) id)) (timers w1)
                              | None => timers w1
                              end).
  { subst w2. rewrite (onmessage_PONG w1 data v Hparse Hroute).
    destruct (heartbeatTimeout (this w1)); repeat split; reflexivity. }
  destruct Hpong as (Hthis & Hs2 & Ht2).
  split; [|split; [|split]].
  - rewrite (armed_app _ _ _ _ Ht1), (timeouts_disarmed w Ht). reflexivity.
  - unfold armed. rewrite Ht2. now apply timeouts_disarmed.
  - now rewrite Hs2.
  - now rewrite Hthis.
Qed.

Lemma PONG_cancels_the_hang_up_witness :
  tidy open_world /\
  is_open open_world = true /\
  socket (this open_world) = Some 0 /\
  JSON_parse (serialize pong) = Some (VObject (wire_properties pong)) /\
  get_field (VObject (wire_properties pong)) "route" = Some (VString "PONG") /\
  armed HeartbeatTimeout
    (snd (onmessage (serialize pong) (snd (heartbeat_tick "ping-1" open_world)))) = [].
Proof.
  assert (H0 : tidy open_world)
    by (apply (tidy_run [EvOpen 0]), tidy_new).
  assert (H1 : is_open open_world = true) by reflexivity.
  assert (H2 : socket (this open_world) = Some 0) by reflexivity.
  assert (H3 : JSON_parse (serialize pong) = Some (VObject (wire_properties pong)))
    by (vm_compute; reflexivity).
  assert (H4 : get_field (VObject (wire_properties pong)) "route" = Some (VString "PONG"))
    by reflexivity.
  split; [exact H0|]. split; [exact H1|]. split; [exact H2|]. split; [exact H3|].
  split; [exact H4|].
  exact (proj1 (proj2 (PONG_cancels_the_hang_up open_world 0 "ping-1" _ _ H0 H1 H2 H3 H4))).
Defined.

(** ** After a close, only a reconnect can be pending *)

Lemma owned_held (o : ObservableSocket) (t : Timer) :
  owned o t -> held o (timer_id t) = false -> is_reconnect t = true.
Proof.
  unfold owned, held, is_reconnect. cbn [existsb].
  destruct (task t); intros Ho Hh; try reflexivity; rewrite Ho, Nat.eqb_refl in Hh;
    cbn in Hh; rewrite ?orb_true_r in Hh; discriminate.
Qed.

(** X17.  In a session whose timers are tidy, after [close()] and after
    a close event of a transport that was not closed, every timer that is
    still armed is a reconnect timer. *)
Theorem close_leaves_only_reconnects (w : World) :
  tidy w ->
  Forall (fun t => is_reconnect t = true) (timers (snd (close w))) /\
  forall sock code random s,
    nth_error (sockets w) sock = Some s -> readyState s <> CLOSED ->
    Forall (fun t => is_reconnect t = true)
      (timers (snd (step (EvClose sock code random) w))).
Proof.
  intros (Ho & _ & _). rewrite Forall_forall in Ho. split.
  - rewrite close_cut.
    destruct (socket_close_frame
                (snd ((modify_this (set_manuallyClosed true) ;; stopQueManager ;; stopHeartbeat) w)))
      as (_ & -> & _).
    rewrite snd_bind_unit by apply never_throws_modify_this.
    rewrite snd_bind_unit by apply never_throws_stopQueManager.
    destruct (stop_both (snd (modify_this (set_manuallyClosed true) w)))
      as (_ & _ & _ & _ & Htim).
    apply Forall_forall. intros t Hin. apply Htim in Hin as [Hin Hheld].
    apply (owned_held (this w) t); [now apply Ho | exact Hheld].
  - intros sock code random s Hs Hst. cbn [step]. rewrite Hs.
    destruct s as [u st q]. cbn [readyState] in Hst.
    replace (snd (match st with
                  | CLOSED => ret tt w
                  | _ => (set_readyState sock CLOSED ;; onclose u q code random) w
                  end))
      with (snd (onclose u q code random (snd (set_readyState sock CLOSED w))))
      by (destruct st; try contradiction;
          now rewrite snd_bind_unit by apply never_throws_set_readyState).
    destruct (onclose_clockwork u q code random (snd (set_readyState sock CLOSED w)))
      as [_ Htim].
    apply Forall_forall. intros t Hin. apply Htim in Hin as [[Hin Hheld] | Hr]; [|exact Hr].
    apply (owned_held (this w) t); [now apply Ho | exact Hheld].
Qed.

Lemma close_leaves_only_reconnects_witness :
  tidy open_sweeping_world /\
  nth_error (sockets open_sweeping_world) 0 = Some (mkWebSocket example_url OPEN true) /\
  OPEN <> CLOSED /\
  timers (snd (close open_sweeping_world)) = [] /\
  Forall (fun t => is_reconnect t = true)
    (timers (snd (step (EvClose 0 1006 (1 # 2)) open_sweeping_world))).
Proof.
  assert (H0 : tidy open_sweeping_world)
    by (apply (tidy_run [EvOpen 0]), tidy_new).
  assert (H1 : nth_error (sockets open_sweeping_world) 0
               = Some (mkWebSocket example_url OPEN true)) by reflexivity.
  assert (H2 : readyState (mkWebSocket example_url OPEN true) <> CLOSED) by discriminate.
  split; [exact H0|]. split; [exact H1|]. split; [discriminate|].
  split; [vm_compute; reflexivity|].
  exact (proj2 (close_leaves_only_reconnects open_sweeping_world H0) 0 1006%Z
           (1 # 2)%Q _ H1 H2).
Defined.

(** ** The order of the callbacks at a close event *)

Lemma stopQueManager_keeps_view : keeps close_view eq stopQueManager.
Proof.
  unfold stopQueManager.
  frames (@eq_refl (list (string * QueItem) * option Callback * string * (bool * Z * Z)
                    * list Effect))
         (@eq_trans (list (string * QueItem) * option Callback * string * (bool * Z * Z)
                     * list Effect)) same_leaf.
Qed.

Lemma stopHeartbeat_keeps_view : keeps close_view eq stopHeartbeat.
Proof.
  unfold stopHeartbeat.
  frames (@eq_refl (list (string * QueItem) * option Callback * string * (bool * Z * Z)
                    * list Effect))
         (@eq_trans (list (string * QueItem) * option Callback * string * (bool * Z * Z)
                     * list Effect)) same_leaf.
Qed.

Lemma forEach_fail_trace (l : list (string * QueItem)) (w : World) :
  this (snd (forEach l fail_entry w)) = this w /\
  trace (snd (forEach l fail_entry w)) = (trace w ++ failures l)%list.
Proof.
  revert w. induction l as [|kq l IH]; intros w; cbn [forEach failures map].
  - split; [reflexivity | now rewrite List.app_nil_r].
  - rewrite snd_bind_unit by apply never_throws_fail_entry.
    destruct (IH (snd (fail_entry kq w))) as [-> ->].
    unfold fail_entry, invoke, bind, emit, settle, ret.
    destruct (onMessage (snd kq)); cbn [snd this trace set_promises];
      rewrite <- List.app_assoc; split; reflexivity.
Qed.

Lemma reconnect_policy_trace u q code random (w : World) :
  trace (snd (reconnect_policy u q code random w)) = (trace w ++ close_log code (this w))%list.
Proof.
  unfold reconnect_policy, close_log, console_error, bind, get_this, emit, set_timer, ret.
  destruct (policy_close code); [reflexivity|].
  destruct (manuallyClosed (this w)); [cbn; now rewrite List.app_nil_r|].
  destruct (reconnectAttempts (this w) <? maxReconnectAttempts (this w))%Z;
    [cbn; now rewrite List.app_nil_r | reflexivity].
Qed.

(** X18.  The close handler calls, in this order: the handler of every
    pending waiter with the failure, in table order; the connection-change
    callback with [false]; then it logs the policy close, or that the
    reconnect attempts are used up, if that is the case. *)
Theorem close_event_order u q code random (w : World) :
  trace (snd (onclose u q code random w)) =
  (trace w
   ++ failures (pendingRequests (this w))
   ++ lifecycle (this w) false
   ++ close_log code (this w))%list.
Proof.
  unfold onclose.
  rewrite snd_bind_unit by apply never_throws_stopQueManager.
  rewrite snd_bind_unit by apply never_throws_stopHeartbeat.
  pose proof (stopQueManager_keeps_view w) as H0.
  pose proof (stopHeartbeat_keeps_view (snd (stopQueManager w))) as H1.
  rewrite <- H0 in H1. clear H0.
  set (w1 := snd (stopHeartbeat (snd (stopQueManager w)))) in *.
  unfold close_view, policy_fields in H1.
  apply pair_equal_spec in H1 as [H1 Htr]. apply pair_equal_spec in H1 as [H1 Hpol].
  apply pair_equal_spec in H1 as [H1 Hname]. apply pair_equal_spec in H1 as [Hpend Hcb].
  apply pair_equal_spec in Hpol as [Hpol Hmax]. apply pair_equal_spec in Hpol as [Hman Hatt].
  rewrite bind_get_this.
  rewrite snd_bind_unit by (apply never_throws_forEach; intros ?; apply never_throws_fail_entry).
  destruct (forEach_fail_trace (pendingRequests (this w1)) w1) as [Hthis2 Htr2].
  set (w2 := snd (forEach (pendingRequests (this w1)) fail_entry w1)) in *.
  clearbody w2. clearbody w1.
  rewrite snd_bind_unit by apply never_throws_modify_this.
  rewrite snd_bind_unit by apply never_throws_notify.
  rewrite reconnect_policy_trace.
  unfold notify, lifecycle, close_log, bind, get_this, when_some, emit, modify_this, ret.
  cbn [snd this set_this onSocketConnectionChange name set_pendingRequests].
  rewrite Hthis2, Hcb, Hname.
  destruct (onSocketConnectionChange (this w1)) as [cb|];
    cbn [snd this trace set_this manuallyClosed reconnectAttempts maxReconnectAttempts
         set_pendingRequests];
    rewrite ?Hthis2, Htr2, Hpend, Htr, Hman, Hatt, Hmax, <- ?List.app_assoc;
    reflexivity.
Qed.

(** ** A constructed envelope on the wire *)

(** X19.  An envelope built by the constructor without headers and with a
    JSON-representable payload: the text that [serialize] writes parses to
    an object with exactly the keys [uuid], [route], [payload] and [status],
    in this order.  There is no [headers] key, and the [serialize] method
    itself is not written.  The uuid is the one passed to the constructor,
    unless that is missing or empty: then it is the random one. *)
Theorem constructed_envelope_on_the_wire
    (route0 : string) (payload0 : value) (st : Z) (uuid0 : option string)
    (randomUUID : string) :
  representable payload0 = true ->
  let m := new_Message route0 payload0 None (Some st) uuid0 randomUUID in
  JSON_parse (serialize m) =
    Some (VObject [("uuid", VString (uuid m)); ("route", VString route0);
                   ("payload", payload0); ("status", VNumber (NInt st))]) /\
  uuid m = match uuid0 with
           | Some "" | None => randomUUID
           | Some u => u
           end.
Proof.
  intros Hrep m. split; [|reflexivity].
  assert (Hsafe : wire_safe m = true).
  { unfold wire_safe, m, new_Message. cbn [headers payload andb].
    destruct payload0; try reflexivity; exact Hrep. }
  assert (Hprops : wire_properties m =
                   [("uuid", VString (uuid m)); ("route", VString route0);
                    ("payload", payload0); ("status", VNumber (NInt st))]).
  { unfold wire_properties, m, new_Message. cbn [headers payload route status uuid].
    destruct payload0; try discriminate Hrep; reflexivity. }
  pose proof (wire_properties_representable m Hsafe) as Hr.
  destruct (representable_stringify _ Hr) as [s Hs].
  unfold serialize. rewrite serialize_wire_properties. unfold JSON_stringify at 1.
  rewrite Hs, <- Hprops. now apply JSON_parse_stringify.
Qed.

Lemma constructed_envelope_on_the_wire_witness :
  representable (VObject [("name", VString "X")]) = true /\
  uuid (new_Message "sayHello" (VObject [("name", VString "X")]) None (Some 200%Z)
          (Some "") "id-2") = "id-2" /\
  JSON_parse
    (serialize (new_Message "sayHello" (VObject [("name", VString "X")]) None (Some 200%Z)
                  None "id-2"))
  = Some (VObject [("uuid", VString "id-2"); ("route", VString "sayHello");
                   ("payload", VObject [("name", VString "X")]);
                   ("status", VNumber (NInt 200))]).
Proof.
  assert (H : representable (VObject [("name", VString "X")]) = true) by reflexivity.
  split; [exact H|]. split.
  - exact (proj2 (constructed_envelope_on_the_wire "sayHello" _ 200%Z (Some "") "id-2" H)).
  - exact (proj1 (constructed_envelope_on_the_wire "sayHello" _ 200%Z None "id-2" H)).
Defined.
